(** * Adaptive retry back-off limiters of the external-provisioner controller

    A shallow embedding of the two [rateLimiterWithJitter] implementations of
    package [controller] (the exponent-counter limiter, "Variant A", and the
    failure-rate limiter, "Variant B"), followed by the properties proved
    about them.

    Conventions of the embedding:
    - [time.Duration], [int64] and (on a 64-bit platform) [int] are 64-bit
      two's-complement integers: a [Z] together with the range predicate
      [in_int64]; arithmetic that can leave the range is wrapped with
      [wrap64].
    - [float64] is Rocq's primitive binary64 [float] (IEEE 754, round to
      nearest even), specified by [SpecFloat] through [Prim2SF].
    - The mutex only serialises the methods; every method is modelled as a
      function from the state before to the result and the state after.
    - The random source [*rand.Rand] and the embedded [workqueue.RateLimiter]
      of Variant B belong to other packages; they are parameters.

    After the limiters come their two tests, as scripts of calls and
    checks, and two vendored helpers of the provisioner: [ParseEndpoint] of
    package [csicommon], and the construction of loggers and [flatten] of
    package [klogr]. *)

From Stdlib Require Import String Ascii.
From Stdlib Require Import ZArith Lia Bool List.
From Stdlib Require Import Permutation Sorted OrderedTypeEx.
From Stdlib Require Import Floats.
From Stdlib Require Import Reals Lra.
Import ListNotations.

Local Open Scope Z_scope.

(** ** Go's integer and floating-point conversions *)

Module Go.

Definition min_int64 : Z := - 2 ^ 63.
Definition max_int64 : Z := 2 ^ 63 - 1.

Definition in_int64 (z : Z) : Prop := min_int64 <= z <= max_int64.

Definition in_int64b (z : Z) : bool := (min_int64 <=? z) && (z <=? max_int64).

(** Two's-complement wrap-around of [int64] (and of [int]) arithmetic. *)
Definition wrap64 (z : Z) : Z := (z + 2 ^ 63) mod 2 ^ 64 - 2 ^ 63.

(** [float64(n)] for an integer [n]: the nearest binary64 value. *)
Definition float64_of_int (n : Z) : float :=
  SF2Prim (binary_normalize prec emax n 0 false).

(** [int64(f)] for a [float64] value [f]: the fraction is discarded
    (truncation towards zero).  When the truncated value is not an [int64],
    or [f] is an infinity or a NaN, Go leaves the result to the
    implementation; this is the amd64 result (CVTTSD2SQ's "integer
    indefinite" value, the smallest [int64]). *)
Definition int64_of_float64 (f : float) : Z :=
  match Prim2SF f with
  | S754_zero _ => 0
  | S754_finite s m e =>
      let t := cond_Zopp s (Z.shiftl (Zpos m) e) in
      if in_int64b t then t else min_int64
  | S754_infinity _ | S754_nan => min_int64
  end.

(** [math.Pow(2, float64(n))] for an integer [n]: the power of two itself
    when it is a binary64 value, [+Inf] above the range and [0] below it
    ([float64(n)] is an integer, for which [math.Pow] multiplies exact
    powers of two and finishes with [math.Ldexp]). *)
Definition math_Pow2 (n : Z) : float := Z.ldexp one n.

(** The untyped constant [math.MaxInt64] in a [float64] comparison. *)
Definition math_MaxInt64 : float := float64_of_int max_int64.

End Go.

Import Go.

(** A binary64 value that [rand.Float64] may return: a number of [[0,1)]. *)
Definition unit_sample (p : float) : bool := ((0 <=? p) && (p <? 1))%float.

(** ** Variant A: the exponent-counter limiter *)

Module VariantA.
Section Limiter.

(** [*rand.Rand] and its method [Float64]. *)
Variable Rand : Type.
Variable Float64 : Rand -> float * Rand.

Record rateLimiterWithJitter : Type := mkLimiter {
  exp : Z;
  baseDelay : Z;
  maxDelay : Z;
  rd : Rand
}.

(** The fields hold values of their Go types. *)
Definition well_typed (r : rateLimiterWithJitter) : Prop :=
  in_int64 (exp r) /\ in_int64 (baseDelay r) /\ in_int64 (maxDelay r).

Definition delay_of (r : rateLimiterWithJitter) : float :=
  (float64_of_int (baseDelay r) * math_Pow2 (exp r))%float.

(** The guard of the early return of [When]. *)
Definition capped (r : rateLimiterWithJitter) : bool :=
  (math_MaxInt64 <? delay_of r)%float
  || (maxDelay r <? int64_of_float64 (delay_of r)).

Definition When (r : rateLimiterWithJitter) : Z * rateLimiterWithJitter :=
  let delay := delay_of r in
  if capped r then (maxDelay r, r)
  else
    let (percentage, rd') := Float64 (rd r) in
    let r' := mkLimiter (exp r) (baseDelay r) (maxDelay r) rd' in
    let jitter := (float64_of_int (baseDelay r) * percentage)%float in
    let backoff := (delay - jitter)%float in
    if (backoff <=? 0)%float then (0, r')
    else (int64_of_float64 backoff, r').

Definition Failure (r : rateLimiterWithJitter) : rateLimiterWithJitter :=
  mkLimiter (wrap64 (exp r + 1)) (baseDelay r) (maxDelay r) (rd r).

Definition Success (r : rateLimiterWithJitter) : rateLimiterWithJitter :=
  if 0 <? exp r
  then mkLimiter (wrap64 (exp r - 1)) (baseDelay r) (maxDelay r) (rd r)
  else r.

Definition Exp (r : rateLimiterWithJitter) : Z * rateLimiterWithJitter :=
  (exp r, r).

Definition newItemExponentialFailureRateLimiterWithJitter
    (baseDelay maxDelay : Z) (seed : Rand) : rateLimiterWithJitter :=
  mkLimiter 0 baseDelay maxDelay seed.

(** The methods a client can call, and runs of calls. *)
Inductive call : Type := CallWhen | CallFailure | CallSuccess | CallExp.

Definition step (r : rateLimiterWithJitter) (c : call) : rateLimiterWithJitter :=
  match c with
  | CallWhen => snd (When r)
  | CallFailure => Failure r
  | CallSuccess => Success r
  | CallExp => snd (Exp r)
  end.

Definition run (cs : list call) (r : rateLimiterWithJitter) : rateLimiterWithJitter :=
  fold_left step cs r.

Definition is_failure (c : call) : bool :=
  match c with CallFailure => true | _ => false end.

Definition failures (cs : list call) : Z :=
  Z.of_nat (length (filter is_failure cs)).

(** A state reached from a fresh limiter of a valid configuration. *)
Definition reachable (r : rateLimiterWithJitter) : Prop :=
  exists b m seed cs,
    0 < b /\ b <= m /\ m <= max_int64 /\
    r = run cs (newItemExponentialFailureRateLimiterWithJitter b m seed).

(** [When] as the specification words it: the cap replaces the delay, and
    the jitter is drawn and subtracted in every case. *)
Definition When_with_jitter_always (r : rateLimiterWithJitter) : Z :=
  let delay :=
    if capped r then float64_of_int (maxDelay r) else delay_of r in
  let percentage := fst (Float64 (rd r)) in
  let jitter := (float64_of_int (baseDelay r) * percentage)%float in
  let backoff := (delay - jitter)%float in
  if (backoff <=? 0)%float then 0 else int64_of_float64 backoff.

End Limiter.

Arguments mkLimiter {Rand}.
Arguments exp {Rand}.
Arguments baseDelay {Rand}.
Arguments maxDelay {Rand}.
Arguments rd {Rand}.
Arguments well_typed {Rand}.
Arguments delay_of {Rand}.
Arguments capped {Rand}.
Arguments When {Rand}.
Arguments Failure {Rand}.
Arguments Success {Rand}.
Arguments Exp {Rand}.
Arguments newItemExponentialFailureRateLimiterWithJitter {Rand}.
Arguments step {Rand}.
Arguments run {Rand}.
Arguments reachable {Rand}.
Arguments When_with_jitter_always {Rand}.

End VariantA.

(** ** Variant B: the failure-rate limiter *)

(** The interface [workqueue.RateLimiter] (package client-go): what the
    embedded limiter offers and Variant B promotes. *)
Class RateLimiter (L Item : Type) : Type := {
  rl_When : L -> Item -> Z * L;
  rl_Forget : L -> Item -> L;
  rl_NumRequeues : L -> Item -> Z
}.

Module VariantB.
Section Limiter.

Variable Rand : Type.
Variable Float64 : Rand -> float * Rand.
Context {L Item : Type} {RL : RateLimiter L Item}.

Record rateLimiterWithJitter : Type := mkLimiter {
  inner : L;
  baseDelay : Z;
  maxDelay : Z;
  alpha : float;
  scaleFactor : float;
  failureRate : float;
  rd : Rand
}.

Definition When (item : Item) (r : rateLimiterWithJitter)
    : Z * rateLimiterWithJitter :=
  let (baseline, inner') := rl_When (inner r) item in
  let delay :=
    int64_of_float64 (float64_of_int baseline * scaleFactor r)%float in
  let delay := if maxDelay r <? delay then maxDelay r else delay in
  let (percentage, rd') := Float64 (rd r) in
  let r' := mkLimiter inner' (baseDelay r) (maxDelay r) (alpha r)
              (scaleFactor r) (failureRate r) rd' in
  let jitter :=
    int64_of_float64 (float64_of_int (baseDelay r) * percentage)%float in
  if delay <? jitter then (0, r')
  else (wrap64 (delay - jitter), r').

Definition ScaleFactor (r : rateLimiterWithJitter)
    : float * rateLimiterWithJitter :=
  (scaleFactor r, r).

(** [float64(maxDelay)/float64(baseDelay)], the quotient [Success] uses. *)
Definition delay_ratio (r : rateLimiterWithJitter) : float :=
  (float64_of_int (maxDelay r) / float64_of_int (baseDelay r))%float.

Definition Success (success : bool) (r : rateLimiterWithJitter)
    : rateLimiterWithJitter :=
  let newSample := if negb success then 1%float else 0%float in
  let failureRate' :=
    (alpha r * newSample + (1 - alpha r) * failureRate r)%float in
  let scaleFactor' := (failureRate' * (delay_ratio r - 1) + 1)%float in
  mkLimiter (inner r) (baseDelay r) (maxDelay r) (alpha r)
    scaleFactor' failureRate' (rd r).

(** The promoted methods of the embedded limiter. *)
Definition Forget (item : Item) (r : rateLimiterWithJitter)
    : rateLimiterWithJitter :=
  mkLimiter (rl_Forget (inner r) item) (baseDelay r) (maxDelay r) (alpha r)
    (scaleFactor r) (failureRate r) (rd r).

Definition NumRequeues (item : Item) (r : rateLimiterWithJitter)
    : Z * rateLimiterWithJitter :=
  (rl_NumRequeues (inner r) item, r).

(** [workqueue.NewItemExponentialFailureRateLimiter(baseDelay, maxDelay)]
    is the argument [inner0]. *)
Definition newItemExponentialFailureRateLimiterWithJitter
    (inner0 : L) (baseDelay maxDelay : Z) (alpha : float) (seed : Rand)
    : rateLimiterWithJitter :=
  mkLimiter inner0 baseDelay maxDelay alpha 1%float 0%float seed.

Inductive call : Type :=
| CallWhen (item : Item)
| CallScaleFactor
| CallSuccess (success : bool)
| CallForget (item : Item)
| CallNumRequeues (item : Item).

Definition step (r : rateLimiterWithJitter) (c : call) : rateLimiterWithJitter :=
  match c with
  | CallWhen item => snd (When item r)
  | CallScaleFactor => snd (ScaleFactor r)
  | CallSuccess b => Success b r
  | CallForget item => Forget item r
  | CallNumRequeues item => snd (NumRequeues item r)
  end.

Definition run (cs : list call) (r : rateLimiterWithJitter) : rateLimiterWithJitter :=
  fold_left step cs r.

(** The outcomes reported in a run, in order. *)
Fixpoint outcomes (cs : list call) : list bool :=
  match cs with
  | [] => []
  | CallSuccess b :: cs' => b :: outcomes cs'
  | _ :: cs' => outcomes cs'
  end.

(** The preconditions of the constructor: [0 < baseDelay <= maxDelay] (both
    durations) and [0 < alpha <= 1]. *)
Definition valid_config (r : rateLimiterWithJitter) : Prop :=
  0 < baseDelay r /\ baseDelay r <= maxDelay r /\ maxDelay r <= max_int64
  /\ (0 <? alpha r)%float = true /\ (alpha r <=? 1)%float = true.

(** [0 <= failureRate <= 1] and [1 <= scaleFactor <= maxDelay/baseDelay],
    with the comparisons and the quotient of [float64]. *)
Definition average_in_range (r : rateLimiterWithJitter) : bool :=
  ((0 <=? failureRate r) && (failureRate r <=? 1)
   && (1 <=? scaleFactor r) && (scaleFactor r <=? delay_ratio r))%float.

(** The fields that [Success] reads and writes. *)
Definition average (r : rateLimiterWithJitter) : Z * Z * float * float * float :=
  (baseDelay r, maxDelay r, alpha r, scaleFactor r, failureRate r).

(** A run that only reports outcomes. *)
Definition report_all (bs : list bool) (r : rateLimiterWithJitter)
    : rateLimiterWithJitter :=
  fold_left (fun r b => Success b r) bs r.

End Limiter.

Arguments rateLimiterWithJitter : clear implicits.
Arguments mkLimiter {Rand L}.
Arguments inner {Rand L}.
Arguments baseDelay {Rand L}.
Arguments maxDelay {Rand L}.
Arguments alpha {Rand L}.
Arguments scaleFactor {Rand L}.
Arguments failureRate {Rand L}.
Arguments rd {Rand L}.
Arguments When {Rand} Float64 {L Item RL}.
Arguments ScaleFactor {Rand L}.
Arguments delay_ratio {Rand L}.
Arguments Success {Rand L}.
Arguments Forget {Rand L Item RL}.
Arguments NumRequeues {Rand L Item RL}.
Arguments newItemExponentialFailureRateLimiterWithJitter {Rand L}.
Arguments CallWhen {Item}.
Arguments CallScaleFactor {Item}.
Arguments CallSuccess {Item}.
Arguments CallForget {Item}.
Arguments CallNumRequeues {Item}.
Arguments step {Rand} Float64 {L Item RL}.
Arguments run {Rand} Float64 {L Item RL}.
Arguments outcomes {Item}.
Arguments valid_config {Rand L}.
Arguments average_in_range {Rand L}.
Arguments average {Rand L}.
Arguments report_all {Rand L}.

End VariantB.

(** ** Instances used to run the limiters on concrete inputs *)

(** A random source that returns the same sample at every draw; its state is
    that sample. *)
Definition constant_source (g : float) : float * float := (g, g).

(** client-go's [ItemExponentialFailureRateLimiter], the limiter that the
    constructor of Variant B embeds.  It lives outside the repository; it is
    written out here so that the interface has an instance to run. *)
Module Workqueue.

Record ItemExponentialFailureRateLimiter : Type := mkItemLimiter {
  failures : Z -> Z;
  baseDelay : Z;
  maxDelay : Z
}.

Definition When (l : ItemExponentialFailureRateLimiter) (item : Z)
    : Z * ItemExponentialFailureRateLimiter :=
  let exp := failures l item in
  let l' := mkItemLimiter
              (fun i => if i =? item then wrap64 (failures l i + 1)
                        else failures l i)
              (baseDelay l) (maxDelay l) in
  let backoff := (float64_of_int (baseDelay l) * math_Pow2 exp)%float in
  if (math_MaxInt64 <? backoff)%float then (maxDelay l, l')
  else
    let calculated := int64_of_float64 backoff in
    if maxDelay l <? calculated then (maxDelay l, l') else (calculated, l').

Definition Forget (l : ItemExponentialFailureRateLimiter) (item : Z)
    : ItemExponentialFailureRateLimiter :=
  mkItemLimiter (fun i => if i =? item then 0 else failures l i)
    (baseDelay l) (maxDelay l).

Definition NumRequeues (l : ItemExponentialFailureRateLimiter) (item : Z) : Z :=
  failures l item.

Definition NewItemExponentialFailureRateLimiter (baseDelay maxDelay : Z)
    : ItemExponentialFailureRateLimiter :=
  mkItemLimiter (fun _ => 0) baseDelay maxDelay.

End Workqueue.

#[export] Instance ItemExponential_RateLimiter
    : RateLimiter Workqueue.ItemExponentialFailureRateLimiter Z := {
  rl_When := Workqueue.When;
  rl_Forget := Workqueue.Forget;
  rl_NumRequeues := Workqueue.NumRequeues
}.

(** ** The claims of the specification, as propositions *)

Module Claims.

(** [Failure] adds one to [exp] and [Success] removes one except at zero,
    in every state of the data model ([exp >= 0]). *)
Definition exp_updates_exact : Prop :=
  forall (Rand : Type) (r : VariantA.rateLimiterWithJitter Rand),
    VariantA.well_typed r -> 0 <= VariantA.exp r ->
    VariantA.Failure r =
      VariantA.mkLimiter (VariantA.exp r + 1) (VariantA.baseDelay r)
        (VariantA.maxDelay r) (VariantA.rd r)
    /\ VariantA.Success r =
      VariantA.mkLimiter (if VariantA.exp r =? 0 then 0 else VariantA.exp r - 1)
        (VariantA.baseDelay r) (VariantA.maxDelay r) (VariantA.rd r).

(** [0 <= exp] holds initially, is kept by every method, and so holds in
    every reachable state. *)
Definition exp_nonneg_invariant : Prop :=
  forall (Rand : Type) (Float64 : Rand -> float * Rand),
    (forall b m (seed : Rand),
        0 <= VariantA.exp
               (VariantA.newItemExponentialFailureRateLimiterWithJitter b m seed))
    /\ (forall r c, VariantA.well_typed r -> 0 <= VariantA.exp r ->
                    0 <= VariantA.exp (VariantA.step Float64 r c))
    /\ (forall r, VariantA.reachable Float64 r -> 0 <= VariantA.exp r).

(** [When] of Variant A draws and subtracts the jitter in every case,
    also when the delay was replaced by the cap. *)
Definition When_jitter_in_every_case : Prop :=
  forall (Rand : Type) (Float64 : Rand -> float * Rand)
         (r : VariantA.rateLimiterWithJitter Rand),
    VariantA.reachable Float64 r ->
    unit_sample (fst (Float64 (VariantA.rd r))) = true ->
    fst (VariantA.When Float64 r) = VariantA.When_with_jitter_always Float64 r.

(** [Success] of Variant B computes the two formulas, and so the scale
    factor is 1 at failure rate 0 and [maxDelay/baseDelay] at failure rate 1
    (stated for the limiters the specification allows: a valid configuration
    whose average is in range). *)
Definition Success_formulas : Prop :=
  forall (Rand L : Type) (r : VariantB.rateLimiterWithJitter Rand L)
         (success : bool),
    VariantB.valid_config r -> VariantB.average_in_range r = true ->
    let sample := if success then 0%float else 1%float in
    let r' := VariantB.Success success r in
    VariantB.failureRate r'
    = (VariantB.alpha r * sample
       + (1 - VariantB.alpha r) * VariantB.failureRate r)%float
    /\ VariantB.scaleFactor r'
       = (VariantB.failureRate r' * (VariantB.delay_ratio r - 1) + 1)%float
    /\ ((VariantB.failureRate r' =? 0)%float = true ->
        VariantB.scaleFactor r' = 1%float)
    /\ (VariantB.failureRate r' = 1%float ->
        VariantB.scaleFactor r' = VariantB.delay_ratio r).

End Claims.

(** ** The tests of the two limiters

    Each test is a script of calls with checks in between.  A check is
    recorded as [true] when the test reports no error there; the result of a
    test is the list of its checks, in program order. *)

Module Time.

(** [time.Second], in nanoseconds. *)
Definition Second : Z := 1000000000.

End Time.

(** [TestRateLimiter] of [pkg/controller/ratelimiter_test.go], the test of
    Variant A. *)
Module VariantATest.
Section Test.

Variable Rand : Type.
Variable Float64 : Rand -> float * Rand.

Definition TestRateLimiter (seed : Rand) : list bool :=
  let rd :=
    VariantA.newItemExponentialFailureRateLimiterWithJitter
      Time.Second (4 * Time.Second) seed in
  let (backoff, rd) := VariantA.When Float64 rd in
  let check1 := negb (Time.Second <? backoff) in
  let rd := VariantA.Failure rd in
  let (exp, rd) := VariantA.Exp rd in
  let check2 := negb (negb (exp =? 1)) in
  let (backoff, rd) := VariantA.When Float64 rd in
  let check3 :=
    negb ((backoff <? Time.Second) || (2 * Time.Second <? backoff)) in
  let rd := VariantA.Failure rd in
  let (exp, rd) := VariantA.Exp rd in
  let check4 := negb (negb (exp =? 2)) in
  let (backoff, rd) := VariantA.When Float64 rd in
  let check5 :=
    negb ((backoff <? 2 * Time.Second) || (4 * Time.Second <? backoff)) in
  let rd := VariantA.Failure rd in
  let (exp, rd) := VariantA.Exp rd in
  let check6 := negb (negb (exp =? 3)) in
  let (backoff, rd) := VariantA.When Float64 rd in
  let check7 :=
    negb ((backoff <? 2 * Time.Second) || (4 * Time.Second <? backoff)) in
  let rd := VariantA.Success rd in
  let (exp, rd) := VariantA.Exp rd in
  let check8 := negb (negb (exp =? 0)) in
  let (backoff, rd) := VariantA.When Float64 rd in
  let check9 := negb (Time.Second <? backoff) in
  [check1; check2; check3; check4; check5; check6; check7; check8; check9].

End Test.

Arguments TestRateLimiter {Rand}.

End VariantATest.

(** [TestRateLimiter] of Variant B.  The limiter that the constructor embeds
    is the argument [inner0]; [item] is the item [1] of the test. *)
Module VariantBTest.
Section Test.

Variable Rand : Type.
Variable Float64 : Rand -> float * Rand.
Context {L Item : Type} {RL : RateLimiter L Item}.

Definition factorMaxDelay : Z := 10.

(** One of the two loops of the test: [n] rounds of [When], [Forget],
    [Success] and [ScaleFactor], with the check of the delay of each round. *)
Fixpoint rounds (n : nat) (success : bool) (maxDelay : Z) (item : Item)
    (rd : VariantB.rateLimiterWithJitter Rand L)
    : list bool * VariantB.rateLimiterWithJitter Rand L :=
  match n with
  | O => ([], rd)
  | S n' =>
      let (backoff, rd) := VariantB.When Float64 item rd in
      let check := negb (maxDelay <? backoff) in
      let rd := VariantB.Forget item rd in
      let rd := VariantB.Success success rd in
      let (factor, rd) := VariantB.ScaleFactor rd in
      let (checks, rd) := rounds n' success maxDelay item rd in
      (check :: checks, rd)
  end.

Definition TestRateLimiter (inner0 : L) (item : Item) (seed : Rand)
    : list bool :=
  let maxDelay := factorMaxDelay * Time.Second in
  let rd :=
    VariantB.newItemExponentialFailureRateLimiterWithJitter
      inner0 Time.Second maxDelay (5 / 100)%float seed in
  let (checks1, rd) := rounds 100 false maxDelay item rd in
  let (factor, rd) := VariantB.ScaleFactor rd in
  let check1 := negb (factor <? 99 / 10)%float in
  let (checks2, rd) := rounds 100 true maxDelay item rd in
  let (factor, rd) := VariantB.ScaleFactor rd in
  let check2 := negb (11 / 10 <? factor)%float in
  checks1 ++ [check1] ++ checks2 ++ [check2].

End Test.

Arguments rounds {Rand} Float64 {L Item RL}.
Arguments TestRateLimiter {Rand} Float64 {L Item RL}.

End VariantBTest.

(** ** Counting the calls of a run of Variant A *)

Module VariantACalls.

Definition is_success (c : VariantA.call) : bool :=
  match c with VariantA.CallSuccess => true | _ => false end.

Definition successes (cs : list VariantA.call) : Z :=
  Z.of_nat (length (filter is_success cs)).

End VariantACalls.

(** ** Go's strings, as far as [ParseEndpoint] uses them

    A Go [string] is a sequence of bytes: a [string] of [Stdlib]. *)

Module Strings.

(** [c < utf8.RuneSelf]: the byte is an ASCII character. *)
Definition is_ascii (c : ascii) : bool := (N_of_ascii c <? 128)%N.

Definition is_upper (c : ascii) : bool :=
  ((65 <=? N_of_ascii c) && (N_of_ascii c <=? 90))%N.

(** The ASCII letter [c] in lower case: [c += 'a' - 'A'] for ['A'..'Z']. *)
Definition lower (c : ascii) : ascii :=
  if is_upper c then ascii_of_N (N_of_ascii c + 32) else c.

Fixpoint all_ascii (s : string) : bool :=
  match s with
  | EmptyString => true
  | String c s' => is_ascii c && all_ascii s'
  end.

Fixpoint map_bytes (f : ascii -> ascii) (s : string) : string :=
  match s with
  | EmptyString => EmptyString
  | String c s' => String (f c) (map_bytes f s')
  end.

(** [strings.ToLower]: a string of ASCII bytes is lowered byte by byte; any
    other string goes through [strings.Map(unicode.ToLower, s)], which is the
    parameter [unicode_lower]. *)
Definition ToLower (unicode_lower : string -> string) (s : string) : string :=
  if all_ascii s then map_bytes lower s else unicode_lower s.

(** [strings.HasPrefix(s, prefix)]. *)
Definition HasPrefix (s prefix : string) : bool := String.prefix prefix s.

Fixpoint drop (n : nat) (s : string) : string :=
  match n, s with
  | O, _ => s
  | S n', String _ s' => drop n' s'
  | S _, EmptyString => EmptyString
  end.

(** The text before and the text after the first occurrence of [sep] in
    [s], if there is one. *)
Fixpoint cut (sep s : string) : option (string * string) :=
  if String.prefix sep s then Some (EmptyString, drop (String.length sep) s)
  else
    match s with
    | EmptyString => None
    | String c s' =>
        match cut sep s' with
        | Some (before, after) => Some (String c before, after)
        | None => None
        end
    end.

(** [strings.SplitN(s, sep, 2)] for a separator that is not empty: [s] cut
    at the first occurrence of [sep], or [s] alone. *)
Definition SplitN2 (s sep : string) : list string :=
  match cut sep s with
  | Some (before, after) => [before; after]
  | None => [s]
  end.

End Strings.

(** ** [ParseEndpoint] of package [csicommon] *)

Module CsiCommon.

(** What a call gives: the three results, or the run-time panic of an index
    out of range. *)
Inductive result : Type :=
| Returns (scheme addr : string) (err : option string)
| Panics.

(** The results of the last [return]: two empty strings and the error of
    [fmt.Errorf("Invalid endpoint: %v", ep)]. *)
Definition invalid (ep : string) : result :=
  Returns EmptyString EmptyString
    (Some (String.append "Invalid endpoint: " ep)).

Section ParseEndpoint.

Variable unicode_lower : string -> string.

Definition ParseEndpoint (ep : string) : result :=
  if Strings.HasPrefix (Strings.ToLower unicode_lower ep) "unix://"
     || Strings.HasPrefix (Strings.ToLower unicode_lower ep) "tcp://"
  then
    let s := Strings.SplitN2 ep "://" in
    match nth_error s 1 with
    | None => Panics
    | Some s1 =>
        if negb (String.eqb s1 EmptyString)
        then
          match nth_error s 0 with
          | Some s0 => Returns s0 s1 None
          | None => Panics
          end
        else invalid ep
    end
  else invalid ep.

End ParseEndpoint.

(** A scheme that reads [unix] or [tcp] once its ASCII letters are put in
    lower case. *)
Definition scheme_ok (scheme : string) : Prop :=
  Strings.map_bytes Strings.lower scheme = "unix"%string
  \/ Strings.map_bytes Strings.lower scheme = "tcp"%string.

End CsiCommon.

(** ** The logger of package [klogr]

    The part of [klogr.go] that builds loggers: the constructors, [clone]
    and the four [With...]/[V] methods.  A [klogger] is passed and returned
    by value; [values] is a slice that [clone] copies, so that a logger and
    the loggers derived from it never share a backing array: a list. *)

Module Klogr.

Definition FormatSerialize : string := "Serialize".
Definition FormatKlog : string := "Klog".

Section Logger.

(** The type of the elements of [values], Go's [interface{}]. *)
Variable Value : Type.

Record klogger : Type := mkLogger {
  level : Z;
  callDepth : Z;
  prefix : string;
  values : list Value;
  format : string
}.

(** An [Option] is a function on a pointer to the logger under
    construction: an update of it. *)
Definition Option : Type := klogger -> klogger.

Definition WithFormat (f : string) : Option :=
  fun l => mkLogger (level l) (callDepth l) (prefix l) (values l) f.

Definition NewWithOptions (options : list Option) : klogger :=
  fold_left (fun l option => option l) options
    (mkLogger 0 0 EmptyString [] FormatKlog).

Definition New : klogger := NewWithOptions [WithFormat FormatSerialize].

Definition copySlice (input : list Value) : list Value := input.

(** [clone] sets four of the five fields; [callDepth] keeps the zero value
    of the composite literal. *)
Definition clone (l : klogger) : klogger :=
  mkLogger (level l) 0 (prefix l) (copySlice (values l)) (format l).

Definition V (lvl : Z) (l : klogger) : klogger :=
  let new := clone l in
  mkLogger lvl (callDepth new) (prefix new) (values new) (format new).

Definition WithName (name : string) (l : klogger) : klogger :=
  let new := clone l in
  let new :=
    if (0 <? String.length (prefix l))%nat
    then mkLogger (level new) (callDepth new)
           (String.append (prefix l) "/") (values new) (format new)
    else new in
  mkLogger (level new) (callDepth new) (String.append (prefix new) name)
    (values new) (format new).

Definition WithValues (kvList : list Value) (l : klogger) : klogger :=
  let new := clone l in
  mkLogger (level new) (callDepth new) (prefix new) (values new ++ kvList)
    (format new).

Definition WithCallDepth (depth : Z) (l : klogger) : klogger :=
  let new := clone l in
  mkLogger (level new) (wrap64 (callDepth new + depth)) (prefix new)
    (values new) (format new).

(** The calls that derive a logger from a logger, and chains of them. *)
Inductive call : Type :=
| CallV (lvl : Z)
| CallWithName (name : string)
| CallWithValues (kvList : list Value)
| CallWithCallDepth (depth : Z).

Definition step (l : klogger) (c : call) : klogger :=
  match c with
  | CallV lvl => V lvl l
  | CallWithName name => WithName name l
  | CallWithValues kvList => WithValues kvList l
  | CallWithCallDepth depth => WithCallDepth depth l
  end.

Definition run (cs : list call) (l : klogger) : klogger := fold_left step cs l.

(** The names, and the key/value lists, that a chain passes. *)
Fixpoint names (cs : list call) : list string :=
  match cs with
  | [] => []
  | CallWithName name :: cs' => name :: names cs'
  | _ :: cs' => names cs'
  end.

Fixpoint key_values (cs : list call) : list Value :=
  match cs with
  | [] => []
  | CallWithValues kvList :: cs' => kvList ++ key_values cs'
  | _ :: cs' => key_values cs'
  end.

(** A list of names without the empty names in front. *)
Fixpoint drop_empty (ns : list string) : list string :=
  match ns with
  | EmptyString :: ns' => drop_empty ns'
  | _ => ns
  end.

End Logger.

Arguments mkLogger {Value}.
Arguments level {Value}.
Arguments callDepth {Value}.
Arguments prefix {Value}.
Arguments values {Value}.
Arguments format {Value}.
Arguments WithFormat {Value}.
Arguments NewWithOptions {Value}.
Arguments New {Value}.
Arguments clone {Value}.
Arguments V {Value}.
Arguments WithName {Value}.
Arguments WithValues {Value}.
Arguments WithCallDepth {Value}.
Arguments CallV {Value}.
Arguments CallWithName {Value}.
Arguments CallWithValues {Value}.
Arguments CallWithCallDepth {Value}.
Arguments step {Value}.
Arguments run {Value}.
Arguments names {Value}.
Arguments key_values {Value}.

End Klogr.

(** ** [flatten] of package [klogr]

    [flatten] turns a list of alternating keys and values into the text
    [key=value key=value ...], the keys sorted.  The values are Go's
    [interface{}]: [nil], a string, or anything else.  [pretty], the JSON
    encoding of a value by [encoding/json], is a parameter. *)

Module KlogrFlatten.

(** [sort.Strings]: the strings in increasing order, bytes compared as
    unsigned numbers.  (A sorted list of strings is determined by its
    elements, so the algorithm does not matter: insertion sort.) *)
Fixpoint insert (k : string) (ks : list string) : list string :=
  match ks with
  | [] => [k]
  | k' :: ks' => if String.leb k k' then k :: ks else k' :: insert k ks'
  end.

Fixpoint sort_Strings (ks : list string) : list string :=
  match ks with
  | [] => []
  | k :: ks' => insert k (sort_Strings ks')
  end.

(** What a call gives: the text, or a panic with its message. *)
Inductive result : Type :=
| Returns (text : string)
| Panics (message : string).

Section Flatten.

Variable Other : Type.

Inductive value : Type :=
| Nil
| Str (s : string)
| Any (o : Other).

Variable pretty : value -> string.

(** The map [vals] after [vals[k] = v]. *)
Definition store (vals : string -> value) (k : string) (v : value)
    : string -> value :=
  fun k' => if String.eqb k' k then v else vals k'.

(** The first loop, from index [i] on: [kvList] is what is left of the
    list.  It ends with the keys and the map, or at a key that is not a
    string. *)
Fixpoint collect (kvList : list value) (keys : list string)
    (vals : string -> value) : list string * (string -> value) + value :=
  match kvList with
  | [] => inl (keys, vals)
  | Str k :: rest =>
      match rest with
      | [] => inl (keys ++ [k], store vals k Nil)
      | v :: rest' => collect rest' (keys ++ [k]) (store vals k v)
      end
  | key :: _ => inr key
  end.

(** The second loop: the buffer after all keys. *)
Definition write (keys : list string) (vals : string -> value) : string :=
  String.concat " "
    (map (fun k =>
            String.append (pretty (Str k))
              (String.append "=" (pretty (vals k))))
         keys).

Definition flatten (kvList : list value) : result :=
  match collect kvList [] (fun _ => Nil) with
  | inl (keys, vals) => Returns (write (sort_Strings keys) vals)
  | inr key =>
      Panics (String.append "key is not a string: " (pretty key))
  end.

(** A list of pairs laid out as [flatten] takes it. *)
Fixpoint key_values (pairs : list (string * value)) : list value :=
  match pairs with
  | [] => []
  | (k, v) :: pairs' => Str k :: v :: key_values pairs'
  end.

(** The map after the pairs were stored, one after the other. *)
Definition stores (pairs : list (string * value)) (vals : string -> value)
    : string -> value :=
  fold_left (fun f p => store f (fst p) (snd p)) pairs vals.

Definition has_key (pairs : list (string * value)) (k : string) : bool :=
  existsb (fun p => String.eqb (fst p) k) pairs.

(** The value of the last pair with key [k], [Nil] if there is none. *)
Fixpoint last_value (pairs : list (string * value)) (k : string) : value :=
  match pairs with
  | [] => Nil
  | (k', v) :: pairs' =>
      if has_key pairs' k then last_value pairs' k
      else if String.eqb k' k then v else Nil
  end.

End Flatten.

Arguments Nil {Other}.
Arguments Str {Other}.
Arguments Any {Other}.
Arguments store {Other}.
Arguments collect {Other}.
Arguments write {Other}.
Arguments flatten {Other}.
Arguments key_values {Other}.
Arguments last_value {Other}.
Arguments stores {Other}.
Arguments has_key {Other}.

End KlogrFlatten.

(** ** The real numbers behind binary64

    The definitions that the proofs about [float64] arithmetic are stated
    with: the real value of a binary64 number, and rounding to nearest with
    ties to even as a relation between reals. *)

(** The real number [2^e]. *)
Definition bpow (e : Z) : R := powerRZ 2 e.

(** [n] is the integer nearest to [x], the even one at a tie. *)
Definition nearest_even (x : R) (n : Z) : Prop :=
  (IZR n - / 2 <= x <= IZR n + / 2)%R
  /\ ((x = IZR n - / 2 \/ x = IZR n + / 2)%R -> Z.even n = true).

(** The exponent of the binary64 numbers of binade [k]. *)
Definition fexp64 (k : Z) : Z := SpecFloat.fexp prec emax k.

(** [rounds_to v r]: [r] is the binary64 rounding of the real [v >= 0],
    overflow aside. *)
Definition rounds_to (v r : R) : Prop :=
  (v = 0 /\ r = 0)%R
  \/ ((0 < v)%R /\
      exists k n : Z,
        (bpow (k - 1) <= v < bpow k)%R
        /\ nearest_even (v * bpow (- fexp64 k)) n
        /\ r = (IZR n * bpow (fexp64 k))%R).

(** The nonnegative reals that binary64 holds, overflow aside. *)
Definition representable (y : R) : Prop :=
  y = 0%R
  \/ exists k m e : Z,
       0 < m /\ (bpow (k - 1) <= y < bpow k)%R
       /\ y = (IZR m * bpow e)%R /\ fexp64 k <= e.

(** The real value of a binary64 number; zero for infinities and NaN. *)
Definition B2R (x : spec_float) : R :=
  match x with
  | S754_finite s m e => (IZR (cond_Zopp s (Zpos m)) * bpow e)%R
  | _ => 0%R
  end.

(** Zero or a positive finite number. *)
Definition nonneg_finite (x : spec_float) : Prop :=
  match x with
  | S754_zero _ => True
  | S754_finite s _ _ => s = false
  | _ => False
  end.

(** [x] lies in [[m, m+1)], at the place [l] says. *)
Definition inbetween_int (m : Z) (x : R) (l : location) : Prop :=
  match l with
  | loc_Exact => x = IZR m
  | loc_Inexact Lt => (IZR m < x < IZR m + / 2)%R
  | loc_Inexact Eq => x = (IZR m + / 2)%R
  | loc_Inexact Gt => (IZR m + / 2 < x < IZR m + 1)%R
  end.

(** A shift record stands for the real [x] when [x] lies the way its two
    bits say in the unit interval above its integer. *)
Definition stands_for (mrs : shr_record) (x : R) : Prop :=
  0 <= shr_m mrs /\ inbetween_int (shr_m mrs) x (loc_of_shr_record mrs).

(** The result [res] of an operation is zero or finite, of sign [s] and
    magnitude [r]. *)
Definition rounded_value (res : spec_float) (s : bool) (r : R) : Prop :=
  (res = S754_zero s /\ r = 0%R)
  \/ (exists m e, res = S754_finite s m e /\ r = (IZR (Zpos m) * bpow e)%R
                  /\ SpecFloat.bounded prec emax m e = true).

(** A well-formed binary64 number that is zero or positive. *)
Definition valid_nonneg (x : spec_float) : Prop :=
  valid_binary x = true /\ nonneg_finite x.

(** The real value of a [float64]. *)
Definition F2R (f : float) : R := B2R (Prim2SF f).

(** [f] is zero or a positive finite number. *)
Definition nonneg_float (f : float) : Prop := nonneg_finite (Prim2SF f).

(** The range of the average, read on the real values. *)
Definition average_values_in_range {Rand L : Type}
    (r : VariantB.rateLimiterWithJitter Rand L) : Prop :=
  nonneg_float (VariantB.failureRate r)
  /\ (0 <= F2R (VariantB.failureRate r) <= 1)%R
  /\ nonneg_float (VariantB.scaleFactor r)
  /\ (1 <= F2R (VariantB.scaleFactor r) <= F2R (VariantB.delay_ratio r))%R.

(** * Properties *)

(** ** 64-bit integers *)

Lemma wrap64_in_range (z : Z) : in_int64 z -> wrap64 z = z.
Proof.
  unfold in_int64, min_int64, max_int64, wrap64. intros H.
  rewrite Z.mod_small; lia.
Qed.

Lemma wrap64_past_max : wrap64 (max_int64 + 1) = min_int64.
Proof. reflexivity. Qed.

Lemma in_int64b_true (z : Z) : in_int64b z = true <-> in_int64 z.
Proof.
  unfold in_int64b, in_int64. rewrite andb_true_iff, !Z.leb_le. tauto.
Qed.

(** ** Variant A: the exponent *)

Section VariantA_exponent.

Context {Rand : Type} (Float64 : Rand -> float * Rand).
Implicit Types r : VariantA.rateLimiterWithJitter Rand.

Lemma When_keeps_fields r :
  VariantA.exp (snd (VariantA.When Float64 r)) = VariantA.exp r
  /\ VariantA.baseDelay (snd (VariantA.When Float64 r)) = VariantA.baseDelay r
  /\ VariantA.maxDelay (snd (VariantA.When Float64 r)) = VariantA.maxDelay r.
Proof.
  unfold VariantA.When.
  destruct (VariantA.capped r); [now simpl |].
  destruct (Float64 (VariantA.rd r)) as [p g].
  destruct (_ <=? _)%float; now simpl.
Qed.

Lemma Failure_below_max r :
  in_int64 (VariantA.exp r) -> VariantA.exp r < max_int64 ->
  VariantA.exp (VariantA.Failure r) = VariantA.exp r + 1.
Proof.
  intros [Hlo Hhi] Hlt. simpl. apply wrap64_in_range.
  unfold in_int64 in *. unfold min_int64, max_int64 in *. lia.
Qed.

Lemma Success_exp r :
  in_int64 (VariantA.exp r) ->
  VariantA.exp (VariantA.Success r)
  = if 0 <? VariantA.exp r then VariantA.exp r - 1 else VariantA.exp r.
Proof.
  intros [Hlo Hhi]. unfold VariantA.Success.
  destruct (Z.ltb_spec 0 (VariantA.exp r)); [| reflexivity].
  simpl. apply wrap64_in_range.
  unfold in_int64, min_int64, max_int64 in *. lia.
Qed.

Lemma failures_cons c cs :
  VariantA.failures (c :: cs)
  = (if VariantA.is_failure c then 1 else 0) + VariantA.failures cs.
Proof.
  unfold VariantA.failures. simpl.
  destruct (VariantA.is_failure c); simpl length; lia.
Qed.

Lemma failures_nonneg cs : 0 <= VariantA.failures cs.
Proof. unfold VariantA.failures. lia. Qed.

(** Along a run the exponent stays between zero and its start plus the
    number of failures reported, as long as that sum fits an [int]. *)
Lemma run_exp_bounds cs : forall r,
  0 <= VariantA.exp r ->
  VariantA.exp r + VariantA.failures cs <= max_int64 ->
  0 <= VariantA.exp (VariantA.run Float64 cs r)
    <= VariantA.exp r + VariantA.failures cs.
Proof.
  induction cs as [| c cs IH]; intros r H0 Hle.
  - simpl. unfold VariantA.failures. simpl. lia.
  - rewrite failures_cons in Hle |- *.
    pose proof (failures_nonneg cs) as Hf.
    assert (Hin : in_int64 (VariantA.exp r)).
    { unfold in_int64, min_int64, max_int64 in *.
      destruct (VariantA.is_failure c); lia. }
    change (VariantA.run Float64 (c :: cs) r)
      with (VariantA.run Float64 cs (VariantA.step Float64 r c)).
    destruct c; simpl VariantA.is_failure in *; cbv iota in *.
    + destruct (When_keeps_fields r) as [He _].
      specialize (IH (VariantA.step Float64 r VariantA.CallWhen)).
      simpl VariantA.step in *. rewrite He in IH. apply IH; lia.
    + specialize (IH (VariantA.Failure r)).
      simpl VariantA.step.
      rewrite Failure_below_max in IH by (assumption || lia).
      assert (0 <= VariantA.exp (VariantA.run Float64 cs (VariantA.Failure r))
                <= VariantA.exp r + 1 + VariantA.failures cs) by (apply IH; lia).
      lia.
    + specialize (IH (VariantA.Success r)).
      simpl VariantA.step.
      rewrite Success_exp in IH by assumption.
      destruct (Z.ltb_spec 0 (VariantA.exp r)).
      * assert (0 <= VariantA.exp (VariantA.run Float64 cs (VariantA.Success r))
                  <= VariantA.exp r - 1 + VariantA.failures cs) by (apply IH; lia).
        lia.
      * apply IH; lia.
    + simpl VariantA.step. apply IH; lia.
Qed.

End VariantA_exponent.

(** C3, as stated, fails: [exp] is an [int], so at its largest value the
    increment of [Failure] wraps around instead of adding one. *)
Lemma Failure_wraps_at_max_int : ~ Claims.exp_updates_exact.
Proof.
  intros H.
  destruct (H unit (VariantA.mkLimiter max_int64 1 1 tt)) as [HF _].
  - repeat split; vm_compute; congruence.
  - vm_compute; congruence.
  - apply (f_equal VariantA.exp) in HF. vm_compute in HF. discriminate HF.
Qed.

(** C3 (amended): in every state of the data model, [Failure] increases
    [exp] by exactly one as long as [exp] is below the largest [int] (there is
    no smaller cap), and wraps to the smallest [int] there; [Success]
    decreases [exp] by exactly one, except that it stays 0 at 0; neither
    changes another field. *)
Theorem exp_updates {Rand : Type} (r : VariantA.rateLimiterWithJitter Rand) :
  VariantA.well_typed r -> 0 <= VariantA.exp r ->
  VariantA.Failure r =
    VariantA.mkLimiter
      (if VariantA.exp r =? max_int64 then min_int64 else VariantA.exp r + 1)
      (VariantA.baseDelay r) (VariantA.maxDelay r) (VariantA.rd r)
  /\ VariantA.Success r =
    VariantA.mkLimiter (if VariantA.exp r =? 0 then 0 else VariantA.exp r - 1)
      (VariantA.baseDelay r) (VariantA.maxDelay r) (VariantA.rd r).
Proof.
  intros [[Hlo Hhi] _] H0. destruct r as [e b m g]. simpl in *. split.
  - unfold VariantA.Failure. simpl. f_equal.
    destruct (Z.eqb_spec e max_int64) as [-> | Hne].
    + apply wrap64_past_max.
    + apply wrap64_in_range. unfold in_int64, min_int64, max_int64 in *. lia.
  - unfold VariantA.Success. simpl.
    destruct (Z.ltb_spec 0 e), (Z.eqb_spec e 0); try lia.
    + f_equal. apply wrap64_in_range.
      unfold in_int64, min_int64, max_int64 in *. lia.
    + now subst e.
Qed.

Lemma exp_updates_witness :
  let r := VariantA.mkLimiter 3 1000000000 4000000000 tt in
  VariantA.exp (VariantA.Failure r) = 4 /\ VariantA.exp (VariantA.Success r) = 2.
Proof.
  intros r.
  assert (Hwt : VariantA.well_typed r) by (repeat split; vm_compute; congruence).
  assert (H0 : 0 <= VariantA.exp r) by (vm_compute; congruence).
  destruct (exp_updates r Hwt H0) as [HF HS].
  rewrite HF, HS. split; reflexivity.
Defined.

(** C4, as stated, fails: a state with the largest [int] as exponent
    satisfies [0 <= exp], and [Failure] takes it to a negative exponent. *)
Lemma exp_nonneg_broken_by_wrap : ~ Claims.exp_nonneg_invariant.
Proof.
  intros H.
  destruct (H unit (fun g => (0%float, g))) as (_ & Hstep & _).
  specialize (Hstep (VariantA.mkLimiter max_int64 1 1 tt) VariantA.CallFailure).
  assert (Hneg : 0 <= min_int64).
  { apply Hstep.
    - repeat split; vm_compute; congruence.
    - vm_compute; congruence. }
  vm_compute in Hneg. now apply Hneg.
Qed.

(** C4 (amended): a fresh limiter has [exp = 0]; [When], [Success] and [Exp]
    keep [0 <= exp], and so does [Failure] in every state whose exponent is
    below the largest [int]; hence every state reached from a fresh limiter
    by a run with at most [2^63 - 1] calls of [Failure] has [0 <= exp]. *)
Theorem exp_nonneg_until_wrap {Rand : Type} (Float64 : Rand -> float * Rand) :
  (forall b m (seed : Rand),
      VariantA.exp
        (VariantA.newItemExponentialFailureRateLimiterWithJitter b m seed) = 0)
  /\ (forall r : VariantA.rateLimiterWithJitter Rand,
        VariantA.well_typed r -> 0 <= VariantA.exp r ->
        0 <= VariantA.exp (snd (VariantA.When Float64 r))
        /\ 0 <= VariantA.exp (VariantA.Success r)
        /\ 0 <= VariantA.exp (snd (VariantA.Exp r))
        /\ (VariantA.exp r < max_int64 -> 0 <= VariantA.exp (VariantA.Failure r)))
  /\ (forall b m (seed : Rand) cs,
        VariantA.failures cs <= max_int64 ->
        0 <= VariantA.exp
               (VariantA.run Float64 cs
                  (VariantA.newItemExponentialFailureRateLimiterWithJitter b m seed))).
Proof.
  split; [reflexivity |]. split.
  - intros r [He _] H0. repeat split.
    + destruct (When_keeps_fields Float64 r) as [-> _]. exact H0.
    + rewrite Success_exp by exact He.
      destruct (Z.ltb_spec 0 (VariantA.exp r)); lia.
    + exact H0.
    + intros Hlt. rewrite Failure_below_max by assumption. lia.
  - intros b m seed cs Hf.
    apply (run_exp_bounds Float64 cs); simpl; lia.
Qed.

Lemma exp_nonneg_until_wrap_witness :
  0 <= VariantA.exp
         (VariantA.run constant_source
            [VariantA.CallFailure; VariantA.CallWhen; VariantA.CallSuccess;
             VariantA.CallSuccess; VariantA.CallExp; VariantA.CallFailure]
            (VariantA.newItemExponentialFailureRateLimiterWithJitter
               1000000000 4000000000 (1 / 2)%float)).
Proof.
  apply (proj2 (proj2 (exp_nonneg_until_wrap constant_source))).
  vm_compute; congruence.
Defined.

(** ** The accessors *)

(** C9: [Exp] (Variant A) and [ScaleFactor] (Variant B) return the stored
    value and leave the whole state as it was, so a second call returns the
    same value. *)
Theorem accessors_read_only
    {Rand L : Type} (rA : VariantA.rateLimiterWithJitter Rand)
    (rB : VariantB.rateLimiterWithJitter Rand L) :
  VariantA.Exp rA = (VariantA.exp rA, rA)
  /\ fst (VariantA.Exp (snd (VariantA.Exp rA))) = fst (VariantA.Exp rA)
  /\ VariantB.ScaleFactor rB = (VariantB.scaleFactor rB, rB)
  /\ fst (VariantB.ScaleFactor (snd (VariantB.ScaleFactor rB)))
     = fst (VariantB.ScaleFactor rB).
Proof. repeat split. Qed.

(** ** Variant A: [When] *)

(** C2, as stated, fails: after three failures with a base delay of 1s and
    a cap of 4s the delay (8s) is above the cap, and [When] returns the cap
    itself, 4s, where the jitter of half a second would give 3.5s. *)
Lemma When_capped_has_no_jitter : ~ Claims.When_jitter_in_every_case.
Proof.
  intros H.
  specialize (H float constant_source
    (VariantA.run constant_source
       [VariantA.CallFailure; VariantA.CallFailure; VariantA.CallFailure]
       (VariantA.newItemExponentialFailureRateLimiterWithJitter
          1000000000 4000000000 (1 / 2)%float))).
  assert (Hne : 4000000000 = 3500000000).
  { apply H.
    - exists 1000000000, 4000000000, (1 / 2)%float.
      eexists. repeat split; try reflexivity; vm_compute; congruence.
    - vm_compute. reflexivity. }
  discriminate Hne.
Qed.

(** [When] by its guard: the early return gives [maxDelay] itself and
    leaves the state alone; past the guard one sample is drawn. *)
Lemma When_of_guard {Rand : Type} (Float64 : Rand -> float * Rand)
    (r : VariantA.rateLimiterWithJitter Rand) :
  (VariantA.capped r = true ->
   VariantA.When Float64 r = (VariantA.maxDelay r, r))
  /\ (VariantA.capped r = false ->
      let percentage := fst (Float64 (VariantA.rd r)) in
      let jitter := (float64_of_int (VariantA.baseDelay r) * percentage)%float in
      let backoff := (VariantA.delay_of r - jitter)%float in
      VariantA.When Float64 r =
        (if (backoff <=? 0)%float then 0 else int64_of_float64 backoff,
         VariantA.mkLimiter (VariantA.exp r) (VariantA.baseDelay r)
           (VariantA.maxDelay r) (snd (Float64 (VariantA.rd r))))).
Proof.
  split.
  - intros Hc. unfold VariantA.When. now rewrite Hc.
  - intros Hc. unfold VariantA.When. rewrite Hc.
    destruct (Float64 (VariantA.rd r)) as [p g]. simpl.
    now destruct (_ <=? _)%float.
Qed.

(** C8: there is a reachable state with a positive base delay, and a sample
    of [[0,1)], for which [When] returns zero: the fresh limiter of the test
    (base delay 1s, cap 4s) and the largest sample below one, where
    [delay - jitter] is a fraction of a nanosecond. *)
Theorem When_can_return_zero :
  exists (r : VariantA.rateLimiterWithJitter float),
    VariantA.reachable constant_source r
    /\ 0 < VariantA.baseDelay r
    /\ unit_sample (fst (constant_source (VariantA.rd r))) = true
    /\ fst (VariantA.When constant_source r) = 0.
Proof.
  exists (VariantA.newItemExponentialFailureRateLimiterWithJitter
            1000000000 4000000000 (next_down 1)).
  split; [| split; [| split]].
  - exists 1000000000, 4000000000, (next_down 1), []. 
    repeat split; try reflexivity; vm_compute; congruence.
  - reflexivity.
  - vm_compute. reflexivity.
  - vm_compute. reflexivity.
Qed.

(** C1 at the input where Variant A leaves the interval: base delay 1ns,
    cap 1s, 63 failures.  The delay is exactly [2^63], which is not above
    the binary64 value of [math.MaxInt64] (also [2^63]), its conversion to
    [int64] is out of range and not above the cap, and the result is the
    conversion of [backoff = 2^63], a negative duration. *)
Theorem When_leaves_range_at_two_pow_63 :
  let r := VariantA.run constant_source (repeat VariantA.CallFailure 63)
             (VariantA.newItemExponentialFailureRateLimiterWithJitter
                1 1000000000 (1 / 2)%float) in
  VariantA.reachable constant_source r
  /\ unit_sample (fst (constant_source (VariantA.rd r))) = true
  /\ VariantA.delay_of r = math_MaxInt64
  /\ fst (VariantA.When constant_source r) = - 9223372036854775808.
Proof.
  intros r. split; [| split; [| split]].
  - exists 1, 1000000000, (1 / 2)%float, (repeat VariantA.CallFailure 63).
    repeat split; try reflexivity; vm_compute; congruence.
  - vm_compute. reflexivity.
  - vm_compute. reflexivity.
  - vm_compute. reflexivity.
Qed.

(** ** Variant B: the moving average *)

Section VariantB_average.

Context {Rand : Type} (Float64 : Rand -> float * Rand).
Context {L Item : Type} {RL : RateLimiter L Item}.
Implicit Types r : VariantB.rateLimiterWithJitter Rand L.

Lemma When_keeps_average item r :
  VariantB.average (snd (VariantB.When Float64 item r)) = VariantB.average r.
Proof.
  unfold VariantB.When.
  destruct (rl_When (VariantB.inner r) item) as [baseline inner'].
  destruct (Float64 (VariantB.rd r)) as [p g].
  now destruct (_ <? _).
Qed.

Lemma Success_average b r1 r2 :
  VariantB.average r1 = VariantB.average r2 ->
  VariantB.average (VariantB.Success b r1)
  = VariantB.average (VariantB.Success b r2).
Proof.
  unfold VariantB.average, VariantB.Success, VariantB.delay_ratio. simpl.
  intros H. injection H as -> -> -> _ ->. reflexivity.
Qed.

Lemma report_all_average bs : forall r1 r2,
  VariantB.average r1 = VariantB.average r2 ->
  VariantB.average (VariantB.report_all bs r1)
  = VariantB.average (VariantB.report_all bs r2).
Proof.
  induction bs as [| b bs IH]; intros r1 r2 H; [exact H |].
  simpl. apply IH. now apply Success_average.
Qed.

(** Only the reported outcomes move the average: the other calls of a run
    can be dropped. *)
Lemma run_average cs : forall r,
  VariantB.average (VariantB.run Float64 cs r)
  = VariantB.average (VariantB.report_all (VariantB.outcomes cs) r).
Proof.
  induction cs as [| c cs IH]; intros r; [reflexivity |].
  change (VariantB.run Float64 (c :: cs) r)
    with (VariantB.run Float64 cs (VariantB.step Float64 r c)).
  rewrite IH.
  destruct c; simpl VariantB.outcomes; simpl VariantB.step;
    try reflexivity; apply report_all_average;
    try reflexivity.
  apply When_keeps_average.
Qed.

Lemma scaleFactor_of_average r1 r2 :
  VariantB.average r1 = VariantB.average r2 ->
  VariantB.scaleFactor r1 = VariantB.scaleFactor r2.
Proof. unfold VariantB.average. congruence. Qed.

End VariantB_average.

(** C7: with a base delay of 1s, a cap of 10s and [alpha = 0.05], a fresh
    limiter has scale factor 1; after a run that reports 100 failures the
    scale factor is at least 9.9, and after a further run that reports 100
    successes it is at most 1.1, whatever other calls ([When], [Forget],
    [ScaleFactor], [NumRequeues]) the runs interleave. *)
Theorem scale_factor_scenario
    {Rand : Type} (Float64 : Rand -> float * Rand)
    {L Item : Type} {RL : RateLimiter L Item}
    (inner0 : L) (seed : Rand) (cs1 cs2 : list (VariantB.call (Item := Item))) :
  VariantB.outcomes cs1 = repeat false 100 ->
  VariantB.outcomes cs2 = repeat true 100 ->
  let r0 := VariantB.newItemExponentialFailureRateLimiterWithJitter
              inner0 1000000000 10000000000 (5 / 100)%float seed in
  VariantB.scaleFactor r0 = 1%float
  /\ (99 / 10 <=? VariantB.scaleFactor (VariantB.run Float64 cs1 r0))%float = true
  /\ (VariantB.scaleFactor (VariantB.run Float64 (cs1 ++ cs2) r0) <=? 11 / 10)%float
     = true.
Proof.
  intros H1 H2 r0. split; [reflexivity |]. split.
  - rewrite (scaleFactor_of_average _ _ (run_average Float64 cs1 r0)), H1.
    vm_compute. reflexivity.
  - unfold VariantB.run. rewrite fold_left_app.
    fold (VariantB.run Float64 cs1 r0).
    fold (VariantB.run Float64 cs2 (VariantB.run Float64 cs1 r0)).
    rewrite (scaleFactor_of_average _ _
               (run_average Float64 cs2 (VariantB.run Float64 cs1 r0))), H2.
    rewrite (scaleFactor_of_average _ _
               (report_all_average (repeat true 100) _ _
                  (run_average Float64 cs1 r0))), H1.
    vm_compute. reflexivity.
Qed.

Lemma scale_factor_scenario_witness :
  let round (b : bool) :=
    [VariantB.CallWhen 1; VariantB.CallForget 1; VariantB.CallSuccess b;
     VariantB.CallScaleFactor] in
  let cs1 := concat (repeat (round false) 100) in
  let cs2 := concat (repeat (round true) 100) in
  let r0 := VariantB.newItemExponentialFailureRateLimiterWithJitter
              (Workqueue.NewItemExponentialFailureRateLimiter
                 1000000000 10000000000)
              1000000000 10000000000 (5 / 100)%float (1 / 2)%float in
  (99 / 10 <=? VariantB.scaleFactor (VariantB.run constant_source cs1 r0))%float
  = true
  /\ (VariantB.scaleFactor (VariantB.run constant_source (cs1 ++ cs2) r0)
      <=? 11 / 10)%float = true.
Proof.
  intros round cs1 cs2 r0.
  exact (proj2 (scale_factor_scenario constant_source
                  (Workqueue.NewItemExponentialFailureRateLimiter
                     1000000000 10000000000)
                  (1 / 2)%float cs1 cs2 eq_refl eq_refl)).
Defined.

(** * Binary64 arithmetic, read on the reals *)

(** ** Powers of two as real numbers *)

Lemma bpow_pos (e : Z) : (0 < bpow e)%R.
Proof. apply powerRZ_lt. lra. Qed.

Lemma bpow_add (a b : Z) : bpow (a + b) = (bpow a * bpow b)%R.
Proof. apply powerRZ_add. lra. Qed.

Lemma bpow_0 : bpow 0 = 1%R.
Proof. reflexivity. Qed.

Lemma bpow_1 : bpow 1 = 2%R.
Proof. unfold bpow. simpl. lra. Qed.

Lemma bpow_m1 : bpow (-1) = (/ 2)%R.
Proof. unfold bpow. simpl. lra. Qed.

Lemma bpow_opp (e : Z) : bpow (- e) = (/ bpow e)%R.
Proof. apply powerRZ_neg'. Qed.

Lemma bpow_IZR (e : Z) : 0 <= e -> bpow e = IZR (2 ^ e).
Proof.
  intros He. unfold bpow.
  rewrite <- (Z2Nat.id e He) at 1. rewrite <- pow_powerRZ.
  rewrite pow_IZR. now rewrite Z2Nat.id.
Qed.

Lemma bpow_succ (e : Z) : bpow (e + 1) = (2 * bpow e)%R.
Proof. rewrite bpow_add, bpow_1. lra. Qed.

Lemma bpow_pred (e : Z) : bpow e = (2 * bpow (e - 1))%R.
Proof. rewrite <- bpow_succ. f_equal. lia. Qed.

Lemma bpow_ge_1 (e : Z) : 0 <= e -> (1 <= bpow e)%R.
Proof.
  intros He. rewrite bpow_IZR by assumption. apply IZR_le.
  pose proof (Z.pow_pos_nonneg 2 e). lia.
Qed.

Lemma bpow_le (a b : Z) : a <= b -> (bpow a <= bpow b)%R.
Proof.
  intros H. replace b with (a + (b - a)) by lia. rewrite bpow_add.
  pose proof (bpow_pos a). pose proof (bpow_ge_1 (b - a)). 
  assert (1 <= bpow (b - a))%R by (apply H1; lia). nra.
Qed.

Lemma bpow_lt (a b : Z) : a < b -> (bpow a < bpow b)%R.
Proof.
  intros H. replace b with ((a + 1) + (b - a - 1)) by lia.
  rewrite bpow_add, bpow_succ.
  pose proof (bpow_pos a). pose proof (bpow_ge_1 (b - a - 1)).
  assert (1 <= bpow (b - a - 1))%R by (apply H1; lia). nra.
Qed.

Lemma bpow_lt_inv (a b : Z) : (bpow a < bpow b)%R -> a < b.
Proof.
  intros H. destruct (Z_lt_le_dec a b) as [Hlt | Hle]; [assumption |].
  pose proof (bpow_le b a Hle). lra.
Qed.

Lemma bpow_le_inv (a b : Z) : (bpow a <= bpow b)%R -> a <= b.
Proof.
  intros H. destruct (Z_lt_le_dec b a) as [Hlt | Hle]; [| assumption].
  pose proof (bpow_lt b a Hlt). lra.
Qed.

Lemma bpow_mul_opp (e : Z) : (bpow e * bpow (- e) = 1)%R.
Proof. rewrite <- bpow_add. replace (e + - e) with 0 by lia. apply bpow_0. Qed.

(** The binade of a positive real number is unique. *)
Lemma binade_unique (v : R) (k1 k2 : Z) :
  (bpow (k1 - 1) <= v < bpow k1)%R -> (bpow (k2 - 1) <= v < bpow k2)%R -> k1 = k2.
Proof.
  intros [H1 H2] [H3 H4].
  assert (k1 - 1 < k2) by (apply bpow_lt_inv; lra).
  assert (k2 - 1 < k1) by (apply bpow_lt_inv; lra).
  lia.
Qed.

(** ** The nearest integer, ties to even *)

Lemma nearest_even_IZR (n : Z) : nearest_even (IZR n) n.
Proof. split; [lra |]. intros [H | H]; lra. Qed.

Lemma nearest_even_mono (x y : R) (n1 n2 : Z) :
  (x <= y)%R -> nearest_even x n1 -> nearest_even y n2 -> n1 <= n2.
Proof.
  intros Hxy [[Hx1 Hx2] Ex] [[Hy1 Hy2] Ey].
  destruct (Z_lt_le_dec n2 n1) as [Hlt | Hle]; [| assumption].
  exfalso.
  assert (H1 : (IZR n2 + 1 <= IZR n1)%R).
  { rewrite <- plus_IZR. apply IZR_le. lia. }
  assert (Hn : n1 = n2 + 1).
  { assert (IZR n1 <= IZR n2 + 1)%R by lra.
    rewrite <- plus_IZR in H. apply le_IZR in H. lia. }
  subst n1. rewrite plus_IZR in *.
  assert (Z.even (n2 + 1) = true) by (apply Ex; left; lra).
  assert (Z.even n2 = true) by (apply Ey; right; lra).
  rewrite Z.even_add in H. rewrite H0 in H. discriminate H.
Qed.

Lemma nearest_even_unique (x : R) (n1 n2 : Z) :
  nearest_even x n1 -> nearest_even x n2 -> n1 = n2.
Proof.
  intros H1 H2.
  pose proof (nearest_even_mono x x n1 n2 (Rle_refl x) H1 H2).
  pose proof (nearest_even_mono x x n2 n1 (Rle_refl x) H2 H1).
  lia.
Qed.

(** A real number strictly within one half of an integer rounds to it. *)
Lemma nearest_even_within (x : R) (n : Z) :
  (IZR n - / 2 < x < IZR n + / 2)%R -> nearest_even x n.
Proof. intros H. split; [lra |]. intros [E | E]; lra. Qed.

Lemma nearest_even_nonneg (x : R) (n : Z) :
  (0 <= x)%R -> nearest_even x n -> 0 <= n.
Proof.
  intros Hx Hn.
  apply (nearest_even_mono 0 x 0 n Hx); [| assumption].
  apply (nearest_even_IZR 0).
Qed.

(** ** Rounding to binary64, to nearest with ties to even *)

Lemma fexp64_eq (k : Z) : fexp64 k = Z.max (k - 53) (-1074).
Proof. reflexivity. Qed.

Lemma nearest_even_ge (x : R) (n N : Z) :
  nearest_even x n -> (IZR N <= x)%R -> N <= n.
Proof.
  intros Hn Hx. exact (nearest_even_mono _ _ _ _ Hx (nearest_even_IZR N) Hn).
Qed.

Lemma nearest_even_le (x : R) (n N : Z) :
  nearest_even x n -> (x <= IZR N)%R -> n <= N.
Proof.
  intros Hn Hx. exact (nearest_even_mono _ _ _ _ Hx Hn (nearest_even_IZR N)).
Qed.

Lemma rounds_to_nonneg (v r : R) : rounds_to v r -> (0 <= r)%R.
Proof.
  intros [[_ ->] | [Hv (k & n & Hk & Hn & ->)]]; [lra |].
  pose proof (bpow_pos (fexp64 k)). pose proof (bpow_pos (- fexp64 k)).
  assert (0 <= n).
  { apply (nearest_even_nonneg _ _ (Rlt_le _ _ (Rmult_lt_0_compat _ _ Hv H0)) Hn). }
  apply IZR_le in H1. nra.
Qed.

Lemma scaled_mul (v : R) (e : Z) : (v * bpow (- e) * bpow e = v)%R.
Proof.
  rewrite Rmult_assoc, <- bpow_add. replace (- e + e) with 0 by lia.
  rewrite bpow_0. lra.
Qed.

Lemma rounds_to_mono (v1 v2 r1 r2 : R) :
  (v1 <= v2)%R -> rounds_to v1 r1 -> rounds_to v2 r2 -> (r1 <= r2)%R.
Proof.
  intros Hv H1 H2.
  pose proof (rounds_to_nonneg _ _ H2) as Hr2.
  destruct H1 as [[_ ->] | [Hv1 (k1 & n1 & Hk1 & Hn1 & ->)]]; [assumption |].
  destruct H2 as [[-> _] | [Hv2 (k2 & n2 & Hk2 & Hn2 & ->)]]; [lra |].
  assert (Hk : k1 <= k2).
  { assert (k1 - 1 < k2) by (apply bpow_lt_inv; lra). lia. }
  assert (He : fexp64 k1 <= fexp64 k2) by (rewrite !fexp64_eq; lia).
  destruct (Z.eq_dec (fexp64 k1) (fexp64 k2)) as [Heq | Hne].
  - rewrite Heq in *.
    pose proof (bpow_pos (fexp64 k2)). pose proof (bpow_pos (- fexp64 k2)).
    assert (n1 <= n2).
    { apply (nearest_even_mono _ _ _ _ (Rmult_le_compat_r _ _ _ (Rlt_le _ _ H0) Hv) Hn1 Hn2). }
    apply IZR_le in H1. nra.
  - assert (He2 : fexp64 k2 = k2 - 53) by (rewrite !fexp64_eq in *; lia).
    assert (Hk' : k1 < k2) by (rewrite !fexp64_eq in *; lia).
    apply Rle_trans with (bpow (k2 - 1)).
    + set (j := Z.max (k1 - fexp64 k1) 0).
      assert (Hn : n1 <= 2 ^ j).
      { apply (nearest_even_le _ _ _ Hn1).
        rewrite <- bpow_IZR by lia.
        apply Rle_trans with (bpow (k1 - fexp64 k1)); [| apply bpow_le; lia].
        replace (k1 - fexp64 k1) with (k1 + - fexp64 k1) by lia.
        rewrite bpow_add. pose proof (bpow_pos (- fexp64 k1)). nra. }
      apply IZR_le in Hn. rewrite <- bpow_IZR in Hn by lia.
      apply Rle_trans with (bpow j * bpow (fexp64 k1))%R.
      * pose proof (bpow_pos (fexp64 k1)). nra.
      * rewrite <- bpow_add. apply bpow_le. unfold j. rewrite !fexp64_eq in *. lia.
    + assert (Hn : 2 ^ 52 <= n2).
      { apply (nearest_even_ge _ _ _ Hn2).
        rewrite <- bpow_IZR by lia.
        replace 52 with ((k2 - 1) + - fexp64 k2) by lia.
        rewrite bpow_add. pose proof (bpow_pos (- fexp64 k2)). nra. }
      apply IZR_le in Hn. rewrite <- bpow_IZR in Hn by lia.
      replace (k2 - 1) with (52 + fexp64 k2) by lia. rewrite bpow_add.
      pose proof (bpow_pos (fexp64 k2)). nra.
Qed.

Lemma rounds_to_unique (v r1 r2 : R) :
  rounds_to v r1 -> rounds_to v r2 -> r1 = r2.
Proof.
  intros H1 H2. apply Rle_antisym.
  - exact (rounds_to_mono _ _ _ _ (Rle_refl v) H1 H2).
  - exact (rounds_to_mono _ _ _ _ (Rle_refl v) H2 H1).
Qed.

Lemma rounds_to_exact (y : R) : representable y -> rounds_to y y.
Proof.
  intros [-> | (k & m & e & Hm & Hk & Hy & He)]; [left; split; reflexivity |].
  right. split.
  - pose proof (bpow_pos (k - 1)). lra.
  - exists k, (m * 2 ^ (e - fexp64 k)). split; [assumption |].
    assert (Hs : (y * bpow (- fexp64 k))%R = IZR (m * 2 ^ (e - fexp64 k))).
    { rewrite mult_IZR, <- bpow_IZR by lia. rewrite Hy at 1.
      rewrite Rmult_assoc, <- bpow_add.
      replace (e + - fexp64 k) with (e - fexp64 k) by lia. reflexivity. }
    split.
    + rewrite Hs. apply nearest_even_IZR.
    + rewrite <- Hs. now rewrite scaled_mul.
Qed.

(** A rounding never crosses a binary64 number. *)
Lemma rounds_to_le_representable (v r y : R) :
  rounds_to v r -> representable y -> (v <= y)%R -> (r <= y)%R.
Proof.
  intros Hr Hy Hv. exact (rounds_to_mono _ _ _ _ Hv Hr (rounds_to_exact y Hy)).
Qed.

Lemma rounds_to_ge_representable (v r y : R) :
  rounds_to v r -> representable y -> (y <= v)%R -> (y <= r)%R.
Proof.
  intros Hr Hy Hv. exact (rounds_to_mono _ _ _ _ Hv (rounds_to_exact y Hy) Hr).
Qed.

Lemma rounds_to_representable_eq (v r : R) :
  rounds_to v r -> representable v -> r = v.
Proof.
  intros Hr Hv. exact (rounds_to_unique _ _ _ Hr (rounds_to_exact v Hv)).
Qed.

(** ** Number of binary digits *)

Lemma digits2_pos_bounds (m : positive) :
  2 ^ (Zpos (digits2_pos m) - 1) <= Zpos m < 2 ^ Zpos (digits2_pos m).
Proof.
  induction m as [p IH | p IH |]; simpl digits2_pos.
  - rewrite Pos2Z.inj_succ.
    replace (Z.succ (Zpos (digits2_pos p)) - 1) with (Z.succ (Zpos (digits2_pos p) - 1)) by lia.
    rewrite !Z.pow_succ_r by lia. lia.
  - rewrite Pos2Z.inj_succ.
    replace (Z.succ (Zpos (digits2_pos p)) - 1) with (Z.succ (Zpos (digits2_pos p) - 1)) by lia.
    rewrite !Z.pow_succ_r by lia. lia.
  - simpl. lia.
Qed.

Lemma digits2_pos_bpow (m : positive) :
  (bpow (Zpos (digits2_pos m) - 1) <= IZR (Zpos m) < bpow (Zpos (digits2_pos m)))%R.
Proof.
  destruct (digits2_pos_bounds m) as [H1 H2].
  rewrite !bpow_IZR by lia. split; [apply IZR_le | apply IZR_lt]; assumption.
Qed.

Lemma digits2_pos_unique (m : positive) (k : Z) :
  (bpow (k - 1) <= IZR (Zpos m) < bpow k)%R -> Zpos (digits2_pos m) = k.
Proof.
  intros H. exact (binade_unique _ _ _ (digits2_pos_bpow m) H).
Qed.

Lemma Zpos_iter_xO (d m : positive) :
  Zpos (Pos.iter xO m d) = Zpos m * 2 ^ Zpos d.
Proof.
  induction d as [| d IH] using Pos.peano_ind.
  - simpl. lia.
  - rewrite Pos.iter_succ, Pos2Z.inj_xO, IH, Pos2Z.inj_succ, Z.pow_succ_r by lia. lia.
Qed.

Lemma digits2_pos_shift (m : positive) (j : Z) (mj : positive) :
  0 <= j -> Zpos mj = Zpos m * 2 ^ j ->
  Zpos (digits2_pos mj) = Zpos (digits2_pos m) + j.
Proof.
  intros Hj Hm. apply digits2_pos_unique.
  destruct (digits2_pos_bpow m) as [H1 H2].
  rewrite Hm, mult_IZR, <- bpow_IZR by assumption.
  replace (Zpos (digits2_pos m) + j - 1) with ((Zpos (digits2_pos m) - 1) + j) by lia.
  rewrite !bpow_add. pose proof (bpow_pos j). nra.
Qed.

(** ** Shifting a mantissa to the right *)

Lemma shr_1_stands_for (mrs : shr_record) (x : R) :
  stands_for mrs x -> stands_for (shr_1 mrs) (x / 2).
Proof.
  destruct mrs as [m r s]. unfold stands_for. simpl shr_m.
  intros [Hm Hx].
  destruct m as [| p | p]; [| | lia].
  - destruct r, s; simpl in *; split; try lia; lra.
  - destruct p as [p | p |].
    + pose proof (IZR_POS_xI p) as E.
      destruct r, s; simpl in *; split; try lia; lra.
    + pose proof (IZR_POS_xO p) as E.
      destruct r, s; simpl in *; split; try lia; lra.
    + destruct r, s; simpl in *; split; try lia; lra.
Qed.

Lemma iter_pos_shr_1_stands_for (n : positive) : forall (mrs : shr_record) (x : R),
  stands_for mrs x ->
  stands_for (SpecFloat.iter_pos shr_1 n mrs) (x * bpow (- Zpos n)).
Proof.
  induction n as [n IH | n IH |]; intros mrs x H; simpl SpecFloat.iter_pos.
  - apply shr_1_stands_for in H. apply IH in H. apply IH in H.
    replace (x * bpow (- Zpos n~1))%R
      with (x / 2 * bpow (- Zpos n) * bpow (- Zpos n))%R; [exact H |].
    replace (- Zpos n~1) with (- 1 + (- Zpos n + - Zpos n)) by lia.
    rewrite !bpow_add, bpow_m1. lra.
  - apply IH in H. apply IH in H.
    replace (x * bpow (- Zpos n~0))%R
      with (x * bpow (- Zpos n) * bpow (- Zpos n))%R; [exact H |].
    replace (- Zpos n~0) with (- Zpos n + - Zpos n) by lia.
    rewrite !bpow_add. lra.
  - apply shr_1_stands_for in H.
    change (- Zpos 1) with (-1). rewrite bpow_m1. exact H.
Qed.

Lemma shr_record_of_loc_stands_for (m : Z) (x : R) (l : location) :
  0 <= m -> inbetween_int m x l -> stands_for (shr_record_of_loc m l) x.
Proof.
  intros Hm Hx. split.
  - destruct l as [| []]; simpl; assumption.
  - destruct l as [| []]; simpl; assumption.
Qed.

Lemma round_nearest_even_correct (mrs : shr_record) (x : R) :
  stands_for mrs x ->
  nearest_even x (round_nearest_even (shr_m mrs) (loc_of_shr_record mrs)).
Proof.
  destruct mrs as [m r s]. intros [Hm Hx]. simpl shr_m in *.
  destruct r, s; simpl in *.
  - split; [rewrite plus_IZR; lra |]. rewrite plus_IZR. intros [E | E]; lra.
  - destruct (Z.even m) eqn:Ev.
    + split; [lra |]. intros _. exact Ev.
    + split; [rewrite plus_IZR; lra |]. intros _.
      rewrite Z.even_add, Ev. reflexivity.
  - split; [lra |]. intros [E | E]; lra.
  - split; [lra |]. intros [E | E]; lra.
Qed.

(** ** The rounding step of the binary64 operations *)

Lemma inbetween_int_bounds (m : Z) (x : R) (l : location) :
  inbetween_int m x l -> (IZR m <= x < IZR m + 1)%R.
Proof. destruct l as [| []]; simpl; lra. Qed.

Lemma shr_fexp_stands_for (m e : Z) (l : location) (x : R) :
  0 <= m -> inbetween_int m x l -> e <= fexp64 (Zdigits2 m + e) ->
  snd (shr_fexp prec emax m e l) = fexp64 (Zdigits2 m + e)
  /\ stands_for (fst (shr_fexp prec emax m e l))
       (x * bpow (e - fexp64 (Zdigits2 m + e))).
Proof.
  intros Hm Hx He. unfold shr_fexp, shr. fold (fexp64 (Zdigits2 m + e)).
  pose proof (shr_record_of_loc_stands_for m x l Hm Hx) as Hs.
  destruct (fexp64 (Zdigits2 m + e) - e) as [| p | p] eqn:Hn; simpl fst; simpl snd.
  - split; [lia |].
    replace (e - fexp64 (Zdigits2 m + e)) with 0 by lia.
    rewrite bpow_0, Rmult_1_r. exact Hs.
  - split; [lia |].
    replace (e - fexp64 (Zdigits2 m + e)) with (- Zpos p) by lia.
    now apply iter_pos_shr_1_stands_for.
  - lia.
Qed.

Lemma fexp64_carry (k : Z) :
  fexp64 k < fexp64 (k + 1) -> fexp64 k = k - 53 /\ fexp64 (k + 1) = k - 52.
Proof. rewrite !fexp64_eq. lia. Qed.

(** The second, exact shift of the rounding step only undoes a carry into
    a 54th digit. *)
Lemma bounded_intro (m : positive) (e : Z) :
  fexp64 (Zpos (digits2_pos m) + e) = e -> e <= 971 -> SpecFloat.bounded prec emax m e = true.
Proof.
  intros Hc He. unfold SpecFloat.bounded, canonical_mantissa.
  apply andb_true_intro. split.
  - apply Z.eqb_eq. exact Hc.
  - apply Z.leb_le. exact He.
Qed.

Lemma carry_step (s : bool) (m1 k : Z) :
  0 <= m1 <= 2 ^ Z.max (k - fexp64 k) 0 ->
  (0 <= k - 1 - fexp64 k -> 2 ^ (k - 1 - fexp64 k) <= m1) ->
  k <= 1023 ->
  rounded_value
    (let '(mrs, e) := shr_fexp prec emax m1 (fexp64 k) loc_Exact in
     match shr_m mrs with
     | Z0 => S754_zero s
     | Zpos m => if e <=? emax - prec then S754_finite s m e else S754_infinity s
     | Zneg _ => S754_nan
     end) s (IZR m1 * bpow (fexp64 k)).
Proof.
  intros [Hm1 Hm2] Hlow Hk.
  assert (He1 : fexp64 k <= 970) by (rewrite fexp64_eq; lia).
  assert (Hj : Z.max (k - fexp64 k) 0 <= 53) by (rewrite fexp64_eq; lia).
  unfold shr_fexp, shr. fold (fexp64 (Zdigits2 m1 + fexp64 k)).
  destruct m1 as [| p1 | p1]; [| | lia].
  - left. simpl Zdigits2.
    assert (Hn : fexp64 (0 + fexp64 k) - fexp64 k <= 0) by (rewrite !fexp64_eq; lia).
    destruct (fexp64 (0 + fexp64 k) - fexp64 k); [| lia |]; simpl; split; try reflexivity; lra.
  - right. simpl Zdigits2.
    destruct (digits2_pos_bounds p1) as [Hd1 Hd2].
    set (d1 := Zpos (digits2_pos p1)) in *.
    assert (Hd : d1 - 1 <= Z.max (k - fexp64 k) 0).
    { apply (Z.pow_le_mono_r_iff 2); lia. }
    destruct (fexp64 (d1 + fexp64 k) - fexp64 k) as [| q | q] eqn:Hn.
    + exists p1, (fexp64 k). simpl.
      rewrite (proj2 (Z.leb_le (fexp64 k) 971)) by lia.
      split; [reflexivity | split; [reflexivity |]].
      apply bounded_intro; [| lia]. fold d1.
      assert (Hlow' : fexp64 k = k - 53 -> 53 <= d1).
      { intros E. rewrite E in Hlow. replace (k - 1 - (k - 53)) with 52 in Hlow by lia.
        assert (2 ^ 52 < 2 ^ d1) by lia.
        apply Z.pow_lt_mono_r_iff in H; lia. }
      rewrite !fexp64_eq in *. lia.
    + assert (Hgt : fexp64 k < fexp64 (d1 + fexp64 k)) by lia.
      assert (Hd' : d1 = k - fexp64 k + 1).
      { rewrite !fexp64_eq in *. lia. }
      assert (Hc : fexp64 k < fexp64 (k + 1)).
      { replace (k + 1) with (d1 + fexp64 k) by lia. exact Hgt. }
      destruct (fexp64_carry k Hc) as [E1 E2].
      assert (Hq : Zpos q = 1).
      { rewrite <- Hn. replace (d1 + fexp64 k) with (k + 1) by lia. lia. }
      assert (Hp1 : Zpos p1 = 2 ^ 53).
      { replace (Z.max (k - fexp64 k) 0) with 53 in Hm2 by lia.
        replace (d1 - 1) with 53 in Hd1 by lia. lia. }
      injection Hq as ->. injection Hp1 as ->.
      exists 4503599627370496%positive, (fexp64 k + 1). simpl.
      rewrite (proj2 (Z.leb_le (fexp64 k + 1) 971)) by lia.
      split; [reflexivity | split].
      * rewrite bpow_succ.
        change (IZR 9007199254740992) with (IZR (2 * 4503599627370496)).
        rewrite mult_IZR. lra.
      * apply bounded_intro; [| lia]. simpl digits2_pos.
        rewrite !fexp64_eq in *. lia.
    + exists p1, (fexp64 k). simpl.
      rewrite (proj2 (Z.leb_le (fexp64 k) 971)) by lia.
      split; [reflexivity | split; [reflexivity |]].
      apply bounded_intro; [| lia]. fold d1.
      assert (Hlow' : fexp64 k = k - 53 -> 53 <= d1).
      { intros E. rewrite E in Hlow. replace (k - 1 - (k - 53)) with 52 in Hlow by lia.
        assert (2 ^ 52 < 2 ^ d1) by lia.
        apply Z.pow_lt_mono_r_iff in H; lia. }
      rewrite !fexp64_eq in *. lia.
Qed.

(** The same step without a bound on the binade: from binade 1024 on, an
    exponent above the largest one gives an infinity. *)
Lemma carry_step_total (s : bool) (m1 k : Z) :
  0 <= m1 <= 2 ^ Z.max (k - fexp64 k) 0 ->
  (0 <= k - 1 - fexp64 k -> 2 ^ (k - 1 - fexp64 k) <= m1) ->
  let res :=
    (let '(mrs, e) := shr_fexp prec emax m1 (fexp64 k) loc_Exact in
     match shr_m mrs with
     | Z0 => S754_zero s
     | Zpos m => if e <=? emax - prec then S754_finite s m e else S754_infinity s
     | Zneg _ => S754_nan
     end) in
  rounded_value res s (IZR m1 * bpow (fexp64 k))
  \/ (res = S754_infinity s /\ 1024 <= k).
Proof.
  intros Hm Hlow res.
  destruct (Z_le_gt_dec k 1023) as [Hk | Hk].
  { left. now apply carry_step. }
  assert (He : fexp64 k = k - 53) by (rewrite fexp64_eq; lia).
  destruct Hm as [Hm1 Hm2].
  rewrite He in Hm2, Hlow.
  replace (Z.max (k - (k - 53)) 0) with 53 in Hm2 by lia.
  replace (k - 1 - (k - 53)) with 52 in Hlow by lia.
  specialize (Hlow ltac:(lia)).
  unfold res, shr_fexp, shr. fold (fexp64 (Zdigits2 m1 + fexp64 k)).
  destruct m1 as [| p1 | p1]; [lia | | lia].
  simpl Zdigits2.
  destruct (digits2_pos_bounds p1) as [Hd1 Hd2].
  set (d1 := Zpos (digits2_pos p1)) in *.
  assert (Hd : 53 <= d1 <= 54).
  { split.
    - assert (2 ^ 52 < 2 ^ d1) by lia.
      apply Z.pow_lt_mono_r_iff in H; lia.
    - assert (2 ^ (d1 - 1) < 2 ^ 54) by (change (2 ^ 54) with (2 * 2 ^ 53); lia).
      apply Z.pow_lt_mono_r_iff in H; lia. }
  assert (Hn : fexp64 (d1 + fexp64 k) - fexp64 k = d1 - 53).
  { rewrite !fexp64_eq. lia. }
  rewrite Hn.
  destruct (Z.eq_dec d1 53) as [E53 | N53].
  - rewrite E53. simpl.
    destruct (Z.leb_spec (fexp64 k) 971) as [Hle | Hgt].
    + left. right. exists p1, (fexp64 k).
      split; [reflexivity | split; [reflexivity |]].
      apply bounded_intro; [| exact Hle]. fold d1. rewrite E53.
      rewrite !fexp64_eq. lia.
    + right. split; [reflexivity | lia].
  - assert (E54 : d1 = 54) by lia.
    assert (Hp1 : Zpos p1 = 2 ^ 53).
    { rewrite E54 in Hd1. change (54 - 1) with 53 in Hd1. lia. }
    injection Hp1 as ->. rewrite E54. simpl.
    rewrite (proj2 (Z.leb_gt (fexp64 k + 1) 971)) by lia.
    right. split; [reflexivity | lia].
Qed.

(** The rounding step, overflow included: the result is the rounding of the
    value, or the value is [2^1023] at least and the result is an infinity. *)
Lemma binary_round_aux_total (s : bool) (m e : Z) (l : location) (x : R) :
  0 < m -> inbetween_int m x l -> e <= fexp64 (Zdigits2 m + e) ->
  exists r, rounds_to (x * bpow e) r
            /\ (rounded_value (binary_round_aux prec emax s m e l) s r
                \/ (binary_round_aux prec emax s m e l = S754_infinity s
                    /\ (bpow 1023 <= x * bpow e)%R)).
Proof.
  intros Hm Hx He.
  destruct m as [| p | p]; try lia.
  pose proof (inbetween_int_bounds _ _ _ Hx) as [Hx1 Hx2].
  destruct (digits2_pos_bounds p) as [Hd1 Hd2].
  destruct (digits2_pos_bpow p) as [Hb1 _].
  simpl Zdigits2 in *. set (d := Zpos (digits2_pos p)) in *.
  set (k := d + e) in *. set (e1 := fexp64 k) in *.
  assert (Hup : (IZR (Zpos p) + 1 <= bpow d)%R).
  { rewrite bpow_IZR by lia. rewrite <- plus_IZR. apply IZR_le. lia. }
  pose proof (bpow_pos e) as Hpe.
  assert (Hbin : (bpow (k - 1) <= x * bpow e < bpow k)%R).
  { unfold k. replace (d + e - 1) with ((d - 1) + e) by lia.
    rewrite !bpow_add. nra. }
  destruct (shr_fexp_stands_for (Zpos p) e l x) as [E1 S1]; [lia | assumption | assumption |].
  simpl Zdigits2 in E1, S1. fold d k e1 in E1, S1.
  unfold binary_round_aux.
  destruct (shr_fexp prec emax (Zpos p) e l) as [mrs1 e1'].
  simpl in E1, S1. subst e1'.
  pose proof (round_nearest_even_correct mrs1 _ S1) as Hn.
  set (m1 := round_nearest_even (shr_m mrs1) (loc_of_shr_record mrs1)) in *.
  assert (Hscale : (x * bpow (e - e1))%R = (x * bpow e * bpow (- e1))%R).
  { rewrite Rmult_assoc, <- bpow_add. reflexivity. }
  rewrite Hscale in Hn.
  pose proof (bpow_pos (- e1)) as Hpe1.
  assert (Hm1 : 0 <= m1 <= 2 ^ Z.max (k - e1) 0).
  { split.
    - apply (nearest_even_nonneg (x * bpow e * bpow (- e1))); [| exact Hn].
      assert (0 < x)%R by (pose proof (bpow_pos (d - 1)); lra). 
      apply Rlt_le. apply Rmult_lt_0_compat; [apply Rmult_lt_0_compat |]; assumption.
    - apply (nearest_even_le _ _ _ Hn).
      rewrite <- bpow_IZR by lia.
      apply Rle_trans with (bpow (k - e1)); [| apply bpow_le; lia].
      replace (k - e1) with (k + - e1) by lia. rewrite bpow_add. nra. }
  exists (IZR m1 * bpow e1)%R. split.
  - right. split.
    + pose proof (bpow_pos (k - 1)). lra.
    + exists k, m1. split; [exact Hbin | split; [exact Hn | reflexivity]].
  - destruct (carry_step_total s m1 k) as [Hrv | [Hinf Hk]]; try assumption.
    + intros Hge. apply (nearest_even_ge _ _ _ Hn).
      rewrite <- bpow_IZR by assumption.
      replace (k - 1 - fexp64 k) with ((k - 1) + - e1) by (unfold e1; lia).
      rewrite bpow_add. nra.
    + left. exact Hrv.
    + right. split; [exact Hinf |].
      apply Rle_trans with (bpow (k - 1)); [apply bpow_le; lia | lra].
Qed.

Lemma binary_round_aux_correct (s : bool) (m e : Z) (l : location) (x : R) :
  0 < m -> inbetween_int m x l -> e <= fexp64 (Zdigits2 m + e) ->
  (x * bpow e < bpow 1023)%R ->
  exists r, rounds_to (x * bpow e) r
            /\ rounded_value (binary_round_aux prec emax s m e l) s r.
Proof.
  intros Hm Hx He Hv.
  destruct (binary_round_aux_total s m e l x Hm Hx He) as (r & Hr & [Hrv | [_ Hov]]).
  - exists r. split; assumption.
  - lra.
Qed.

(** ** Valid binary64 numbers *)

Lemma bounded_elim (m : positive) (e : Z) :
  SpecFloat.bounded prec emax m e = true ->
  fexp64 (Zpos (digits2_pos m) + e) = e /\ e <= 971.
Proof.
  unfold SpecFloat.bounded, canonical_mantissa. intros H.
  apply andb_prop in H. destruct H as [H1 H2].
  apply Z.eqb_eq in H1. apply Z.leb_le in H2. split; assumption.
Qed.

Lemma bounded_digits (m : positive) (e : Z) :
  SpecFloat.bounded prec emax m e = true ->
  Zpos (digits2_pos m) <= 53 /\ -1074 <= e <= 971
  /\ (Zpos (digits2_pos m) = 53 \/ e = -1074).
Proof.
  intros H. destruct (bounded_elim m e H) as [H1 H2].
  rewrite fexp64_eq in H1. lia.
Qed.

Lemma rounded_value_nonneg (res : spec_float) (r : R) :
  rounded_value res false r ->
  valid_nonneg res /\ B2R res = r.
Proof.
  intros [[-> ->] | (m & e & -> & -> & Hb)].
  - repeat split.
  - repeat split. exact Hb.
Qed.

Lemma valid_nonneg_representable (x : spec_float) :
  valid_nonneg x -> representable (B2R x).
Proof.
  intros [Hv Hn]. destruct x as [s | s | | s m e]; simpl in *; try (now left); try contradiction.
  subst s. right. simpl cond_Zopp.
  destruct (bounded_elim m e Hv) as [Hc He].
  destruct (digits2_pos_bpow m) as [H1 H2]. pose proof (bpow_pos e).
  exists (Zpos (digits2_pos m) + e), (Zpos m), e.
  split; [lia |]. split; [| split; [reflexivity | lia]].
  replace (Zpos (digits2_pos m) + e - 1) with ((Zpos (digits2_pos m) - 1) + e) by lia.
  rewrite !bpow_add. nra.
Qed.

Lemma B2R_nonneg (x : spec_float) : nonneg_finite x -> (0 <= B2R x)%R.
Proof.
  destruct x as [s | s | | s m e]; simpl; try lra; try contradiction.
  intros ->. simpl. pose proof (bpow_pos e).
  assert (0 < IZR (Zpos m))%R by (apply IZR_lt; lia). nra.
Qed.

Lemma B2R_finite_pos (m : positive) (e : Z) :
  (0 < B2R (S754_finite false m e))%R.
Proof.
  simpl. pose proof (bpow_pos e).
  assert (0 < IZR (Zpos m))%R by (apply IZR_lt; lia). nra.
Qed.

(** ** Rounding a mantissa and an exponent *)

Lemma shl_align_correct (m : positive) (e e' : Z) :
  e' <= e ->
  Zpos (fst (shl_align m e e')) = Zpos m * 2 ^ (e - e')
  /\ snd (shl_align m e e') = e'.
Proof.
  intros H. unfold shl_align.
  destruct (e' - e) as [| d | d] eqn:Hd; simpl fst; simpl snd.
  - replace (e - e') with 0 by lia. split; lia.
  - lia.
  - rewrite Zpos_iter_xO. replace (e - e') with (Zpos d) by lia. split; lia.
Qed.

Lemma binary_round_correct (s : bool) (m : positive) (e : Z) :
  (IZR (Zpos m) * bpow e < bpow 1023)%R ->
  exists r, rounds_to (IZR (Zpos m) * bpow e) r
            /\ rounded_value (binary_round prec emax s m e) s r.
Proof.
  intros Hv. unfold binary_round.
  fold (fexp64 (Zpos (digits2_pos m) + e)).
  set (k := Zpos (digits2_pos m) + e).
  destruct (Z_le_gt_dec (fexp64 k) e) as [Hle | Hgt].
  - destruct (shl_align_correct m e (fexp64 k) Hle) as [Hm He].
    destruct (shl_align m e (fexp64 k)) as [mz ez]. cbn [fst snd] in Hm, He. subst ez.
    assert (Hd : Zpos (digits2_pos mz) = Zpos (digits2_pos m) + (e - fexp64 k)).
    { apply (digits2_pos_shift m); [lia | exact Hm]. }
    assert (Hval : (IZR (Zpos mz) * bpow (fexp64 k))%R = (IZR (Zpos m) * bpow e)%R).
    { rewrite Hm, mult_IZR, <- bpow_IZR by lia.
      rewrite Rmult_assoc, <- bpow_add. do 2 f_equal. lia. }
    rewrite <- Hval in *.
    apply binary_round_aux_correct; try assumption; try lia.
    + reflexivity.
    + simpl Zdigits2. rewrite Hd.
      replace (Zpos (digits2_pos m) + (e - fexp64 k) + fexp64 k) with k by (unfold k; lia).
      lia.
  - assert (Hs : shl_align m e (fexp64 k) = (m, e)).
    { unfold shl_align. destruct (fexp64 k - e) eqn:Hd; try reflexivity. lia. }
    rewrite Hs.
    apply binary_round_aux_correct; try assumption; try lia.
    + reflexivity.
    + simpl Zdigits2. fold k. lia.
Qed.

Lemma binary_normalize_correct (n e : Z) :
  0 <= n -> (IZR n * bpow e < bpow 1023)%R ->
  valid_nonneg (binary_normalize prec emax n e false)
  /\ rounds_to (IZR n * bpow e) (B2R (binary_normalize prec emax n e false)).
Proof.
  intros Hn Hv. destruct n as [| p | p]; [| | lia].
  - simpl. split; [repeat split |]. left. split; [lra | reflexivity].
  - simpl binary_normalize.
    destruct (binary_round_correct false p e Hv) as (r & Hr & Hres).
    destruct (rounded_value_nonneg _ _ Hres) as [Hvn Hb].
    split; [exact Hvn |]. rewrite Hb. exact Hr.
Qed.

(** ** The operations on nonnegative numbers *)

Lemma digits2_pos_mul (mx my : positive) :
  Zpos (digits2_pos mx) + Zpos (digits2_pos my) - 1
  <= Zpos (digits2_pos (mx * my)).
Proof.
  destruct (digits2_pos_bpow mx) as [Hx _].
  destruct (digits2_pos_bpow my) as [Hy _].
  destruct (digits2_pos_bpow (mx * my)) as [_ Hm].
  rewrite Pos2Z.inj_mul, mult_IZR in Hm.
  assert (H : (bpow ((Zpos (digits2_pos mx) - 1) + (Zpos (digits2_pos my) - 1))
               < bpow (Zpos (digits2_pos (mx * my))))%R).
  { rewrite bpow_add.
    pose proof (bpow_pos (Zpos (digits2_pos mx) - 1)).
    pose proof (bpow_pos (Zpos (digits2_pos my) - 1)). nra. }
  apply bpow_lt_inv in H. lia.
Qed.

Lemma SFmul_correct (x y : spec_float) :
  valid_nonneg x -> valid_nonneg y -> (B2R x * B2R y < bpow 1023)%R ->
  valid_nonneg (SFmul prec emax x y)
  /\ rounds_to (B2R x * B2R y) (B2R (SFmul prec emax x y)).
Proof.
  intros [Vx Nx] [Vy Ny] Hv.
  destruct x as [sx | sx | | sx mx ex]; try contradiction;
    destruct y as [sy | sy | | sy my ey]; try contradiction;
    simpl in Nx, Ny; subst; simpl SFmul;
    try (split; [repeat split | left; simpl; split; [lra | reflexivity]]).
  simpl B2R in *. simpl cond_Zopp in *.
  assert (Hval : (IZR (Zpos (mx * my)) * bpow (ex + ey))%R
                 = (IZR (Zpos mx) * bpow ex * (IZR (Zpos my) * bpow ey))%R).
  { rewrite Pos2Z.inj_mul, mult_IZR, bpow_add. lra. }
  rewrite <- Hval in *.
  destruct (binary_round_aux_correct false (Zpos (mx * my)) (ex + ey) loc_Exact
              (IZR (Zpos (mx * my)))) as (r & Hr & Hres); try assumption; try lia.
  - reflexivity.
  - simpl Zdigits2.
    pose proof (digits2_pos_mul mx my).
    destruct (bounded_digits mx ex Vx) as (? & ? & ?).
    destruct (bounded_digits my ey Vy) as (? & ? & ?).
    rewrite fexp64_eq. lia.
  - destruct (rounded_value_nonneg _ _ Hres) as [Hvn Hb].
    split; [exact Hvn |]. rewrite Hb. exact Hr.
Qed.

Lemma aligned_value (m : positive) (e ez : Z) :
  ez <= e ->
  (IZR (Zpos (fst (shl_align m e ez))) * bpow ez)%R = (IZR (Zpos m) * bpow e)%R.
Proof.
  intros H. destruct (shl_align_correct m e ez H) as [-> _].
  rewrite mult_IZR, <- bpow_IZR by lia.
  rewrite Rmult_assoc, <- bpow_add. do 2 f_equal. lia.
Qed.

Lemma SFadd_correct (x y : spec_float) :
  valid_nonneg x -> valid_nonneg y -> (B2R x + B2R y < bpow 1023)%R ->
  valid_nonneg (SFadd prec emax x y)
  /\ rounds_to (B2R x + B2R y) (B2R (SFadd prec emax x y)).
Proof.
  intros Hx Hy Hv.
  pose proof (valid_nonneg_representable x Hx) as Rx.
  pose proof (valid_nonneg_representable y Hy) as Ry.
  destruct Hx as [Vx Nx], Hy as [Vy Ny].
  destruct x as [sx | sx | | sx mx ex]; try contradiction;
    destruct y as [sy | sy | | sy my ey]; try contradiction;
    simpl in Nx, Ny; subst.
  - simpl SFadd. destruct sx, sy; (split; [repeat split | left; simpl; split; [lra | reflexivity]]).
  - simpl SFadd. split; [split; [exact Vy | reflexivity] |].
    simpl B2R at 1. rewrite Rplus_0_l. now apply rounds_to_exact.
  - simpl SFadd. split; [split; [exact Vx | reflexivity] |].
    simpl B2R at 2. rewrite Rplus_0_r. now apply rounds_to_exact.
  - unfold SFadd. simpl cond_Zopp.
    set (ez := Z.min ex ey).
    set (ax := fst (shl_align mx ex ez)). set (ay := fst (shl_align my ey ez)).
    assert (Hval : (IZR (Zpos ax + Zpos ay) * bpow ez)%R
                   = (B2R (S754_finite false mx ex) + B2R (S754_finite false my ey))%R).
    { rewrite plus_IZR, Rmult_plus_distr_r. unfold ax, ay.
      rewrite !aligned_value by (unfold ez; lia). reflexivity. }
    rewrite <- Hval in *.
    apply binary_normalize_correct; [lia | exact Hv].
Qed.

Lemma SFsub_correct (x y : spec_float) :
  valid_nonneg x -> valid_nonneg y -> (B2R y <= B2R x)%R -> (B2R x < bpow 1023)%R ->
  valid_nonneg (SFsub prec emax x y)
  /\ rounds_to (B2R x - B2R y) (B2R (SFsub prec emax x y)).
Proof.
  intros Hx Hy Hle Hv.
  pose proof (valid_nonneg_representable x Hx) as Rx.
  pose proof (B2R_nonneg y (proj2 Hy)) as Py.
  destruct Hx as [Vx Nx], Hy as [Vy Ny].
  destruct x as [sx | sx | | sx mx ex]; try contradiction;
    destruct y as [sy | sy | | sy my ey]; try contradiction;
    simpl in Nx, Ny; subst.
  - simpl SFsub. destruct sx, sy; (split; [repeat split | left; simpl; split; [lra | reflexivity]]).
  - exfalso. pose proof (B2R_finite_pos my ey). simpl B2R at 2 in Hle. lra.
  - simpl SFsub. split; [split; [exact Vx | reflexivity] |].
    simpl B2R at 2. rewrite Rminus_0_r. now apply rounds_to_exact.
  - unfold SFsub. simpl cond_Zopp.
    set (ez := Z.min ex ey).
    set (ax := fst (shl_align mx ex ez)). set (ay := fst (shl_align my ey ez)).
    assert (Hval : (IZR (Zpos ax - Zpos ay) * bpow ez)%R
                   = (B2R (S754_finite false mx ex) - B2R (S754_finite false my ey))%R).
    { rewrite minus_IZR, Rmult_minus_distr_r. unfold ax, ay.
      rewrite !aligned_value by (unfold ez; lia). reflexivity. }
    rewrite <- Hval in *.
    assert (Hpos : 0 <= Zpos ax - Zpos ay).
    { apply le_IZR. pose proof (bpow_pos ez). nra. }
    apply binary_normalize_correct; [exact Hpos |].
    rewrite Hval. lra.
Qed.

(** ** The same, overflow included *)

Lemma binary_round_total (s : bool) (m : positive) (e : Z) :
  exists r, rounds_to (IZR (Zpos m) * bpow e) r
            /\ (rounded_value (binary_round prec emax s m e) s r
                \/ (binary_round prec emax s m e = S754_infinity s
                    /\ (bpow 1023 <= IZR (Zpos m) * bpow e)%R)).
Proof.
  unfold binary_round.
  fold (fexp64 (Zpos (digits2_pos m) + e)).
  set (k := Zpos (digits2_pos m) + e).
  destruct (Z_le_gt_dec (fexp64 k) e) as [Hle | Hgt].
  - destruct (shl_align_correct m e (fexp64 k) Hle) as [Hm He].
    destruct (shl_align m e (fexp64 k)) as [mz ez]. cbn [fst snd] in Hm, He. subst ez.
    assert (Hd : Zpos (digits2_pos mz) = Zpos (digits2_pos m) + (e - fexp64 k)).
    { apply (digits2_pos_shift m); [lia | exact Hm]. }
    assert (Hval : (IZR (Zpos mz) * bpow (fexp64 k))%R = (IZR (Zpos m) * bpow e)%R).
    { rewrite Hm, mult_IZR, <- bpow_IZR by lia.
      rewrite Rmult_assoc, <- bpow_add. do 2 f_equal. lia. }
    rewrite <- Hval.
    apply binary_round_aux_total; try lia.
    + reflexivity.
    + simpl Zdigits2. rewrite Hd.
      replace (Zpos (digits2_pos m) + (e - fexp64 k) + fexp64 k) with k by (unfold k; lia).
      lia.
  - assert (Hs : shl_align m e (fexp64 k) = (m, e)).
    { unfold shl_align. destruct (fexp64 k - e) eqn:Hd; try reflexivity. lia. }
    rewrite Hs.
    apply binary_round_aux_total; try lia.
    + reflexivity.
    + simpl Zdigits2. fold k. lia.
Qed.

Lemma SFmul_total (x y : spec_float) :
  valid_nonneg x -> valid_nonneg y ->
  (valid_nonneg (SFmul prec emax x y)
   /\ rounds_to (B2R x * B2R y) (B2R (SFmul prec emax x y)))
  \/ (SFmul prec emax x y = S754_infinity false
      /\ (bpow 1023 <= B2R x * B2R y)%R).
Proof.
  intros [Vx Nx] [Vy Ny].
  destruct x as [sx | sx | | sx mx ex]; try contradiction;
    destruct y as [sy | sy | | sy my ey]; try contradiction;
    simpl in Nx, Ny; subst; simpl SFmul;
    try (left; split; [repeat split | left; simpl; split; [lra | reflexivity]]).
  simpl B2R in *. simpl cond_Zopp in *.
  assert (Hval : (IZR (Zpos (mx * my)) * bpow (ex + ey))%R
                 = (IZR (Zpos mx) * bpow ex * (IZR (Zpos my) * bpow ey))%R).
  { rewrite Pos2Z.inj_mul, mult_IZR, bpow_add. lra. }
  rewrite <- Hval.
  destruct (binary_round_aux_total false (Zpos (mx * my)) (ex + ey) loc_Exact
              (IZR (Zpos (mx * my)))) as (r & Hr & [Hres | [Hinf Hov]]); try lia.
  - reflexivity.
  - simpl Zdigits2.
    pose proof (digits2_pos_mul mx my).
    destruct (bounded_digits mx ex Vx) as (? & ? & ?).
    destruct (bounded_digits my ey Vy) as (? & ? & ?).
    rewrite fexp64_eq. lia.
  - left. destruct (rounded_value_nonneg _ _ Hres) as [Hvn Hb].
    split; [exact Hvn |]. rewrite Hb. exact Hr.
  - right. split; assumption.
Qed.

(** ** Order and equality of valid numbers *)

Lemma canonical_exponent_lt (m1 m2 : positive) (e1 e2 : Z) :
  SpecFloat.bounded prec emax m1 e1 = true ->
  SpecFloat.bounded prec emax m2 e2 = true ->
  e1 < e2 -> (IZR (Zpos m1) * bpow e1 < IZR (Zpos m2) * bpow e2)%R.
Proof.
  intros H1 H2 He.
  destruct (bounded_digits m1 e1 H1) as (D1 & R1 & _).
  destruct (bounded_digits m2 e2 H2) as (D2 & R2 & C2).
  assert (E2 : Zpos (digits2_pos m2) = 53) by lia.
  destruct (digits2_pos_bpow m1) as [_ U1].
  destruct (digits2_pos_bpow m2) as [L2 _]. rewrite E2 in L2.
  pose proof (bpow_le (Zpos (digits2_pos m1)) 53 D1).
  pose proof (bpow_pos e1). pose proof (bpow_pos e2).
  apply Rlt_le_trans with (bpow (53 + e1)).
  - rewrite bpow_add. nra.
  - apply Rle_trans with (bpow (52 + e2)).
    + apply bpow_le. lia.
    + rewrite bpow_add. change (53 - 1) with 52 in L2. nra.
Qed.

Lemma SFcompare_correct (x y : spec_float) :
  valid_nonneg x -> valid_nonneg y ->
  match SFcompare x y with
  | Some Lt => (B2R x < B2R y)%R
  | Some Eq => B2R x = B2R y
  | Some Gt => (B2R y < B2R x)%R
  | None => False
  end.
Proof.
  intros [Vx Nx] [Vy Ny].
  destruct x as [sx | sx | | sx mx ex]; try contradiction;
    destruct y as [sy | sy | | sy my ey]; try contradiction;
    simpl in Nx, Ny; subst; simpl SFcompare.
  - reflexivity.
  - apply B2R_finite_pos.
  - apply B2R_finite_pos.
  - simpl B2R. simpl cond_Zopp. simpl in Vx, Vy.
    destruct (Z.compare_spec ex ey) as [-> | Hlt | Hgt].
    + rewrite Pos.compare_cont_spec. simpl Pos.switch_Eq.
      pose proof (bpow_pos ey).
      destruct (Pos.compare_spec mx my) as [-> | Hm | Hm]; cbn [Pos.switch_Eq].
      * reflexivity.
      * assert (IZR (Zpos mx) < IZR (Zpos my))%R by (apply IZR_lt; lia). nra.
      * assert (IZR (Zpos my) < IZR (Zpos mx))%R by (apply IZR_lt; lia). nra.
    + now apply canonical_exponent_lt.
    + apply canonical_exponent_lt; [assumption | assumption | lia].
Qed.

Lemma SFltb_correct (x y : spec_float) :
  valid_nonneg x -> valid_nonneg y ->
  (SFltb x y = true <-> (B2R x < B2R y)%R).
Proof.
  intros Hx Hy. pose proof (SFcompare_correct x y Hx Hy) as H.
  unfold SFltb. destruct (SFcompare x y) as [[] |]; try contradiction;
    split; intros H'; try reflexivity; try discriminate; try lra.
Qed.

Lemma SFleb_correct (x y : spec_float) :
  valid_nonneg x -> valid_nonneg y ->
  (SFleb x y = true <-> (B2R x <= B2R y)%R).
Proof.
  intros Hx Hy. pose proof (SFcompare_correct x y Hx Hy) as H.
  unfold SFleb. destruct (SFcompare x y) as [[] |]; try contradiction;
    split; intros H'; try reflexivity; try discriminate; try lra.
Qed.

Lemma B2R_inj (x y : spec_float) :
  valid_nonneg x -> valid_nonneg y -> (0 < B2R x)%R -> B2R x = B2R y -> x = y.
Proof.
  intros [Vx Nx] [Vy Ny] Hpos Heq.
  destruct x as [sx | sx | | sx mx ex]; try contradiction; simpl in Hpos; try lra.
  destruct y as [sy | sy | | sy my ey]; try contradiction.
  - simpl in Heq. simpl in Hpos. lra.
  - simpl in Nx, Ny. subst. simpl in *.
    assert (He : ex = ey).
    { destruct (Z.lt_trichotomy ex ey) as [H | [H | H]]; [| exact H |].
      - pose proof (canonical_exponent_lt mx my ex ey Vx Vy H). lra.
      - pose proof (canonical_exponent_lt my mx ey ex Vy Vx H). lra. }
    subst ey. pose proof (bpow_pos ex).
    assert (IZR (Zpos mx) = IZR (Zpos my)) by nra.
    apply eq_IZR in H0. now injection H0 as ->.
Qed.

(** ** Conversion to an integer *)

Lemma shiftl_floor (m : positive) (e : Z) :
  (IZR (Z.shiftl (Zpos m) e) <= IZR (Zpos m) * bpow e
   < IZR (Z.shiftl (Zpos m) e) + 1)%R.
Proof.
  destruct (Z_le_gt_dec 0 e) as [He | He].
  - rewrite Z.shiftl_mul_pow2 by assumption.
    rewrite mult_IZR, <- bpow_IZR by assumption. lra.
  - rewrite Z.shiftl_div_pow2 by lia.
    assert (Hp : 0 < 2 ^ (- e)) by (apply Z.pow_pos_nonneg; lia).
    pose proof (Z.div_mod (Zpos m) (2 ^ (- e)) ltac:(lia)) as Hdm.
    pose proof (Z.mod_pos_bound (Zpos m) (2 ^ (- e)) Hp) as Hmod.
    set (q := Zpos m / 2 ^ (- e)) in *. set (r := Zpos m mod 2 ^ (- e)) in *.
    assert (Hm : IZR (Zpos m) = (bpow (- e) * IZR q + IZR r)%R).
    { rewrite bpow_IZR by lia. rewrite <- mult_IZR, <- plus_IZR. f_equal. exact Hdm. }
    rewrite Hm.
    pose proof (bpow_mul_opp (- e)) as Hinv. rewrite Z.opp_involutive in Hinv.
    pose proof (bpow_pos e). pose proof (bpow_pos (- e)).
    assert (Hr : (0 <= IZR r < bpow (- e))%R).
    { rewrite bpow_IZR by lia. split; [apply IZR_le | apply IZR_lt]; lia. }
    replace ((bpow (- e) * IZR q + IZR r) * bpow e)%R
      with (IZR q * (bpow (- e) * bpow e) + IZR r * bpow e)%R by ring.
    rewrite Hinv.
    assert (0 <= IZR r * bpow e < bpow (- e) * bpow e)%R by nra.
    lra.
Qed.

(** ** Division of normal numbers *)

Lemma new_location_correct (nb k q : Z) :
  0 < nb -> 0 <= k < nb ->
  inbetween_int q (IZR q + IZR k / IZR nb) (new_location nb k).
Proof.
  intros Hnb [Hk1 Hk2].
  assert (Hn : (0 < IZR nb)%R) by (apply IZR_lt; lia).
  assert (Hf : (IZR k / IZR nb * IZR nb = IZR k)%R) by (field; lra).
  set (f := (IZR k / IZR nb)%R) in *.
  assert (Hk1' : (0 <= IZR k)%R) by (apply IZR_le; lia).
  assert (Hk2' : (IZR k < IZR nb)%R) by (apply IZR_lt; lia).
  unfold new_location.
  destruct (Z.even nb) eqn:Ev.
  - unfold new_location_even.
    destruct (Z.eqb_spec k 0) as [-> | Hk0].
    + simpl. unfold f. lra.
    + assert (0 < IZR k)%R by (apply IZR_lt; lia).
      destruct (Z.compare_spec (2 * k) nb) as [E | L | G]; simpl.
      * apply (f_equal IZR) in E. rewrite mult_IZR in E. nra.
      * apply IZR_lt in L. rewrite mult_IZR in L. nra.
      * apply IZR_lt in G. rewrite mult_IZR in G. nra.
  - unfold new_location_odd.
    destruct (Z.eqb_spec k 0) as [-> | Hk0].
    + simpl. unfold f. lra.
    + assert (0 < IZR k)%R by (apply IZR_lt; lia).
      assert (Hodd : 2 * k <> nb).
      { intros E. subst nb. rewrite Z.even_mul in Ev. discriminate Ev. }
      destruct (Z.compare_spec (2 * k + 1) nb) as [E | L | G]; simpl.
      * assert (L : 2 * k < nb) by lia.
        apply IZR_lt in L. rewrite mult_IZR in L. nra.
      * assert (L' : 2 * k < nb) by lia.
        apply IZR_lt in L'. rewrite mult_IZR in L'. nra.
      * assert (G' : nb < 2 * k) by lia.
        apply IZR_lt in G'. rewrite mult_IZR in G'. nra.
Qed.

Lemma SFdiv_correct (mx my : positive) (ex ey : Z) :
  SpecFloat.bounded prec emax mx ex = true ->
  SpecFloat.bounded prec emax my ey = true ->
  Zpos (digits2_pos mx) = 53 -> Zpos (digits2_pos my) = 53 ->
  -1074 <= ex - ey - 53 ->
  (IZR (Zpos mx) * bpow ex / (IZR (Zpos my) * bpow ey) < bpow 1023)%R ->
  valid_nonneg (SFdiv prec emax (S754_finite false mx ex) (S754_finite false my ey))
  /\ rounds_to (IZR (Zpos mx) * bpow ex / (IZR (Zpos my) * bpow ey))
       (B2R (SFdiv prec emax (S754_finite false mx ex) (S754_finite false my ey))).
Proof.
  intros Vx Vy Dx Dy Hnu Hv.
  unfold SFdiv, SFdiv_core_binary. simpl Zdigits2. rewrite Dx, Dy.
  fold (fexp64 (53 + ex - (53 + ey))).
  assert (He' : Z.min (fexp64 (53 + ex - (53 + ey))) (ex - ey) = ex - ey - 53).
  { rewrite fexp64_eq. lia. }
  rewrite He'. replace (ex - ey - (ex - ey - 53)) with 53 by lia.
  rewrite Z.shiftl_mul_pow2 by lia.
  pose proof (Z_div_mod (Zpos mx * 2 ^ 53) (Zpos my) ltac:(lia)) as Hdm.
  destruct (Z.div_eucl (Zpos mx * 2 ^ 53) (Zpos my)) as [q r].
  destruct Hdm as [Hq Hr].
  destruct (digits2_pos_bounds mx) as [Lx Ux]. rewrite Dx in Lx, Ux.
  destruct (digits2_pos_bounds my) as [Ly Uy]. rewrite Dy in Ly, Uy.
  assert (Hq52 : 2 ^ 52 <= q) by nia.
  assert (Hmy : (0 < IZR (Zpos my))%R) by (apply IZR_lt; lia).
  pose proof (bpow_pos ex). pose proof (bpow_pos ey).
  assert (Hval : ((IZR q + IZR r / IZR (Zpos my)) * bpow (ex - ey - 53))%R
                 = (IZR (Zpos mx) * bpow ex / (IZR (Zpos my) * bpow ey))%R).
  { replace (ex - ey - 53) with (ex + (- ey + - 53)) by lia.
    rewrite !bpow_add, bpow_opp.
    assert (E : (IZR q * IZR (Zpos my) + IZR r = IZR (Zpos mx) * bpow 53)%R).
    { rewrite bpow_IZR by lia. rewrite <- !mult_IZR, <- plus_IZR. f_equal. lia. }
    assert (E53 : (bpow 53 * bpow (-53) = 1)%R) by (rewrite <- bpow_add; reflexivity).
    assert (Emx : IZR (Zpos mx) = ((IZR q * IZR (Zpos my) + IZR r) * bpow (-53))%R).
    { rewrite E, Rmult_assoc, E53. ring. }
    rewrite Emx. field. split; lra. }
  rewrite <- Hval in *.
  destruct (binary_round_aux_correct false q (ex - ey - 53) (new_location (Zpos my) r)
              (IZR q + IZR r / IZR (Zpos my))) as (res & Hres & Hrv); try assumption; try lia.
  - apply new_location_correct; lia.
  - destruct q as [| pq | pq]; try lia. simpl Zdigits2.
    destruct (digits2_pos_bounds pq) as [_ Uq].
    assert (2 ^ 52 < 2 ^ Zpos (digits2_pos pq)) by lia.
    apply Z.pow_lt_mono_r_iff in H1; [| lia | lia].
    rewrite fexp64_eq. lia.
  - destruct (rounded_value_nonneg _ _ Hrv) as [Hvn Hb].
    cbn [xorb]. split; [exact Hvn |]. rewrite Hb. exact Hres.
Qed.

(** ** The primitive binary64 operations *)

Lemma nonneg_float_valid (f : float) : nonneg_float f -> valid_nonneg (Prim2SF f).
Proof. intros H. split; [apply Prim2SF_valid | exact H]. Qed.

Lemma F2R_nonneg (f : float) : nonneg_float f -> (0 <= F2R f)%R.
Proof. apply B2R_nonneg. Qed.

Lemma F2R_representable (f : float) : nonneg_float f -> representable (F2R f).
Proof. intros H. apply valid_nonneg_representable. now apply nonneg_float_valid. Qed.

Lemma mul_correct (x y : float) :
  nonneg_float x -> nonneg_float y -> (F2R x * F2R y < bpow 1023)%R ->
  nonneg_float (x * y) /\ rounds_to (F2R x * F2R y) (F2R (x * y)).
Proof.
  intros Hx Hy Hv. unfold nonneg_float, F2R. rewrite mul_spec.
  destruct (SFmul_correct _ _ (nonneg_float_valid x Hx) (nonneg_float_valid y Hy) Hv)
    as [[_ Hn] Hr].
  split; assumption.
Qed.

Lemma add_correct (x y : float) :
  nonneg_float x -> nonneg_float y -> (F2R x + F2R y < bpow 1023)%R ->
  nonneg_float (x + y) /\ rounds_to (F2R x + F2R y) (F2R (x + y)).
Proof.
  intros Hx Hy Hv. unfold nonneg_float, F2R. rewrite add_spec.
  destruct (SFadd_correct _ _ (nonneg_float_valid x Hx) (nonneg_float_valid y Hy) Hv)
    as [[_ Hn] Hr].
  split; assumption.
Qed.

Lemma sub_correct (x y : float) :
  nonneg_float x -> nonneg_float y -> (F2R y <= F2R x)%R -> (F2R x < bpow 1023)%R ->
  nonneg_float (x - y) /\ rounds_to (F2R x - F2R y) (F2R (x - y)).
Proof.
  intros Hx Hy Hle Hv. unfold nonneg_float, F2R. rewrite sub_spec.
  destruct (SFsub_correct _ _ (nonneg_float_valid x Hx) (nonneg_float_valid y Hy) Hle Hv)
    as [[_ Hn] Hr].
  split; assumption.
Qed.

Lemma ltb_correct (x y : float) :
  nonneg_float x -> nonneg_float y -> ((x <? y)%float = true <-> (F2R x < F2R y)%R).
Proof.
  intros Hx Hy. rewrite ltb_spec.
  apply SFltb_correct; now apply nonneg_float_valid.
Qed.

Lemma leb_correct (x y : float) :
  nonneg_float x -> nonneg_float y -> ((x <=? y)%float = true <-> (F2R x <= F2R y)%R).
Proof.
  intros Hx Hy. rewrite leb_spec.
  apply SFleb_correct; now apply nonneg_float_valid.
Qed.

Lemma F2R_inj (x y : float) :
  nonneg_float x -> nonneg_float y -> (0 < F2R x)%R -> F2R x = F2R y -> x = y.
Proof.
  intros Hx Hy Hpos Heq. apply Prim2SF_inj.
  apply B2R_inj; try assumption; now apply nonneg_float_valid.
Qed.

(** A number compared with zero or one behaves as its value says. *)
Lemma Prim2SF_zero : Prim2SF 0 = S754_zero false.
Proof. reflexivity. Qed.

Lemma Prim2SF_one : Prim2SF 1 = S754_finite false 4503599627370496 (-52).
Proof. reflexivity. Qed.

Lemma nonneg_float_zero : nonneg_float 0.
Proof. exact I. Qed.

Lemma nonneg_float_one : nonneg_float 1.
Proof. reflexivity. Qed.

Lemma F2R_zero : F2R 0 = 0%R.
Proof. reflexivity. Qed.

Lemma F2R_one : F2R 1 = 1%R.
Proof.
  unfold F2R. rewrite Prim2SF_one. unfold B2R, cond_Zopp.
  change (Zpos 4503599627370496) with (2 ^ 52). rewrite <- bpow_IZR by lia.
  rewrite <- bpow_add. reflexivity.
Qed.

(** * Properties that rest on the arithmetic *)

(** ** Go's conversions *)

Lemma float64_of_int_correct (n : Z) :
  0 <= n -> n <= max_int64 ->
  nonneg_float (float64_of_int n)
  /\ rounds_to (IZR n) (F2R (float64_of_int n)).
Proof.
  intros H0 Hmax.
  assert (Hv : (IZR n * bpow 0 < bpow 1023)%R).
  { rewrite bpow_0, Rmult_1_r. rewrite bpow_IZR by lia. apply IZR_lt.
    apply Z.le_lt_trans with (1 := Hmax). unfold max_int64.
    assert (2 ^ 63 < 2 ^ 1023) by (apply Z.pow_lt_mono_r; lia). lia. }
  destruct (binary_normalize_correct n 0 H0 Hv) as [[Hval Hn] Hr].
  unfold nonneg_float, F2R, float64_of_int.
  rewrite Prim2SF_SF2Prim by exact Hval.
  rewrite bpow_0, Rmult_1_r in Hr. split; assumption.
Qed.

(** Below [2^63] the conversion to [int64] is the integer part. *)
Lemma int64_of_float64_floor (f : float) :
  nonneg_float f -> (F2R f < bpow 63)%R ->
  0 <= int64_of_float64 f <= max_int64
  /\ (IZR (int64_of_float64 f) <= F2R f < IZR (int64_of_float64 f) + 1)%R.
Proof.
  unfold nonneg_float, F2R, int64_of_float64. intros Hn Hlt.
  destruct (Prim2SF f) as [s | s | | s m e]; try contradiction.
  - simpl. split; [unfold max_int64; lia | lra].
  - simpl in Hn. subst s. simpl cond_Zopp in *. simpl B2R in *.
    pose proof (shiftl_floor m e) as [Hf1 Hf2].
    assert (H0 : 0 <= Z.shiftl (Zpos m) e) by (apply Z.shiftl_nonneg; lia).
    assert (Hmax : Z.shiftl (Zpos m) e <= max_int64).
    { assert (Z.shiftl (Zpos m) e < 2 ^ 63).
      { apply lt_IZR. rewrite <- bpow_IZR by lia. lra. }
      unfold max_int64. lia. }
    rewrite (proj2 (in_int64b_true _)).
    + split; [split; assumption | split; assumption].
    + unfold in_int64, min_int64. split; [| assumption].
      assert (0 < 2 ^ 63) by lia. lia.
Qed.

(** ** Numbers that binary64 holds *)

Lemma representable_bpow (j : Z) : -1074 <= j -> representable (bpow j).
Proof.
  intros Hj. right. exists (j + 1), 1, j.
  split; [lia |]. split; [| split].
  - replace (j + 1 - 1) with j by lia. split; [lra |]. apply bpow_lt. lia.
  - lra.
  - rewrite fexp64_eq. lia.
Qed.

Lemma representable_one : representable 1.
Proof. rewrite <- bpow_0. apply representable_bpow. lia. Qed.

(** A positive multiple of [2^e] of at most 53 digits, with [e] in range. *)
Lemma representable_intro (m e : Z) :
  0 < m -> m < 2 ^ 53 -> -1074 <= e -> representable (IZR m * bpow e).
Proof.
  intros Hm H53 He. right.
  destruct m as [| p | p]; try lia.
  destruct (digits2_pos_bpow p) as [H1 H2].
  assert (Hd : Zpos (digits2_pos p) <= 53).
  { destruct (digits2_pos_bounds p) as [L _].
    assert (2 ^ (Zpos (digits2_pos p) - 1) < 2 ^ 53) by lia.
    apply Z.pow_lt_mono_r_iff in H; lia. }
  exists (Zpos (digits2_pos p) + e), (Zpos p), e.
  pose proof (bpow_pos e).
  split; [lia |]. split; [| split; [reflexivity | rewrite fexp64_eq; lia]].
  replace (Zpos (digits2_pos p) + e - 1) with ((Zpos (digits2_pos p) - 1) + e) by lia.
  rewrite !bpow_add. nra.
Qed.

Lemma representable_IZR (n : Z) : 0 <= n -> n < 2 ^ 53 -> representable (IZR n).
Proof.
  intros H0 H53. destruct (Z.eq_dec n 0) as [-> | Hne]; [now left |].
  rewrite <- (Rmult_1_r (IZR n)), <- bpow_0.
  apply representable_intro; lia.
Qed.

Lemma rounds_to_zero (r : R) : rounds_to 0 r -> r = 0%R.
Proof. intros [[_ H] | [H _]]; [exact H | lra]. Qed.

(** ** Conversions of durations *)

Lemma float64_of_int_bounds (n : Z) :
  1 <= n -> n <= max_int64 ->
  nonneg_float (float64_of_int n)
  /\ (1 <= F2R (float64_of_int n) <= bpow 63)%R.
Proof.
  intros H1 Hmax.
  destruct (float64_of_int_correct n ltac:(lia) Hmax) as [Hn Hr].
  split; [exact Hn |]. split.
  - apply (rounds_to_ge_representable _ _ _ Hr representable_one).
    apply IZR_le. exact H1.
  - apply (rounds_to_le_representable _ _ _ Hr (representable_bpow 63 ltac:(lia))).
    rewrite bpow_IZR by lia. apply IZR_le. unfold max_int64 in Hmax. lia.
Qed.

Lemma float64_of_int_mono (a b : Z) :
  0 <= a -> a <= b -> b <= max_int64 ->
  (F2R (float64_of_int a) <= F2R (float64_of_int b))%R.
Proof.
  intros H0 Hab Hb.
  destruct (float64_of_int_correct a H0 ltac:(lia)) as [_ Ha].
  destruct (float64_of_int_correct b ltac:(lia) Hb) as [_ Hb'].
  apply (rounds_to_mono _ _ _ _ (IZR_le _ _ Hab) Ha Hb').
Qed.

(** The conversion of an integer is an integer. *)
Lemma float64_of_int_integer (n : Z) :
  0 <= n -> n <= max_int64 ->
  exists z : Z, F2R (float64_of_int n) = IZR z.
Proof.
  intros H0 Hmax.
  destruct (float64_of_int_correct n H0 Hmax) as [_ Hr].
  destruct (Z_lt_le_dec n (2 ^ 53)) as [Hlt | Hge].
  - exists n. apply (rounds_to_representable_eq _ _ Hr).
    now apply representable_IZR.
  - destruct Hr as [[_ ->] | [Hpos (k & z & Hk & Hz & ->)]]; [now exists 0 |].
    assert (Hk53 : 53 < k).
    { apply bpow_lt_inv. apply Rle_lt_trans with (IZR n); [| lra].
      rewrite bpow_IZR by lia. now apply IZR_le. }
    exists (z * 2 ^ fexp64 k).
    rewrite mult_IZR, <- bpow_IZR by (rewrite fexp64_eq; lia). reflexivity.
Qed.

(** ** Division of durations *)

Lemma normal_of_ge_one (m : positive) (e : Z) :
  SpecFloat.bounded prec emax m e = true ->
  (1 <= IZR (Zpos m) * bpow e <= bpow 64)%R ->
  Zpos (digits2_pos m) = 53 /\ -52 <= e <= 12.
Proof.
  intros Hb [H1 H64].
  destruct (bounded_elim m e Hb) as [Hc _].
  destruct (digits2_pos_bpow m) as [L U].
  pose proof (bpow_pos e).
  set (d := Zpos (digits2_pos m)) in *.
  assert (Hk1 : 0 < d + e).
  { apply bpow_lt_inv. rewrite bpow_0, bpow_add. nra. }
  assert (Hk2 : d + e - 1 < 65).
  { apply bpow_lt_inv. replace (d + e - 1) with ((d - 1) + e) by lia.
    rewrite bpow_add. pose proof (bpow_lt 64 65 ltac:(lia)). nra. }
  rewrite fexp64_eq in Hc. lia.
Qed.

Lemma div_correct (x y : float) :
  nonneg_float x -> nonneg_float y ->
  (1 <= F2R x <= bpow 64)%R -> (1 <= F2R y <= bpow 64)%R ->
  nonneg_float (x / y) /\ rounds_to (F2R x / F2R y) (F2R (x / y)).
Proof.
  intros Hx Hy Rx Ry.
  pose proof (Prim2SF_valid x) as Vx. pose proof (Prim2SF_valid y) as Vy.
  unfold nonneg_float, F2R in *. rewrite div_spec.
  destruct (Prim2SF x) as [sx | sx | | sx mx ex]; try contradiction;
    [simpl in Rx; lra |].
  destruct (Prim2SF y) as [sy | sy | | sy my ey]; try contradiction;
    [simpl in Ry; lra |].
  simpl in Hx, Hy. subst sx sy. simpl B2R in *. simpl cond_Zopp in *.
  simpl in Vx, Vy.
  destruct (normal_of_ge_one mx ex Vx Rx) as [Dx Ex].
  destruct (normal_of_ge_one my ey Vy Ry) as [Dy Ey].
  assert (Hq : (IZR (Zpos mx) * bpow ex / (IZR (Zpos my) * bpow ey) < bpow 1023)%R).
  { apply Rle_lt_trans with (bpow 64); [| apply bpow_lt; lia].
    apply Rle_trans with (IZR (Zpos mx) * bpow ex)%R; [| lra].
    apply Rle_trans with (IZR (Zpos mx) * bpow ex / 1)%R; [| lra].
    unfold Rdiv. apply Rmult_le_compat_l; [lra |].
    apply Rinv_le_contravar; lra. }
  destruct (SFdiv_correct mx my ex ey Vx Vy Dx Dy ltac:(lia) Hq) as [[_ Hn] Hr].
  split; assumption.
Qed.

(** ** From comparisons to values *)

Lemma leb_zero_nonneg (f g : float) :
  (0 <=? f)%float = true -> (f <=? g)%float = true -> nonneg_float g ->
  nonneg_float f.
Proof.
  rewrite !leb_spec, Prim2SF_zero. unfold nonneg_float.
  destruct (Prim2SF f) as [s | s | | s m e], (Prim2SF g) as [s' | s' | | s' m' e'];
    simpl; try discriminate; try contradiction; try tauto;
    destruct s; try discriminate; try reflexivity; intros; subst; try discriminate.
Qed.

Lemma ltb_zero_nonneg (f g : float) :
  (0 <? f)%float = true -> (f <=? g)%float = true -> nonneg_float g ->
  nonneg_float f.
Proof.
  rewrite ltb_spec, leb_spec, Prim2SF_zero. unfold nonneg_float.
  destruct (Prim2SF f) as [s | s | | s m e], (Prim2SF g) as [s' | s' | | s' m' e'];
    simpl; try discriminate; try contradiction; try tauto;
    destruct s; try discriminate; try reflexivity; intros; subst; try discriminate.
Qed.

(** ** Three facts on roundings near one *)

(** Below one the rounding error is at most [2^-54]. *)
Lemma rounds_to_error_below_one (v c : R) :
  rounds_to v c -> (v < 1)%R -> (c <= v + bpow (-54))%R.
Proof.
  intros [[-> ->] | [Hpos (k & n & Hk & [[Hn _] _] & ->)]] Hv.
  - pose proof (bpow_pos (-54)). lra.
  - assert (Hk0 : k <= 0).
    { assert (k - 1 < 0) by (apply bpow_lt_inv; rewrite bpow_0; lra). lia. }
    assert (He : fexp64 k <= -53) by (rewrite fexp64_eq; lia).
    pose proof (bpow_pos (fexp64 k)) as Hp.
    assert (Hs : (IZR n * bpow (fexp64 k) <= v + / 2 * bpow (fexp64 k))%R).
    { rewrite <- (scaled_mul v (fexp64 k)) at 1.
      set (x := (v * bpow (- fexp64 k))%R) in *. nra. }
    assert (Hh : (/ 2 * bpow (fexp64 k) <= bpow (-54))%R).
    { rewrite <- bpow_m1, <- bpow_add. apply bpow_le. lia. }
    lra.
Qed.

(** A number below the midpoint of one and its successor rounds to at most
    one. *)
Lemma rounds_to_le_one (w r : R) :
  rounds_to w r -> (w < 1 + bpow (-53))%R -> (r <= 1)%R.
Proof.
  intros Hr Hw.
  destruct (Rle_lt_dec w 1) as [Hle | Hgt].
  - exact (rounds_to_le_representable _ _ _ Hr representable_one Hle).
  - destruct Hr as [[-> _] | [Hpos (k & n & Hk & [[Hn _] _] & ->)]]; [lra |].
    assert (Hlt2 : (bpow (-53) < 1)%R).
    { rewrite <- bpow_0. apply bpow_lt. lia. }
    assert (Hk1 : k = 1).
    { apply (binade_unique w); [exact Hk |].
      replace (1 - 1) with 0 by lia. rewrite bpow_0, bpow_1. lra. }
    subst k. change (fexp64 1) with (-52) in *. change (- -52) with 52 in *.
    assert (E : (bpow 52 * bpow (-53) = / 2)%R).
    { rewrite <- bpow_add. change (52 + -53) with (-1). apply bpow_m1. }
    assert (E' : (bpow 52 * bpow (-52) = 1)%R).
    { rewrite <- bpow_add. reflexivity. }
    pose proof (bpow_pos 52). pose proof (bpow_pos (-52)).
    assert (Hn' : n <= 2 ^ 52).
    { assert (IZR n < IZR (2 ^ 52) + 1)%R.
      { rewrite <- bpow_IZR by lia. nra. }
      rewrite <- plus_IZR in H1. apply lt_IZR in H1. lia. }
    apply IZR_le in Hn'. rewrite <- bpow_IZR in Hn' by lia. nra.
Qed.

(** Below [2^53] subtracting one is exact. *)
Lemma representable_minus_one (q : R) :
  representable q -> (1 <= q)%R -> (q < bpow 53)%R -> representable (q - 1).
Proof.
  intros [-> | (k & m & e & Hm & Hk & Hq & He)] H1 H53; [lra |].
  assert (Hk1 : 0 < k) by (apply bpow_lt_inv; rewrite bpow_0; lra).
  assert (Hk53 : k <= 53).
  { assert (k - 1 < 53) by (apply bpow_lt_inv; lra). lia. }
  assert (Hek : fexp64 k = k - 53) by (rewrite fexp64_eq; lia).
  set (ek := k - 53) in *.
  set (M := m * 2 ^ (e - ek)).
  assert (HM : q = (IZR M * bpow ek)%R).
  { unfold M. rewrite mult_IZR, <- bpow_IZR by lia.
    rewrite Rmult_assoc, <- bpow_add. replace (e - ek + ek) with e by lia. exact Hq. }
  assert (Hone : (1 = IZR (2 ^ (- ek)) * bpow ek)%R).
  { rewrite <- bpow_IZR by (unfold ek; lia). rewrite <- bpow_add.
    replace (- ek + ek) with 0 by lia. reflexivity. }
  assert (Hq1 : (q - 1 = IZR (M - 2 ^ (- ek)) * bpow ek)%R).
  { rewrite minus_IZR, Rmult_minus_distr_r, <- HM, <- Hone. reflexivity. }
  pose proof (bpow_pos ek) as Hp.
  assert (HM53 : M < 2 ^ 53).
  { apply lt_IZR. rewrite <- bpow_IZR by lia.
    apply Rmult_lt_reg_r with (bpow ek); [exact Hp |].
    rewrite <- HM, <- bpow_add. replace (53 + ek) with k by (unfold ek; lia). lra. }
  assert (HM1 : 0 <= M - 2 ^ (- ek)).
  { apply le_IZR. apply Rmult_le_reg_r with (bpow ek); [exact Hp |].
    rewrite <- Hq1. lra. }
  assert (0 < 2 ^ (- ek)) by (apply Z.pow_pos_nonneg; unfold ek; lia).
  rewrite Hq1.
  destruct (Z.eq_dec (M - 2 ^ (- ek)) 0) as [-> | Hne].
  - left. lra.
  - apply representable_intro; unfold ek in *; lia.
Qed.

(** ** The largest scale factor *)

(** A binary64 number in its canonical writing. *)
Lemma representable_canonical (q : R) :
  representable q -> (0 < q)%R ->
  exists k M : Z,
    0 < M < 2 ^ 53 /\ (bpow (k - 1) <= q < bpow k)%R
    /\ q = (IZR M * bpow (fexp64 k))%R.
Proof.
  intros [-> | (k & m & e & Hm & Hk & Hq & He)] Hpos; [lra |].
  exists k, (m * 2 ^ (e - fexp64 k)).
  assert (HM : q = (IZR (m * 2 ^ (e - fexp64 k)) * bpow (fexp64 k))%R).
  { rewrite mult_IZR, <- bpow_IZR by lia.
    rewrite Rmult_assoc, <- bpow_add.
    replace (e - fexp64 k + fexp64 k) with e by lia. exact Hq. }
  pose proof (bpow_pos (fexp64 k)) as Hp.
  split; [split |]; [| | split; assumption].
  - assert (0 < 2 ^ (e - fexp64 k)) by (apply Z.pow_pos_nonneg; lia). lia.
  - apply lt_IZR. rewrite <- bpow_IZR by lia.
    apply Rmult_lt_reg_r with (bpow (fexp64 k)); [exact Hp |].
    rewrite <- HM, <- bpow_add.
    apply Rlt_le_trans with (bpow k); [lra |]. apply bpow_le.
    rewrite fexp64_eq. lia.
Qed.

(** With [d] the rounding of [q - 1] and [u <= d], the rounding of [u + 1]
    does not exceed [q]: the scale factor at failure rate one is the largest
    one, and it is at most the quotient of the delays. *)
Lemma scale_top (q d u s : R) :
  representable q -> (1 <= q)%R ->
  rounds_to (q - 1) d -> (0 <= u <= d)%R -> rounds_to (u + 1) s ->
  (s <= q)%R.
Proof.
  intros HQ H1 HD HU HS.
  assert (HDQ : (d <= q)%R).
  { apply (rounds_to_le_representable _ _ _ HD HQ). lra. }
  destruct (Rle_lt_dec (u + 1) q) as [Hle | Hgt].
  { exact (rounds_to_le_representable _ _ _ HS HQ Hle). }
  destruct (Rlt_le_dec q (bpow 53)) as [H53 | H53].
  { pose proof (rounds_to_representable_eq _ _ HD
                 (representable_minus_one q HQ H1 H53)). lra. }
  destruct (representable_canonical q HQ ltac:(lra)) as (kQ & M & [HM0 HM53] & HkQ & HqM).
  assert (HkQ54 : 53 < kQ) by (apply bpow_lt_inv; lra).
  assert (HeQ : fexp64 kQ = kQ - 53) by (rewrite fexp64_eq; lia).
  rewrite HeQ in HqM. set (eQ := kQ - 53) in *.
  pose proof (bpow_pos eQ) as HpQ.
  assert (Hb52 : (1 <= bpow 52)%R) by (apply bpow_ge_1; lia).
  assert (Hb53 : (bpow 53 = 2 * bpow 52)%R) by (rewrite (bpow_pred 53); reflexivity).
  destruct HD as [[Hv0 _] | [HposD (k' & n & Hk' & Hn & HDeq)]]; [lra |].
  assert (Hk'53 : 52 < k') by (apply bpow_lt_inv; lra).
  assert (Hk'Q : k' <= kQ).
  { assert (k' - 1 < kQ) by (apply bpow_lt_inv; lra). lia. }
  assert (He' : fexp64 k' = k' - 53) by (rewrite fexp64_eq; lia).
  rewrite He' in *. set (e' := k' - 53) in *.
  pose proof (bpow_pos e') as Hp'. pose proof (bpow_pos (- e')) as Hpm'.
  assert (Hge1 : (1 <= bpow e')%R) by (apply bpow_ge_1; unfold e'; lia).
  set (Nq := M * 2 ^ (eQ - e')).
  assert (HqN : q = (IZR Nq * bpow e')%R).
  { unfold Nq. rewrite mult_IZR, <- bpow_IZR by (unfold eQ, e'; lia).
    rewrite Rmult_assoc, <- bpow_add.
    replace (eQ - e' + e') with eQ by lia. exact HqM. }
  assert (HnN : n = Nq).
  { apply Z.le_antisymm.
    - apply le_IZR. apply Rmult_le_reg_r with (bpow e'); [exact Hp' | lra].
    - destruct (Z_lt_le_dec n Nq) as [Hlt | Hge]; [exfalso | exact Hge].
      assert (Hn1 : (IZR n <= IZR Nq - 1)%R).
      { rewrite <- minus_IZR. apply IZR_le. lia. }
      nra. }
  subst n.
  assert (Hsc : ((q - 1) * bpow (- e'))%R = (IZR Nq - bpow (- e'))%R).
  { rewrite HqN. rewrite Rmult_minus_distr_r, Rmult_assoc.
    rewrite (bpow_mul_opp e'). lra. }
  rewrite Hsc in Hn. destruct Hn as [[Hn1 _] Hneven].
  assert (He'1 : 1 <= e').
  { assert (- e' <= -1); [| lia].
    apply bpow_le_inv. rewrite bpow_m1. lra. }
  destruct HS as [[Hw0 _] | [Hposw (kw & nw & Hkw & Hnw & ->)]]; [lra |].
  assert (HM1 : (IZR M + 1 <= bpow 53)%R).
  { rewrite bpow_IZR by lia. rewrite <- plus_IZR. apply IZR_le. lia. }
  assert (HeQ1 : 1 <= eQ) by (unfold eQ, e' in *; lia).
  assert (HbQ : (2 <= bpow eQ)%R).
  { rewrite <- bpow_1. apply bpow_le. exact HeQ1. }
  assert (Hkw' : kw = kQ).
  { apply (binade_unique (u + 1)); [exact Hkw |]. split; [lra |].
    replace kQ with (53 + eQ) by (unfold eQ; lia).
    rewrite bpow_add. nra. }
  subst kw. rewrite HeQ in *. fold eQ in Hnw |- *.
  pose proof (bpow_pos (- eQ)) as HpmQ.
  assert (HmQ : (bpow (- eQ) <= / 2)%R).
  { rewrite <- bpow_m1. apply bpow_le. lia. }
  set (x := ((u + 1) * bpow (- eQ))%R) in *.
  assert (Hx : (IZR M < x <= IZR M + bpow (- eQ))%R).
  { unfold x. pose proof (bpow_mul_opp eQ) as E.
    assert (Eq : (q * bpow (- eQ) = IZR M)%R).
    { rewrite HqM, Rmult_assoc, E. lra. }
    split.
    - rewrite <- Eq. apply Rmult_lt_compat_r; assumption.
    - replace (IZR M + bpow (- eQ))%R with ((q + 1) * bpow (- eQ))%R
        by (rewrite Rmult_plus_distr_r, Eq; lra).
      apply Rmult_le_compat_r; lra. }
  destruct Hnw as [[Hnw1 Hnw2] Hnweven].
  assert (HnwM : nw <= M).
  { destruct (Rlt_le_dec x (IZR M + / 2)) as [Hlt | Hge].
    - assert (IZR nw < IZR M + 1)%R by lra.
      rewrite <- plus_IZR in H. apply lt_IZR in H. lia.
    - assert (Hxe : x = (IZR M + / 2)%R) by lra.
      assert (HeQe : eQ = 1).
      { assert (-1 <= - eQ); [| lia].
        apply bpow_le_inv. rewrite bpow_m1. lra. }
      assert (He'e : e' = 1) by lia.
      assert (HNM : Nq = M).
      { unfold Nq. rewrite HeQe, He'e. simpl. lia. }
      assert (HevM : Z.even M = true).
      { rewrite <- HNM. apply Hneven. left.
        replace (- e') with (-1) by lia. rewrite bpow_m1. reflexivity. }
      destruct (Z_le_gt_dec nw M) as [Hle | Hgt']; [exact Hle | exfalso].
      assert (Hnw' : nw = M + 1).
      { assert (IZR nw <= IZR M + 1)%R by lra.
        rewrite <- plus_IZR in H. apply le_IZR in H. lia. }
      assert (Z.even nw = true).
      { apply Hnweven. left. rewrite Hnw', plus_IZR. lra. }
      rewrite Hnw', Z.even_add, HevM in H. discriminate H. }
  rewrite HqM. apply IZR_le in HnwM. nra.
Qed.

(** ** One update of the moving average *)

Lemma bpow_63_lt : (bpow 63 < bpow 1023)%R.
Proof. apply bpow_lt. lia. Qed.

Lemma bpow_63_ge : (2 <= bpow 63)%R.
Proof. rewrite <- bpow_1. apply bpow_le. lia. Qed.

Lemma average_step (a fr sample : float) :
  nonneg_float a -> (0 < F2R a <= 1)%R ->
  nonneg_float fr -> (0 <= F2R fr <= 1)%R ->
  sample = 0%float \/ sample = 1%float ->
  nonneg_float (a * sample + (1 - a) * fr)
  /\ (0 <= F2R (a * sample + (1 - a) * fr) <= 1)%R.
Proof.
  intros Na [Ha0 Ha1] Nf [Hf0 Hf1] Hs.
  pose proof bpow_63_lt as B63. pose proof bpow_63_ge as B63'.
  destruct (sub_correct 1 a nonneg_float_one Na) as [Nc Rc];
    [rewrite F2R_one; lra | rewrite F2R_one; lra |].
  rewrite F2R_one in Rc.
  pose proof (F2R_nonneg _ Nc) as Hc0.
  assert (Hc1 : (F2R (1 - a) <= 1)%R).
  { apply (rounds_to_le_representable _ _ _ Rc representable_one). lra. }
  destruct (mul_correct (1 - a) fr Nc Nf) as [Nt2 Rt2]; [nra |].
  pose proof (F2R_nonneg _ Nt2) as Ht20.
  assert (Ht2c : (F2R ((1 - a) * fr) <= F2R (1 - a))%R).
  { apply (rounds_to_le_representable _ _ _ Rt2 (F2R_representable _ Nc)). nra. }
  assert (Ns : nonneg_float sample).
  { destruct Hs as [-> | ->]; [exact nonneg_float_zero | exact nonneg_float_one]. }
  assert (Hsv : (F2R sample = 0 \/ F2R sample = 1)%R).
  { destruct Hs as [-> | ->]; [left; exact F2R_zero | right; exact F2R_one]. }
  destruct (mul_correct a sample Na Ns) as [Nt1 Rt1].
  { destruct Hsv as [-> | ->]; lra. }
  assert (Ht1 : (F2R (a * sample) = 0 /\ F2R sample = 0
                 \/ F2R (a * sample) = F2R a /\ F2R sample = 1)%R).
  { destruct Hsv as [E | E]; rewrite E in Rt1.
    - left. split; [| exact E]. rewrite Rmult_0_r in Rt1. now apply rounds_to_zero.
    - right. split; [| exact E]. rewrite Rmult_1_r in Rt1.
      apply (rounds_to_representable_eq _ _ Rt1 (F2R_representable _ Na)). }
  destruct (add_correct (a * sample) ((1 - a) * fr) Nt1 Nt2) as [Nr Rr].
  { destruct Ht1 as [[-> _] | [-> _]]; lra. }
  split; [exact Nr |]. split; [now apply F2R_nonneg |].
  destruct Ht1 as [[E _] | [E _]]; rewrite E in Rr.
  - apply (rounds_to_le_representable _ _ _ Rr representable_one). lra.
  - apply (rounds_to_le_one _ _ Rr).
    pose proof (rounds_to_error_below_one _ _ Rc ltac:(lra)) as Herr.
    assert (bpow (-54) < bpow (-53))%R by (apply bpow_lt; lia).
    lra.
Qed.

Lemma scale_step (fr q : float) :
  nonneg_float fr -> (0 <= F2R fr <= 1)%R ->
  nonneg_float q -> (1 <= F2R q <= bpow 63)%R ->
  nonneg_float (fr * (q - 1) + 1)
  /\ (1 <= F2R (fr * (q - 1) + 1) <= F2R q)%R.
Proof.
  intros Nf [Hf0 Hf1] Nq [Hq1 Hq63].
  pose proof bpow_63_lt as B63. pose proof bpow_63_ge as B63'.
  destruct (sub_correct q 1 Nq nonneg_float_one) as [Nd Rd];
    [rewrite F2R_one; lra | lra |].
  rewrite F2R_one in Rd.
  pose proof (F2R_nonneg _ Nd) as Hd0.
  assert (Hdq : (F2R (q - 1) <= F2R q)%R).
  { apply (rounds_to_le_representable _ _ _ Rd (F2R_representable _ Nq)). lra. }
  destruct (mul_correct fr (q - 1) Nf Nd) as [Nu Ru]; [nra |].
  pose proof (F2R_nonneg _ Nu) as Hu0.
  assert (Hud : (F2R (fr * (q - 1)) <= F2R (q - 1))%R).
  { apply (rounds_to_le_representable _ _ _ Ru (F2R_representable _ Nd)). nra. }
  destruct (add_correct (fr * (q - 1)) 1 Nu nonneg_float_one) as [Ns Rs].
  { rewrite F2R_one.
    assert (bpow 64 < bpow 1023)%R by (apply bpow_lt; lia).
    rewrite (bpow_pred 64) in H. change (64 - 1) with 63 in H. lra. }
  rewrite F2R_one in Rs.
  split; [exact Ns |]. split.
  - apply (rounds_to_ge_representable _ _ _ Rs representable_one). lra.
  - apply (scale_top (F2R q) (F2R (q - 1)) (F2R (fr * (q - 1))));
      try assumption; try lra.
    now apply F2R_representable.
Qed.

Lemma delay_ratio_bounds (b m : Z) :
  0 < b -> b <= m -> m <= max_int64 ->
  nonneg_float (float64_of_int m / float64_of_int b)
  /\ (1 <= F2R (float64_of_int m / float64_of_int b) <= bpow 63)%R.
Proof.
  intros Hb Hbm Hm.
  destruct (float64_of_int_bounds b ltac:(lia) ltac:(lia)) as [Nb [Hb1 Hb63]].
  destruct (float64_of_int_bounds m ltac:(lia) Hm) as [Nm [Hm1 Hm63]].
  pose proof (float64_of_int_mono b m ltac:(lia) Hbm Hm) as Hmono.
  assert (bpow 63 <= bpow 64)%R by (apply bpow_le; lia).
  destruct (div_correct _ _ Nm Nb) as [Nq Rq]; [lra | lra |].
  split; [exact Nq |]. split.
  - apply (rounds_to_ge_representable _ _ _ Rq representable_one).
    apply Rmult_le_reg_r with (F2R (float64_of_int b)); [lra |].
    unfold Rdiv. rewrite Rmult_assoc, Rinv_l by lra. lra.
  - apply (rounds_to_le_representable _ _ _ Rq (representable_bpow 63 ltac:(lia))).
    apply Rle_trans with (F2R (float64_of_int m)); [| lra].
    apply Rmult_le_reg_r with (F2R (float64_of_int b)); [lra |].
    unfold Rdiv. rewrite Rmult_assoc, Rinv_l by lra. nra.
Qed.

(** ** Variant B: the invariant of the moving average *)

Lemma between_nonneg (lo f hi : float) :
  nonneg_float lo -> nonneg_float hi ->
  (lo <=? f)%float = true -> (f <=? hi)%float = true -> nonneg_float f.
Proof.
  rewrite !leb_spec. unfold nonneg_float.
  destruct (Prim2SF lo) as [sl | sl | | sl ml el]; try contradiction;
    destruct (Prim2SF hi) as [sh | sh | | sh mh eh]; try contradiction;
    destruct (Prim2SF f) as [s | s | | s m e]; simpl;
    intros; subst; try discriminate; try exact I; try reflexivity;
    destruct s; try discriminate; reflexivity.
Qed.

Section VariantB_invariant.

Context {Rand : Type} (Float64 : Rand -> float * Rand).
Context {L Item : Type} {RL : RateLimiter L Item}.
Implicit Types r : VariantB.rateLimiterWithJitter Rand L.

Lemma valid_config_alpha r :
  VariantB.valid_config r ->
  nonneg_float (VariantB.alpha r) /\ (0 < F2R (VariantB.alpha r) <= 1)%R.
Proof.
  intros (_ & _ & _ & Ha0 & Ha1).
  assert (Na : nonneg_float (VariantB.alpha r)).
  { exact (ltb_zero_nonneg _ _ Ha0 Ha1 nonneg_float_one). }
  split; [exact Na |]. split.
  - rewrite <- F2R_zero. now apply (ltb_correct 0 _ nonneg_float_zero Na).
  - rewrite <- F2R_one. now apply (leb_correct _ 1 Na nonneg_float_one).
Qed.

Lemma valid_config_ratio r :
  VariantB.valid_config r ->
  nonneg_float (VariantB.delay_ratio r)
  /\ (1 <= F2R (VariantB.delay_ratio r) <= bpow 63)%R.
Proof.
  intros (Hb & Hbm & Hm & _). now apply delay_ratio_bounds.
Qed.

Lemma average_in_range_values r :
  VariantB.valid_config r ->
  (VariantB.average_in_range r = true <-> average_values_in_range r).
Proof.
  intros Hc. destruct (valid_config_ratio r Hc) as [Nq Hq].
  unfold VariantB.average_in_range, average_values_in_range.
  rewrite !andb_true_iff. split.
  - intros [[[H1 H2] H3] H4].
    assert (Nf : nonneg_float (VariantB.failureRate r)).
    { exact (between_nonneg 0 _ 1 nonneg_float_zero nonneg_float_one H1 H2). }
    assert (Ns : nonneg_float (VariantB.scaleFactor r)).
    { exact (between_nonneg 1 _ _ nonneg_float_one Nq H3 H4). }
    apply (leb_correct 0 _ nonneg_float_zero Nf) in H1.
    apply (leb_correct _ 1 Nf nonneg_float_one) in H2.
    apply (leb_correct 1 _ nonneg_float_one Ns) in H3.
    apply (leb_correct _ _ Ns Nq) in H4.
    rewrite F2R_zero in H1. rewrite F2R_one in H2, H3.
    repeat split; assumption.
  - intros (Nf & [H1 H2] & Ns & [H3 H4]).
    rewrite <- F2R_zero in H1. rewrite <- F2R_one in H2, H3.
    repeat split.
    + now apply (leb_correct 0 _ nonneg_float_zero Nf).
    + now apply (leb_correct _ 1 Nf nonneg_float_one).
    + now apply (leb_correct 1 _ nonneg_float_one Ns).
    + now apply (leb_correct _ _ Ns Nq).
Qed.

Lemma Success_keeps_config b r :
  VariantB.valid_config r -> VariantB.valid_config (VariantB.Success b r).
Proof. intros H. exact H. Qed.

Lemma Success_keeps_range b r :
  VariantB.valid_config r -> average_values_in_range r ->
  average_values_in_range (VariantB.Success b r).
Proof.
  intros Hc (Nf & Hf & _ & _).
  destruct (valid_config_alpha r Hc) as [Na Ha].
  destruct (valid_config_ratio r Hc) as [Nq Hq].
  unfold average_values_in_range, VariantB.Success. simpl.
  fold (VariantB.delay_ratio r).
  set (sample := if negb b then 1%float else 0%float).
  assert (Hs : sample = 0%float \/ sample = 1%float).
  { unfold sample. destruct b; simpl; [left | right]; reflexivity. }
  destruct (average_step _ _ sample Na Ha Nf Hf Hs) as [Nf' Hf'].
  destruct (scale_step _ _ Nf' Hf' Nq Hq) as [Ns' Hs'].
  change (VariantB.delay_ratio (VariantB.mkLimiter _ _ _ _ _ _ _))
    with (VariantB.delay_ratio r).
  repeat split; try assumption; lra.
Qed.

Lemma step_keeps_config r c :
  VariantB.valid_config r -> VariantB.valid_config (VariantB.step Float64 r c).
Proof.
  intros H. destruct c; simpl; try exact H.
  unfold VariantB.valid_config.
  pose proof (When_keeps_average Float64 item r) as E.
  unfold VariantB.average in E. injection E as -> -> -> _ _. exact H.
Qed.

Lemma step_keeps_range r c :
  VariantB.valid_config r -> VariantB.average_in_range r = true ->
  VariantB.average_in_range (VariantB.step Float64 r c) = true.
Proof.
  intros Hc Hr. destruct c; simpl; try exact Hr.
  - pose proof (When_keeps_average Float64 item r) as E.
    unfold VariantB.average in E.
    unfold VariantB.average_in_range, VariantB.delay_ratio in *.
    injection E as -> -> _ -> ->. exact Hr.
  - apply (average_in_range_values _ (Success_keeps_config success r Hc)).
    apply Success_keeps_range; [exact Hc |].
    now apply average_in_range_values.
Qed.

Lemma fresh_in_range (inner0 : L) (b m : Z) (a : float) (seed : Rand) :
  VariantB.valid_config
    (VariantB.newItemExponentialFailureRateLimiterWithJitter inner0 b m a seed) ->
  VariantB.average_in_range
    (VariantB.newItemExponentialFailureRateLimiterWithJitter inner0 b m a seed)
  = true.
Proof.
  intros Hc. apply (average_in_range_values _ Hc).
  destruct (valid_config_ratio _ Hc) as [Nq Hq].
  unfold average_values_in_range. simpl VariantB.failureRate. simpl VariantB.scaleFactor.
  rewrite F2R_zero, F2R_one.
  repeat split; try exact nonneg_float_zero; try exact nonneg_float_one; lra.
Qed.

Lemma run_keeps_range cs : forall r,
  VariantB.valid_config r -> VariantB.average_in_range r = true ->
  VariantB.valid_config (VariantB.run Float64 cs r)
  /\ VariantB.average_in_range (VariantB.run Float64 cs r) = true.
Proof.
  induction cs as [| c cs IH]; intros r Hc Hr; [split; assumption |].
  change (VariantB.run Float64 (c :: cs) r)
    with (VariantB.run Float64 cs (VariantB.step Float64 r c)).
  apply IH; [now apply step_keeps_config | now apply step_keeps_range].
Qed.

End VariantB_invariant.

(** Under the preconditions of the constructor, [0 <= failureRate <= 1]
    and [1 <= scaleFactor <= maxDelay/baseDelay] hold for a fresh limiter,
    are kept by every method (with the configuration), and so hold after
    every run. *)
Theorem average_invariant
    {Rand : Type} (Float64 : Rand -> float * Rand)
    {L Item : Type} {RL : RateLimiter L Item} :
  (forall (inner0 : L) b m a (seed : Rand),
      VariantB.valid_config
        (VariantB.newItemExponentialFailureRateLimiterWithJitter inner0 b m a seed) ->
      VariantB.average_in_range
        (VariantB.newItemExponentialFailureRateLimiterWithJitter inner0 b m a seed)
      = true)
  /\ (forall (r : VariantB.rateLimiterWithJitter Rand L) c,
        VariantB.valid_config r -> VariantB.average_in_range r = true ->
        VariantB.valid_config (VariantB.step Float64 r c)
        /\ VariantB.average_in_range (VariantB.step Float64 r c) = true)
  /\ (forall (inner0 : L) b m a (seed : Rand) cs,
        VariantB.valid_config
          (VariantB.newItemExponentialFailureRateLimiterWithJitter inner0 b m a seed) ->
        VariantB.average_in_range
          (VariantB.run Float64 cs
             (VariantB.newItemExponentialFailureRateLimiterWithJitter
                inner0 b m a seed)) = true).
Proof.
  split; [| split].
  - intros. now apply fresh_in_range.
  - intros r c Hc Hr. split;
      [now apply step_keeps_config | now apply step_keeps_range].
  - intros inner0 b m a seed cs Hc.
    apply (run_keeps_range Float64 cs); [exact Hc | now apply fresh_in_range].
Qed.

(** ** Variant B: the two ends of the scale factor *)

Lemma mul_zero_add_one (z d : float) :
  (z =? 0)%float = true -> nonneg_float d -> (z * d + 1)%float = 1%float.
Proof.
  intros Hz Hd. apply Prim2SF_inj. rewrite add_spec, mul_spec.
  rewrite eqb_spec, Prim2SF_zero in Hz. unfold nonneg_float in Hd.
  rewrite Prim2SF_one.
  destruct (Prim2SF z) as [s | s | | s m e]; simpl in Hz;
    try discriminate; try (destruct s; discriminate).
  destruct (Prim2SF d) as [s' | s' | | s' m' e']; try contradiction; reflexivity.
Qed.

Lemma F2R_two_pow_53 :
  nonneg_float 9007199254740992 /\ F2R 9007199254740992 = bpow 53.
Proof.
  split; [reflexivity |].
  unfold F2R.
  change (Prim2SF 9007199254740992) with (S754_finite false 4503599627370496 1).
  unfold B2R, cond_Zopp.
  change (Zpos 4503599627370496) with (2 ^ 52). rewrite <- bpow_IZR by lia.
  rewrite <- bpow_add. reflexivity.
Qed.

Lemma ratio_minus_one (q : float) :
  nonneg_float q -> (1 <= F2R q <= bpow 63)%R ->
  nonneg_float (q - 1) /\ rounds_to (F2R q - 1) (F2R (q - 1)).
Proof.
  intros Nq [H1 H63]. pose proof bpow_63_lt.
  destruct (sub_correct q 1 Nq nonneg_float_one) as [Nd Rd];
    [rewrite F2R_one; lra | lra |].
  rewrite F2R_one in Rd. split; assumption.
Qed.

Lemma one_mul_add_one (q : float) :
  nonneg_float q -> (1 <= F2R q)%R -> (F2R q < bpow 53)%R ->
  (1 * (q - 1) + 1)%float = q.
Proof.
  intros Nq H1 H53.
  assert (B53 : (bpow 53 < bpow 63)%R) by (apply bpow_lt; lia).
  pose proof bpow_63_lt as B63.
  destruct (ratio_minus_one q Nq ltac:(lra)) as [Nd Rd].
  assert (Hd : F2R (q - 1) = (F2R q - 1)%R).
  { apply (rounds_to_representable_eq _ _ Rd).
    apply representable_minus_one; [now apply F2R_representable | lra | lra]. }
  destruct (mul_correct 1 (q - 1) nonneg_float_one Nd) as [Nu Ru].
  { rewrite F2R_one, Hd. lra. }
  rewrite F2R_one, Rmult_1_l in Ru.
  pose proof (rounds_to_representable_eq _ _ Ru (F2R_representable _ Nd)) as Hu.
  destruct (add_correct (1 * (q - 1)) 1 Nu nonneg_float_one) as [Ns Rs].
  { rewrite F2R_one, Hu, Hd. lra. }
  rewrite F2R_one, Hu, Hd in Rs.
  replace (F2R q - 1 + 1)%R with (F2R q) in Rs by lra.
  pose proof (rounds_to_representable_eq _ _ Rs (F2R_representable _ Nq)) as Hs.
  apply F2R_inj; try assumption. rewrite Hs. lra.
Qed.

(** The bound [2^53] on the quotient cannot be dropped: with a base delay
    of 1ns, a cap of [2^53 + 2] ns and [alpha = 1], one reported failure
    gives failure rate 1 and scale factor [2^53], two less than the quotient
    of the delays: [q - 1] is not a binary64 number and rounds to [2^53],
    and so does [2^53 + 1]. *)
Lemma scale_factor_below_ratio :
  let r := VariantB.Success false
             (VariantB.newItemExponentialFailureRateLimiterWithJitter
                tt 1 9007199254740994 1%float tt) in
  VariantB.failureRate r = 1%float
  /\ VariantB.delay_ratio r = 9007199254740994%float
  /\ VariantB.scaleFactor r = 9007199254740992%float.
Proof. vm_compute. repeat split; reflexivity. Qed.

(** [Success] sets [failureRate] and then [scaleFactor] by
    the two formulas, in binary64, and changes no other field.  For delays
    with [0 < baseDelay <= maxDelay], the scale factor is 1 when the new
    failure rate is 0, and it is the quotient [maxDelay/baseDelay] when the
    new failure rate is 1 and that quotient is below [2^53]. *)
Theorem Success_sets_average {Rand L : Type}
    (r : VariantB.rateLimiterWithJitter Rand L) (success : bool) :
  let sample := if success then 0%float else 1%float in
  let r' := VariantB.Success success r in
  VariantB.failureRate r'
  = (VariantB.alpha r * sample
     + (1 - VariantB.alpha r) * VariantB.failureRate r)%float
  /\ VariantB.scaleFactor r'
     = (VariantB.failureRate r' * (VariantB.delay_ratio r - 1) + 1)%float
  /\ (VariantB.inner r', VariantB.baseDelay r', VariantB.maxDelay r',
      VariantB.alpha r', VariantB.rd r')
     = (VariantB.inner r, VariantB.baseDelay r, VariantB.maxDelay r,
        VariantB.alpha r, VariantB.rd r)
  /\ (0 < VariantB.baseDelay r -> VariantB.baseDelay r <= VariantB.maxDelay r ->
      VariantB.maxDelay r <= max_int64 ->
      ((VariantB.failureRate r' =? 0)%float = true ->
       VariantB.scaleFactor r' = 1%float)
      /\ (VariantB.failureRate r' = 1%float ->
          (VariantB.delay_ratio r <? 9007199254740992)%float = true ->
          VariantB.scaleFactor r' = VariantB.delay_ratio r)).
Proof.
  intros sample r'.
  assert (E1 : VariantB.failureRate r'
               = (VariantB.alpha r * sample
                  + (1 - VariantB.alpha r) * VariantB.failureRate r)%float).
  { unfold r', sample. destruct success; reflexivity. }
  assert (E2 : VariantB.scaleFactor r'
               = (VariantB.failureRate r' * (VariantB.delay_ratio r - 1) + 1)%float).
  { unfold r'. destruct success; reflexivity. }
  split; [exact E1 |]. split; [exact E2 |]. split; [reflexivity |].
  intros Hb Hbm Hm.
  destruct (delay_ratio_bounds _ _ Hb Hbm Hm) as [Nq Hq].
  fold (VariantB.delay_ratio r) in Nq, Hq.
  split.
  - intros Hz. rewrite E2.
    apply mul_zero_add_one; [exact Hz |].
    now apply ratio_minus_one.
  - intros H1 H53. rewrite E2, H1.
    destruct F2R_two_pow_53 as [N53 V53].
    apply (ltb_correct _ _ Nq N53) in H53. rewrite V53 in H53.
    apply one_mul_add_one; [exact Nq | lra | exact H53].
Qed.

Lemma Success_sets_average_witness :
  let r := VariantB.newItemExponentialFailureRateLimiterWithJitter
             tt 1000000000 10000000000 1%float tt in
  VariantB.scaleFactor (VariantB.Success true r) = 1%float
  /\ VariantB.scaleFactor (VariantB.Success false r) = 10%float.
Proof.
  intros r. split.
  - apply (proj1 (proj2 (proj2 (proj2 (Success_sets_average r true)))
                    ltac:(vm_compute; reflexivity)
                    ltac:(vm_compute; congruence)
                    ltac:(vm_compute; congruence))).
    vm_compute. reflexivity.
  - apply (proj2 (proj2 (proj2 (proj2 (Success_sets_average r false)))
                    ltac:(vm_compute; reflexivity)
                    ltac:(vm_compute; congruence)
                    ltac:(vm_compute; congruence))).
    + vm_compute. reflexivity.
    + vm_compute. reflexivity.
Defined.

(** ** The jitter *)

Lemma int64_of_float64_range (f : float) : in_int64 (int64_of_float64 f).
Proof.
  assert (H0 : in_int64 0) by (vm_compute; split; congruence).
  assert (Hmin : in_int64 min_int64) by (vm_compute; split; congruence).
  unfold int64_of_float64.
  destruct (Prim2SF f) as [s | s | | s m e]; try assumption.
  cbv zeta. destruct (in_int64b _) eqn:E; [| assumption].
  now apply in_int64b_true.
Qed.

Lemma unit_sample_values (p : float) :
  unit_sample p = true ->
  nonneg_float p /\ (0 <= F2R p <= 1 - bpow (-53))%R.
Proof.
  unfold unit_sample. intros H. apply andb_prop in H. destruct H as [H0 H1].
  assert (Hle : (p <=? 1)%float = true).
  { rewrite leb_spec. rewrite ltb_spec in H1. unfold SFleb, SFltb in *.
    destruct (SFcompare (Prim2SF p) (Prim2SF 1)) as [[] |]; try discriminate; reflexivity. }
  assert (Np : nonneg_float p) by exact (leb_zero_nonneg _ _ H0 Hle nonneg_float_one).
  split; [exact Np |].
  pose proof (F2R_nonneg p Np) as Hp0. split; [exact Hp0 |].
  apply (ltb_correct _ _ Np nonneg_float_one) in H1. rewrite F2R_one in H1.
  destruct (Req_dec (F2R p) 0) as [E | Hne].
  { rewrite E. assert (bpow (-53) < bpow 0)%R by (apply bpow_lt; lia).
    rewrite bpow_0 in H. lra. }
  destruct (representable_canonical _ (F2R_representable p Np) ltac:(lra))
    as (k & M & [HM0 HM53] & Hk & Hp).
  assert (Hk0 : k <= 0).
  { assert (k - 1 < 0) by (apply bpow_lt_inv; rewrite bpow_0; lra). lia. }
  destruct (Z.eq_dec k 0) as [-> | Hk'].
  - change (fexp64 0) with (-53) in Hp. rewrite Hp.
    assert (Hone : (1 = bpow 53 * bpow (-53))%R).
    { rewrite <- bpow_add. reflexivity. }
    rewrite Hone at 1.
    assert (IZR M <= bpow 53 - 1)%R.
    { rewrite bpow_IZR by lia. rewrite <- minus_IZR. apply IZR_le. lia. }
    pose proof (bpow_pos (-53)). nra.
  - assert (bpow k <= bpow (-1))%R by (apply bpow_le; lia).
    rewrite bpow_m1 in H.
    assert (bpow (-53) <= bpow (-1))%R by (apply bpow_le; lia).
    rewrite bpow_m1 in H2. lra.
Qed.

(** The product of a number [a >= 1] with a sample rounds to a binary64
    number strictly below [a]. *)
Lemma jitter_below (a v j : R) :
  representable a -> (1 <= a)%R -> (0 <= v <= a * (1 - bpow (-53)))%R ->
  rounds_to v j ->
  exists r, representable r /\ (j <= r < a)%R.
Proof.
  intros Ha H1 [Hv0 Hv] Hj.
  destruct (representable_canonical a Ha ltac:(lra)) as (k & M & [HM0 HM53] & Hk & HaM).
  assert (Hk1 : 0 < k) by (apply bpow_lt_inv; rewrite bpow_0; lra).
  assert (He : fexp64 k = k - 53) by (rewrite fexp64_eq; lia).
  rewrite He in HaM.
  pose proof (bpow_pos (k - 53)) as Hp.
  assert (HM52 : 2 ^ 52 <= M).
  { apply le_IZR. rewrite <- bpow_IZR by lia.
    apply Rmult_le_reg_r with (bpow (k - 53)); [exact Hp |].
    rewrite <- HaM, <- bpow_add. replace (52 + (k - 53)) with (k - 1) by lia. lra. }
  pose proof (bpow_pos (-53)) as Hp53.
  assert (Hlt1 : (bpow (-53) < 1)%R).
  { rewrite <- bpow_0. apply bpow_lt. lia. }
  assert (E52 : (bpow 52 * bpow (-53) = / 2)%R).
  { rewrite <- bpow_add. change (52 + -53) with (-1). apply bpow_m1. }
  destruct (Z.eq_dec M (2 ^ 52)) as [EM | NM].
  - assert (Hrep : representable (a * (1 - bpow (-53)))).
    { replace (a * (1 - bpow (-53)))%R
        with (IZR (2 ^ 53 - 1) * bpow (k - 53 - 1))%R.
      - apply representable_intro; lia.
      - rewrite HaM, EM, minus_IZR, <- !bpow_IZR by lia.
        assert (Eb : (bpow 52 * bpow (k - 53) = bpow 53 * bpow (k - 53 - 1))%R).
        { rewrite <- !bpow_add. f_equal. lia. }
        assert (E53 : (bpow 53 * bpow (-53) = 1)%R)
          by (rewrite <- bpow_add; reflexivity).
        rewrite Eb. set (c := bpow (k - 53 - 1)).
        replace (bpow 53 * c * (1 - bpow (-53)))%R
          with (bpow 53 * c - bpow 53 * bpow (-53) * c)%R by ring.
        rewrite E53. ring. }
    exists (a * (1 - bpow (-53)))%R. split; [exact Hrep |]. split.
    + exact (rounds_to_le_representable _ _ _ Hj Hrep Hv).
    + nra.
  - exists (IZR (M - 1) * bpow (k - 53))%R. split; [| split].
    + apply representable_intro; lia.
    + apply (rounds_to_mono v (a * (1 - bpow (-53))) _ _ Hv Hj).
      right. split; [nra |].
      exists k, (M - 1).
      assert (HMx : (IZR M * bpow (-53) < 1)%R).
      { assert (E53 : (bpow 53 * bpow (-53) = 1)%R) by (rewrite <- bpow_add; reflexivity).
        apply IZR_lt in HM53. rewrite <- bpow_IZR in HM53 by lia. nra. }
      assert (HMy : (/ 2 < IZR M * bpow (-53))%R).
      { assert (2 ^ 52 + 1 <= M) by lia.
        apply IZR_le in H. rewrite plus_IZR, <- bpow_IZR in H by lia. nra. }
      assert (Hsc : (a * (1 - bpow (-53)) * bpow (- fexp64 k))%R
                    = (IZR M - IZR M * bpow (-53))%R).
      { rewrite He, HaM. pose proof (bpow_mul_opp (k - 53)) as E.
        transitivity (IZR M * (bpow (k - 53) * bpow (- (k - 53))) * (1 - bpow (-53)))%R;
          [ring | rewrite E; ring]. }
      split; [| split].
      * split.
        -- apply Rle_trans with (IZR (M - 1) * bpow (k - 53))%R.
           ++ replace (k - 1) with (52 + (k - 53)) by lia. rewrite bpow_add.
              assert (2 ^ 52 <= M - 1) by lia.
              apply IZR_le in H. rewrite <- bpow_IZR in H by lia. nra.
           ++ rewrite HaM, minus_IZR. nra.
        -- apply Rlt_trans with a; [| lra]. rewrite HaM. nra.
      * rewrite Hsc. apply nearest_even_within. rewrite minus_IZR. lra.
      * rewrite He. reflexivity.
    + rewrite HaM, minus_IZR. nra.
Qed.

Lemma math_MaxInt64_value :
  nonneg_float math_MaxInt64 /\ F2R math_MaxInt64 = bpow 63.
Proof.
  assert (E : Prim2SF math_MaxInt64 = S754_finite false 4503599627370496 11)
    by (vm_compute; reflexivity).
  unfold nonneg_float, F2R. rewrite E. split; [reflexivity |].
  unfold B2R, cond_Zopp.
  change (Zpos 4503599627370496) with (2 ^ 52). rewrite <- bpow_IZR by lia.
  rewrite <- bpow_add. reflexivity.
Qed.

(** The jitter of Variant B is a duration of [[0, baseDelay)], below the
    binary64 value of the base delay. *)
Lemma jitter_value (b : Z) (p : float) :
  0 < b -> b <= max_int64 -> unit_sample p = true ->
  0 <= int64_of_float64 (float64_of_int b * p) < b
  /\ (IZR (int64_of_float64 (float64_of_int b * p)) < F2R (float64_of_int b))%R.
Proof.
  intros Hb Hmax Hp.
  destruct (unit_sample_values p Hp) as [Np [Hp0 Hp1]].
  destruct (float64_of_int_bounds b ltac:(lia) Hmax) as [Na [Ha1 Ha63]].
  destruct (float64_of_int_correct b ltac:(lia) Hmax) as [_ Rb].
  pose proof bpow_63_lt as B63. pose proof (bpow_pos (-53)) as P53.
  set (a := float64_of_int b) in *.
  destruct (mul_correct a p Na Np) as [Nj Rj]; [nra |].
  destruct (jitter_below (F2R a) (F2R a * F2R p) (F2R (a * p))
              (F2R_representable a Na) Ha1) as (r & Hr & Hjr & Hra);
    [split; nra | exact Rj |].
  destruct (int64_of_float64_floor (a * p) Nj ltac:(lra)) as [[Hj0 Hjmax] [Hf1 Hf2]].
  assert (Hlt : (IZR (int64_of_float64 (a * p)) < F2R a)%R) by lra.
  split; [| exact Hlt]. split; [exact Hj0 |].
  apply lt_IZR.
  destruct (Rle_lt_dec (F2R a) (IZR b)) as [Hle | Hgt]; [lra |].
  destruct (Rle_lt_dec (IZR b) r) as [Hbr | Hrb]; [| lra].
  pose proof (rounds_to_le_representable _ _ _ Rb Hr Hbr). lra.
Qed.

Section VariantB_When.

Context {Rand : Type} (Float64 : Rand -> float * Rand).
Context {L Item : Type} {RL : RateLimiter L Item}.
Implicit Types r : VariantB.rateLimiterWithJitter Rand L.

(** [When] of Variant B returns a duration of [[0, maxDelay]], whatever the
    embedded limiter returns and whatever the scale factor is. *)
Lemma When_B_in_range item r :
  0 < VariantB.baseDelay r -> VariantB.baseDelay r <= max_int64 ->
  0 <= VariantB.maxDelay r -> VariantB.maxDelay r <= max_int64 ->
  unit_sample (fst (Float64 (VariantB.rd r))) = true ->
  0 <= fst (VariantB.When Float64 item r) <= VariantB.maxDelay r.
Proof.
  intros Hb Hbmax Hm0 Hmmax Hp. unfold VariantB.When.
  destruct (rl_When (VariantB.inner r) item) as [baseline inner'].
  destruct (Float64 (VariantB.rd r)) as [p g]. simpl in Hp.
  destruct (jitter_value _ p Hb Hbmax Hp) as [[Hj0 Hjb] _].
  set (j := int64_of_float64 (float64_of_int (VariantB.baseDelay r) * p)) in *.
  set (d0 := int64_of_float64 (float64_of_int baseline * VariantB.scaleFactor r)).
  set (d := if VariantB.maxDelay r <? d0 then VariantB.maxDelay r else d0).
  assert (Hd : d <= VariantB.maxDelay r).
  { unfold d. destruct (Z.ltb_spec (VariantB.maxDelay r) d0); lia. }
  destruct (Z.ltb_spec d j) as [Hlt | Hge]; simpl fst; [lia |].
  rewrite wrap64_in_range; [lia |].
  unfold in_int64, min_int64, max_int64 in *. lia.
Qed.

(** When the scaled delay stays below [2^63] ns, [When] of Variant B
    returns a positive duration. *)
Lemma When_B_positive item r :
  VariantB.valid_config r -> VariantB.average_in_range r = true ->
  VariantB.baseDelay r <= fst (rl_When (VariantB.inner r) item) ->
  fst (rl_When (VariantB.inner r) item) <= max_int64 ->
  unit_sample (fst (Float64 (VariantB.rd r))) = true ->
  (float64_of_int (fst (rl_When (VariantB.inner r) item))
   * VariantB.scaleFactor r <? math_MaxInt64)%float = true ->
  0 < fst (VariantB.When Float64 item r).
Proof.
  intros Hc Hr Hbase Hbmax Hp Hno.
  pose proof Hc as (Hb & Hbm & Hm & _).
  apply (average_in_range_values r Hc) in Hr.
  destruct Hr as (_ & _ & Ns & [Hs1 Hsq]).
  destruct (valid_config_ratio r Hc) as [_ [_ Hq63]].
  unfold VariantB.When.
  destruct (rl_When (VariantB.inner r) item) as [baseline inner'].
  destruct (Float64 (VariantB.rd r)) as [p g]. simpl in Hp, Hbase, Hbmax, Hno.
  destruct (jitter_value _ p Hb ltac:(lia) Hp) as [[Hj0 Hjb] Hja].
  set (j := int64_of_float64 (float64_of_int (VariantB.baseDelay r) * p)) in *.
  destruct (float64_of_int_bounds baseline ltac:(lia) Hbmax) as [Nb1 [Hb11 Hb163]].
  pose proof (float64_of_int_mono (VariantB.baseDelay r) baseline
                ltac:(lia) Hbase Hbmax) as Hmono.
  destruct (float64_of_int_integer (VariantB.baseDelay r) ltac:(lia) ltac:(lia))
    as [z Hz].
  set (x := (float64_of_int baseline * VariantB.scaleFactor r)%float) in *.
  destruct (mul_correct _ _ Nb1 Ns) as [Nx Rx].
  { apply Rle_lt_trans with (bpow 63 * bpow 63)%R.
    - pose proof (bpow_pos 63). nra.
    - rewrite <- bpow_add. apply bpow_lt. lia. }
  fold x in Nx, Rx.
  assert (Hxb : (F2R (float64_of_int baseline) <= F2R x)%R).
  { apply (rounds_to_ge_representable _ _ _ Rx (F2R_representable _ Nb1)). nra. }
  destruct math_MaxInt64_value as [NM VM].
  apply (ltb_correct _ _ Nx NM) in Hno. rewrite VM in Hno.
  destruct (int64_of_float64_floor x Nx Hno) as [[Hd0 Hdmax] [Hf1 Hf2]].
  set (d0 := int64_of_float64 x) in *.
  assert (Hjd : j < d0).
  { assert (IZR j < IZR d0 + 1)%R by lra.
    assert (Hzd : z <= d0).
    { assert (IZR z < IZR d0 + 1)%R by lra.
      rewrite <- plus_IZR in H0. apply lt_IZR in H0. lia. }
    assert (j < z) by (apply lt_IZR; lra). lia. }
  set (d := if VariantB.maxDelay r <? d0 then VariantB.maxDelay r else d0).
  assert (Hd : j < d /\ d <= VariantB.maxDelay r).
  { unfold d. destruct (Z.ltb_spec (VariantB.maxDelay r) d0); lia. }
  destruct (Z.ltb_spec d j) as [Hlt | Hge]; simpl fst; [lia |].
  rewrite wrap64_in_range; [lia |].
  unfold in_int64, min_int64, max_int64 in *. lia.
Qed.

End VariantB_When.

(** ** Variant A: the delay *)

Lemma mul_total (x y : float) :
  nonneg_float x -> nonneg_float y ->
  (nonneg_float (x * y) /\ rounds_to (F2R x * F2R y) (F2R (x * y)))
  \/ (Prim2SF (x * y) = S754_infinity false /\ (bpow 1023 <= F2R x * F2R y)%R).
Proof.
  intros Hx Hy. unfold nonneg_float, F2R. rewrite mul_spec.
  destruct (SFmul_total _ _ (nonneg_float_valid x Hx) (nonneg_float_valid y Hy))
    as [[[_ Hn] Hr] | H].
  - left. split; assumption.
  - right. exact H.
Qed.

Lemma mul_infinity (x y : float) :
  nonneg_float x -> (0 < F2R x)%R -> Prim2SF y = S754_infinity false ->
  Prim2SF (x * y) = S754_infinity false.
Proof.
  unfold nonneg_float, F2R. intros Hx Hpos Hy. rewrite mul_spec, Hy.
  destruct (Prim2SF x) as [s | s | | s m e]; try contradiction.
  - simpl in Hpos. lra.
  - simpl in Hx. subst s. reflexivity.
Qed.

Lemma Prim2SF_math_MaxInt64 :
  Prim2SF math_MaxInt64 = S754_finite false 4503599627370496 11.
Proof. vm_compute. reflexivity. Qed.

Lemma infinity_above_MaxInt64 (f : float) :
  Prim2SF f = S754_infinity false -> (math_MaxInt64 <? f)%float = true.
Proof.
  intros H. rewrite ltb_spec, H, Prim2SF_math_MaxInt64. reflexivity.
Qed.

(** [math.Pow(2, n)] is the power of two itself, or [+Inf]. *)
Lemma math_Pow2_cases (n : Z) :
  -1074 <= n ->
  (nonneg_float (math_Pow2 n) /\ F2R (math_Pow2 n) = bpow n)
  \/ Prim2SF (math_Pow2 n) = S754_infinity false.
Proof.
  intros Hn. unfold math_Pow2, nonneg_float, F2R.
  rewrite Z_ldexp_spec.
  change (Prim2SF one) with (S754_finite false 4503599627370496 (-52)).
  unfold SFldexp.
  assert (Hval : (IZR (Zpos 4503599627370496) * bpow (-52 + n))%R = bpow n).
  { change (Zpos 4503599627370496) with (2 ^ 52). rewrite <- bpow_IZR by lia.
    rewrite <- bpow_add. f_equal. lia. }
  destruct (binary_round_total false 4503599627370496 (-52 + n))
    as (r & Hr & [Hres | [Hinf _]]).
  - left. rewrite Hval in Hr.
    destruct (rounded_value_nonneg _ _ Hres) as [[_ Hnn] Hb].
    split; [exact Hnn |]. rewrite Hb.
    apply (rounds_to_representable_eq _ _ Hr). now apply representable_bpow.
  - right. exact Hinf.
Qed.

Section VariantA_When.

Context {Rand : Type} (Float64 : Rand -> float * Rand).
Implicit Types r : VariantA.rateLimiterWithJitter Rand.

(** A delay that passes the guard of [When] is a number of [[baseDelay,
    2^63]]. *)
Lemma uncapped_delay r :
  0 <= VariantA.exp r -> 0 < VariantA.baseDelay r ->
  VariantA.baseDelay r <= max_int64 ->
  VariantA.capped r = false ->
  nonneg_float (VariantA.delay_of r)
  /\ (F2R (float64_of_int (VariantA.baseDelay r)) <= F2R (VariantA.delay_of r)
      <= bpow 63)%R.
Proof.
  intros He Hb Hbmax Hc.
  unfold VariantA.capped in Hc. apply orb_false_elim in Hc. destruct Hc as [Hc1 _].
  destruct (float64_of_int_bounds (VariantA.baseDelay r) ltac:(lia) Hbmax)
    as [Na [Ha1 Ha63]].
  unfold VariantA.delay_of in *.
  set (a := float64_of_int (VariantA.baseDelay r)) in *.
  destruct (math_Pow2_cases (VariantA.exp r) ltac:(lia)) as [[Np Vp] | Hinf].
  - destruct (mul_total a _ Na Np) as [[Nd Rd] | [Hinf _]].
    + split; [exact Nd |]. split.
      * apply (rounds_to_ge_representable _ _ _ Rd (F2R_representable a Na)).
        rewrite Vp. pose proof (bpow_ge_1 _ He). nra.
      * destruct math_MaxInt64_value as [NM VM].
        destruct (Rle_lt_dec (F2R (a * math_Pow2 (VariantA.exp r))) (bpow 63))
          as [Hle | Hgt]; [exact Hle |].
        rewrite <- VM in Hgt. apply (ltb_correct _ _ NM Nd) in Hgt. congruence.
    + rewrite (infinity_above_MaxInt64 _ Hinf) in Hc1. discriminate Hc1.
  - rewrite (infinity_above_MaxInt64 _ (mul_infinity a _ Na ltac:(lra) Hinf)) in Hc1.
    discriminate Hc1.
Qed.

(** Away from the delay [2^63], [When] of Variant A returns a duration of
    [[0, maxDelay]]. *)
Lemma When_A_range r :
  0 <= VariantA.exp r -> 0 < VariantA.baseDelay r ->
  VariantA.baseDelay r <= max_int64 -> 0 <= VariantA.maxDelay r ->
  unit_sample (fst (Float64 (VariantA.rd r))) = true ->
  VariantA.delay_of r <> math_MaxInt64 ->
  0 <= fst (VariantA.When Float64 r) <= VariantA.maxDelay r.
Proof.
  intros He Hb Hbmax Hm0 Hp Hne.
  unfold VariantA.When.
  destruct (VariantA.capped r) eqn:Hc; [simpl; lia |].
  destruct (uncapped_delay r He Hb Hbmax Hc) as [Nd [Had Hd63]].
  unfold VariantA.capped in Hc. apply orb_false_elim in Hc. destruct Hc as [_ Hc2].
  apply Z.ltb_ge in Hc2.
  destruct math_MaxInt64_value as [NM VM].
  destruct (float64_of_int_bounds (VariantA.baseDelay r) ltac:(lia) Hbmax)
    as [Na [Ha1 Ha63]].
  set (a := float64_of_int (VariantA.baseDelay r)) in *.
  set (delay := VariantA.delay_of r) in *.
  assert (Hd : (F2R delay < bpow 63)%R).
  { destruct (Rlt_le_dec (F2R delay) (bpow 63)) as [Hlt | Hge]; [exact Hlt |].
    exfalso. apply Hne. apply F2R_inj; try assumption; lra. }
  destruct (int64_of_float64_floor delay Nd Hd) as [[Hd0 _] [Hf1 Hf2]].
  destruct (Float64 (VariantA.rd r)) as [p g]. simpl in Hp.
  destruct (unit_sample_values p Hp) as [Np [Hp0 Hp1]].
  pose proof bpow_63_lt as B63. pose proof (bpow_pos (-53)) as P53.
  destruct (mul_correct a p Na Np) as [Nj Rj]; [nra |].
  destruct (jitter_below (F2R a) (F2R a * F2R p) (F2R (a * p))
              (F2R_representable a Na) Ha1) as (rr & Hr & Hjr & Hra);
    [split; nra | exact Rj |].
  destruct (sub_correct delay (a * p) Nd Nj) as [Nb Rb]; [lra | lra |].
  pose proof (F2R_nonneg _ Nj) as Hj0.
  assert (Hbd : (F2R (delay - a * p) <= F2R delay)%R).
  { apply (rounds_to_le_representable _ _ _ Rb (F2R_representable _ Nd)). lra. }
  destruct (_ <=? _)%float; simpl fst; [lia |].
  destruct (int64_of_float64_floor (delay - a * p) Nb ltac:(lra)) as [[Hr0 _] [Hg1 Hg2]].
  split; [exact Hr0 |].
  apply Z.le_trans with (int64_of_float64 delay); [| exact Hc2].
  assert (IZR (int64_of_float64 (delay - a * p)) < IZR (int64_of_float64 delay) + 1)%R
    by lra.
  rewrite <- plus_IZR in H. apply lt_IZR in H. lia.
Qed.

End VariantA_When.

(** ** Variant B: the scaled delay past [2^63] *)

(** From [2^63] on, the conversion to [int64] gives the indefinite value. *)
Lemma int64_of_float64_overflow (f : float) :
  nonneg_float f -> (bpow 63 <= F2R f)%R -> int64_of_float64 f = min_int64.
Proof.
  unfold nonneg_float, F2R, int64_of_float64. intros Hn Hge.
  destruct (Prim2SF f) as [s | s | | s m e]; try contradiction.
  - simpl in Hge. pose proof (bpow_pos 63). lra.
  - simpl in Hn. subst s. simpl cond_Zopp in *. simpl B2R in *.
    pose proof (shiftl_floor m e) as [Hf1 Hf2].
    assert (H63 : 2 ^ 63 <= Z.shiftl (Zpos m) e).
    { assert (IZR (2 ^ 63) < IZR (Z.shiftl (Zpos m) e) + 1)%R
        by (rewrite <- bpow_IZR by lia; lra).
      rewrite <- plus_IZR in H. apply lt_IZR in H. lia. }
    cbv zeta. destruct (in_int64b _) eqn:E; [| reflexivity].
    apply in_int64b_true in E. unfold in_int64, max_int64 in E. lia.
Qed.

Lemma int64_of_float64_infinity (f : float) :
  Prim2SF f = S754_infinity false -> int64_of_float64 f = min_int64.
Proof. unfold int64_of_float64. intros ->. reflexivity. Qed.

Section VariantB_overflow.

Context {Rand : Type} (Float64 : Rand -> float * Rand).
Context {L Item : Type} {RL : RateLimiter L Item}.
Implicit Types r : VariantB.rateLimiterWithJitter Rand L.

(** A scaled delay that is not below [2^63] makes [When] return zero. *)
Lemma When_B_overflow item r :
  VariantB.valid_config r -> VariantB.average_in_range r = true ->
  0 <= fst (rl_When (VariantB.inner r) item) <= max_int64 ->
  unit_sample (fst (Float64 (VariantB.rd r))) = true ->
  (float64_of_int (fst (rl_When (VariantB.inner r) item))
   * VariantB.scaleFactor r <? math_MaxInt64)%float = false ->
  fst (VariantB.When Float64 item r) = 0.
Proof.
  intros Hc Hr [Hbase Hbmax] Hp Hov.
  pose proof Hc as (Hb & Hbm & Hm & _).
  apply (average_in_range_values r Hc) in Hr.
  destruct Hr as (_ & _ & Ns & _).
  unfold VariantB.When.
  destruct (rl_When (VariantB.inner r) item) as [baseline inner'].
  destruct (Float64 (VariantB.rd r)) as [p g]. simpl in Hp, Hbase, Hbmax, Hov.
  destruct (jitter_value _ p Hb ltac:(lia) Hp) as [[Hj0 Hjb] _].
  set (j := int64_of_float64 (float64_of_int (VariantB.baseDelay r) * p)) in *.
  destruct (float64_of_int_correct baseline Hbase Hbmax) as [Nb1 _].
  set (x := (float64_of_int baseline * VariantB.scaleFactor r)%float) in *.
  assert (Hx : int64_of_float64 x = min_int64).
  { destruct (mul_total _ _ Nb1 Ns) as [[Nx _] | [Hinf _]].
    - fold x in Nx. apply (int64_of_float64_overflow x Nx).
      destruct math_MaxInt64_value as [NM VM].
      destruct (Rle_lt_dec (bpow 63) (F2R x)) as [Hle | Hlt]; [exact Hle |].
      rewrite <- VM in Hlt. apply (ltb_correct _ _ Nx NM) in Hlt. congruence.
    - apply int64_of_float64_infinity. exact Hinf. }
  rewrite Hx.
  assert (Hd : (if VariantB.maxDelay r <? min_int64 then VariantB.maxDelay r
                else min_int64) < j).
  { destruct (Z.ltb_spec (VariantB.maxDelay r) min_int64);
      unfold min_int64 in *; lia. }
  apply Z.ltb_lt in Hd. rewrite Hd. reflexivity.
Qed.

End VariantB_overflow.

(** ** Variant B: when the delay is positive *)

(** In a state with a valid configuration and the average in its range
    (so [1 <= scaleFactor]), and for a baseline of at least [baseDelay], the
    delay that [When] returns is positive exactly when the scaled delay
    [float64(baseline) * scaleFactor] is below [2^63]; from [2^63] on, its
    conversion to [int64] is out of range and [When] returns zero. *)
Theorem When_positive_unless_overflow
    {Rand : Type} (Float64 : Rand -> float * Rand)
    {L Item : Type} {RL : RateLimiter L Item}
    (item : Item) (r : VariantB.rateLimiterWithJitter Rand L) :
  VariantB.valid_config r -> VariantB.average_in_range r = true ->
  VariantB.baseDelay r <= fst (rl_When (VariantB.inner r) item) ->
  fst (rl_When (VariantB.inner r) item) <= max_int64 ->
  unit_sample (fst (Float64 (VariantB.rd r))) = true ->
  ((float64_of_int (fst (rl_When (VariantB.inner r) item))
    * VariantB.scaleFactor r <? math_MaxInt64)%float = true ->
   0 < fst (VariantB.When Float64 item r))
  /\ ((float64_of_int (fst (rl_When (VariantB.inner r) item))
       * VariantB.scaleFactor r <? math_MaxInt64)%float = false ->
      fst (VariantB.When Float64 item r) = 0).
Proof.
  intros Hc Hr Hbase Hbmax Hp. split; intros Hx.
  - now apply When_B_positive.
  - apply When_B_overflow; try assumption.
    destruct Hc as (Hb & _). lia.
Qed.

(** A base delay of 1s, a cap of 48h, [alpha = 1]: after one reported failure
    the scale factor is 172800, and the seventeenth [When] of an item, whose
    baseline is 65536s, returns zero. *)
Lemma When_positive_unless_overflow_witness :
  let r :=
    VariantB.run constant_source
      (VariantB.CallSuccess false :: repeat (VariantB.CallWhen 7) 16)
      (VariantB.newItemExponentialFailureRateLimiterWithJitter
         (Workqueue.NewItemExponentialFailureRateLimiter
            1000000000 172800000000000)
         1000000000 172800000000000 1%float (1 / 2)%float) in
  VariantB.valid_config r
  /\ VariantB.average_in_range r = true
  /\ fst (rl_When (VariantB.inner r) 7) = 65536000000000
  /\ VariantB.baseDelay r = 1000000000
  /\ VariantB.scaleFactor r = 172800%float
  /\ unit_sample (1 / 2)%float = true
  /\ fst (VariantB.When constant_source 7 r) = 0.
Proof.
  intros r.
  assert (Hc : VariantB.valid_config r)
    by (vm_compute; repeat split; congruence).
  assert (Hr : VariantB.average_in_range r = true) by (vm_compute; reflexivity).
  split; [exact Hc |]. split; [exact Hr |].
  do 4 (split; [vm_compute; reflexivity |]).
  assert (H1 : VariantB.baseDelay r <= fst (rl_When (VariantB.inner r) 7))
    by (vm_compute; congruence).
  assert (H2 : fst (rl_When (VariantB.inner r) 7) <= max_int64)
    by (vm_compute; congruence).
  assert (H3 : unit_sample (fst (constant_source (VariantB.rd r))) = true)
    by (vm_compute; reflexivity).
  assert (H4 : (float64_of_int (fst (rl_When (VariantB.inner r) 7%Z))
                * VariantB.scaleFactor r <? math_MaxInt64)%float = false)
    by (vm_compute; reflexivity).
  exact (proj2 (When_positive_unless_overflow constant_source 7 r Hc Hr H1 H2 H3)
           H4).
Defined.

(** ** Instances of the general statements *)

Lemma average_invariant_witness :
  VariantB.average_in_range
    (VariantB.run constant_source
       [VariantB.CallSuccess false; VariantB.CallWhen 7; VariantB.CallSuccess true]
       (VariantB.newItemExponentialFailureRateLimiterWithJitter
          (Workqueue.NewItemExponentialFailureRateLimiter 1000000000 10000000000)
          1000000000 10000000000 (5 / 100)%float (1 / 2)%float)) = true.
Proof.
  apply (proj2 (proj2 (average_invariant constant_source))).
  vm_compute. repeat split; congruence.
Defined.

Lemma When_A_range_witness :
  0 <= fst (VariantA.When constant_source
              (VariantA.mkLimiter 1 1000000000 4000000000 (1 / 2)%float))
  <= 4000000000.
Proof.
  apply (When_A_range constant_source
           (VariantA.mkLimiter 1 1000000000 4000000000 (1 / 2)%float));
    vm_compute; congruence.
Defined.

(** ** Variant A: between half the delay and the delay *)

Lemma representable_scale (y : R) (k : Z) :
  representable y -> 0 <= k -> representable (y * bpow k).
Proof.
  intros [-> | (k0 & m & e & Hm & [Hy1 Hy2] & Hy & He)] Hk.
  - left. ring.
  - right. exists (k0 + k), m, (e + k).
    pose proof (bpow_pos k) as Pk.
    split; [exact Hm |]. split; [| split].
    + replace (k0 + k - 1) with (k0 - 1 + k) by lia.
      rewrite !bpow_add. split; nra.
    + rewrite Hy, bpow_add. ring.
    + rewrite fexp64_eq in *. lia.
Qed.

(** Below [2^1023], [math.Pow(2, n)] is the power of two. *)
Lemma math_Pow2_value (n : Z) :
  -1074 <= n < 1023 ->
  nonneg_float (math_Pow2 n) /\ F2R (math_Pow2 n) = bpow n.
Proof.
  intros [Hn Hn']. unfold math_Pow2, nonneg_float, F2R.
  rewrite Z_ldexp_spec.
  change (Prim2SF one) with (S754_finite false 4503599627370496 (-52)).
  unfold SFldexp.
  assert (Hval : (IZR (Zpos 4503599627370496) * bpow (-52 + n))%R = bpow n).
  { change (Zpos 4503599627370496) with (2 ^ 52). rewrite <- bpow_IZR by lia.
    rewrite <- bpow_add. f_equal. lia. }
  destruct (binary_round_total false 4503599627370496 (-52 + n))
    as (r & Hr & [Hres | [_ Hinf]]).
  - rewrite Hval in Hr.
    destruct (rounded_value_nonneg _ _ Hres) as [[_ Hnn] Hb].
    split; [exact Hnn |]. rewrite Hb.
    apply (rounds_to_representable_eq _ _ Hr). now apply representable_bpow.
  - rewrite Hval in Hinf. apply bpow_le_inv in Hinf. lia.
Qed.

(** The product of a duration and a power of two is exact. *)
Lemma pow2_product (a : float) (n : Z) :
  nonneg_float a -> (1 <= F2R a <= bpow 63)%R -> 0 <= n <= 64 ->
  nonneg_float (a * math_Pow2 n)
  /\ F2R (a * math_Pow2 n) = (F2R a * bpow n)%R.
Proof.
  intros Na [Ha1 Ha63] Hn.
  destruct (math_Pow2_value n ltac:(lia)) as [Np Vp].
  pose proof (bpow_pos n) as Pn.
  destruct (mul_correct a _ Na Np) as [Nd Rd].
  { rewrite Vp. apply Rle_lt_trans with (bpow 63 * bpow n)%R; [nra |].
    rewrite <- bpow_add. apply bpow_lt. lia. }
  split; [exact Nd |]. rewrite Vp in Rd.
  apply (rounds_to_representable_eq _ _ Rd).
  apply representable_scale; [now apply F2R_representable | lia].
Qed.

Section VariantA_bounds.

Context {Rand : Type} (Float64 : Rand -> float * Rand).
Implicit Types r : VariantA.rateLimiterWithJitter Rand.

(** A delay that passes the guard of [When] has an exponent of at most 63. *)
Lemma uncapped_exp r :
  0 <= VariantA.exp r -> 0 < VariantA.baseDelay r ->
  VariantA.baseDelay r <= max_int64 ->
  VariantA.capped r = false ->
  VariantA.exp r <= 63.
Proof.
  intros He Hb Hbmax Hc.
  destruct (Z_le_gt_dec (VariantA.exp r) 63) as [Hle | Hgt]; [exact Hle |].
  exfalso.
  destruct (uncapped_delay r He Hb Hbmax Hc) as [Nd [_ Hd63]].
  destruct (float64_of_int_bounds (VariantA.baseDelay r) ltac:(lia) Hbmax)
    as [Na [Ha1 Ha63]].
  unfold VariantA.delay_of in *.
  set (a := float64_of_int (VariantA.baseDelay r)) in *.
  destruct (math_Pow2_cases (VariantA.exp r) ltac:(lia)) as [[Np Vp] | Hinf].
  - destruct (mul_total a _ Na Np) as [[_ Rd] | [Hinf _]].
    + assert (H64 : (bpow 64 <= F2R (a * math_Pow2 (VariantA.exp r)))%R).
      { apply (rounds_to_ge_representable _ _ _ Rd);
          [apply representable_bpow; lia |].
        rewrite Vp.
        pose proof (bpow_le 64 (VariantA.exp r) ltac:(lia)).
        pose proof (bpow_pos 64). nra. }
      pose proof (bpow_lt 63 64 ltac:(lia)). lra.
    + unfold nonneg_float in Nd. rewrite Hinf in Nd. exact Nd.
  - unfold nonneg_float in Nd.
    rewrite (mul_infinity a _ Na ltac:(lra) Hinf) in Nd. exact Nd.
Qed.

(** When the guard lets the delay pass, the result of [When] is at most the
    integer part of the delay, and from one failure on it is at least the
    delay of one failure less, that is, half the delay. *)
Lemma When_A_bounds r :
  0 <= VariantA.exp r -> 0 < VariantA.baseDelay r ->
  VariantA.baseDelay r <= max_int64 ->
  VariantA.capped r = false ->
  VariantA.delay_of r <> math_MaxInt64 ->
  unit_sample (fst (Float64 (VariantA.rd r))) = true ->
  0 <= fst (VariantA.When Float64 r) <= int64_of_float64 (VariantA.delay_of r)
  /\ (1 <= VariantA.exp r ->
      int64_of_float64
        (float64_of_int (VariantA.baseDelay r) * math_Pow2 (VariantA.exp r - 1))
      <= fst (VariantA.When Float64 r)).
Proof.
  intros He Hb Hbmax Hc Hne Hp.
  pose proof (uncapped_exp r He Hb Hbmax Hc) as He63.
  destruct (uncapped_delay r He Hb Hbmax Hc) as [Nd [Had Hd63]].
  destruct (float64_of_int_bounds (VariantA.baseDelay r) ltac:(lia) Hbmax)
    as [Na [Ha1 Ha63]].
  destruct (pow2_product _ (VariantA.exp r) Na (conj Ha1 Ha63) ltac:(lia))
    as [_ Vd].
  fold (VariantA.delay_of r) in Vd.
  unfold VariantA.When. rewrite Hc.
  destruct math_MaxInt64_value as [NM VM].
  set (a := float64_of_int (VariantA.baseDelay r)) in *.
  set (delay := VariantA.delay_of r) in *.
  assert (Hd : (F2R delay < bpow 63)%R).
  { destruct (Rlt_le_dec (F2R delay) (bpow 63)) as [Hlt | Hge]; [exact Hlt |].
    exfalso. apply Hne. apply F2R_inj; try assumption; lra. }
  destruct (int64_of_float64_floor delay Nd Hd) as [[Hd0 _] [Hf1 Hf2]].
  destruct (Float64 (VariantA.rd r)) as [p g]. simpl in Hp.
  destruct (unit_sample_values p Hp) as [Np [Hp0 Hp1]].
  pose proof bpow_63_lt as B63. pose proof (bpow_pos (-53)) as P53.
  destruct (mul_correct a p Na Np) as [Nj Rj]; [nra |].
  destruct (jitter_below (F2R a) (F2R a * F2R p) (F2R (a * p))
              (F2R_representable a Na) Ha1) as (rr & Hr & Hjr & Hra);
    [split; nra | exact Rj |].
  destruct (sub_correct delay (a * p) Nd Nj) as [Nb Rb]; [lra | lra |].
  pose proof (F2R_nonneg _ Nj) as Hj0.
  assert (Hbd : (F2R (delay - a * p) <= F2R delay)%R).
  { apply (rounds_to_le_representable _ _ _ Rb (F2R_representable _ Nd)). lra. }
  destruct (int64_of_float64_floor (delay - a * p) Nb ltac:(lra))
    as [[Hr0 _] [Hg1 Hg2]].
  assert (Hup : int64_of_float64 (delay - a * p) <= int64_of_float64 delay).
  { assert (IZR (int64_of_float64 (delay - a * p))
            < IZR (int64_of_float64 delay) + 1)%R by lra.
    rewrite <- plus_IZR in H. apply lt_IZR in H. lia. }
  split.
  - destruct (_ <=? _)%float; simpl fst; lia.
  - intros He1.
    destruct (pow2_product _ (VariantA.exp r - 1) Na (conj Ha1 Ha63) ltac:(lia))
      as [Nh Vh].
    fold a in Nh, Vh.
    set (h := (a * math_Pow2 (VariantA.exp r - 1))%float) in *.
    assert (Hdh : (F2R delay = 2 * F2R h)%R).
    { rewrite Vd, Vh.
      replace (VariantA.exp r) with (VariantA.exp r - 1 + 1) at 1 by lia.
      rewrite bpow_add, bpow_1. ring. }
    assert (Hah : (F2R a <= F2R h)%R).
    { rewrite Vh. pose proof (bpow_ge_1 (VariantA.exp r - 1) ltac:(lia)). nra. }
    assert (Hhb : (F2R h <= F2R (delay - a * p))%R).
    { apply (rounds_to_ge_representable _ _ _ Rb (F2R_representable _ Nh)). lra. }
    destruct (int64_of_float64_floor h Nh ltac:(lra)) as [_ [Hh1 Hh2]].
    assert (Hlow : int64_of_float64 h <= int64_of_float64 (delay - a * p)).
    { assert (IZR (int64_of_float64 h)
              < IZR (int64_of_float64 (delay - a * p)) + 1)%R by lra.
      rewrite <- plus_IZR in H. apply lt_IZR in H. lia. }
    destruct (delay - a * p <=? 0)%float eqn:Hz; simpl fst; [| exact Hlow].
    exfalso.
    apply (leb_correct _ _ Nb nonneg_float_zero) in Hz. rewrite F2R_zero in Hz.
    lra.
Qed.

End VariantA_bounds.

(** ** Variant A: the scenario of the test, for every sample *)

Section VariantA_scenario.

Context {Rand : Type} (Float64 : Rand -> float * Rand).
Hypothesis Float64_unit : forall g, unit_sample (fst (Float64 g)) = true.
Implicit Types r : VariantA.rateLimiterWithJitter Rand.

(** [When] with a base delay of 1s and a cap of 4s, by exponent. *)
Lemma When_one_to_four r :
  VariantA.baseDelay r = 1000000000 -> VariantA.maxDelay r = 4000000000 ->
  (VariantA.exp r = 0 -> 0 <= fst (VariantA.When Float64 r) <= 1000000000)
  /\ (VariantA.exp r = 1 ->
      1000000000 <= fst (VariantA.When Float64 r) <= 2000000000)
  /\ (VariantA.exp r = 2 ->
      2000000000 <= fst (VariantA.When Float64 r) <= 4000000000)
  /\ (VariantA.exp r = 3 -> fst (VariantA.When Float64 r) = 4000000000).
Proof.
  destruct r as [e b m g]. simpl. intros -> ->.
  assert (Hb : forall n, 0 <= n <= 2 ->
            let r := VariantA.mkLimiter n 1000000000 4000000000 g in
            0 <= fst (VariantA.When Float64 r)
              <= int64_of_float64 (VariantA.delay_of r)
            /\ (1 <= n ->
                int64_of_float64
                  (float64_of_int 1000000000 * math_Pow2 (n - 1))
                <= fst (VariantA.When Float64 r))).
  { intros n Hn r.
    assert (Hc : VariantA.capped r = false).
    { assert (n = 0 \/ n = 1 \/ n = 2) as [-> | [-> | ->]] by lia;
        vm_compute; reflexivity. }
    assert (Hne : VariantA.delay_of r <> math_MaxInt64).
    { assert (n = 0 \/ n = 1 \/ n = 2) as [-> | [-> | ->]] by lia;
        vm_compute; congruence. }
    apply (When_A_bounds Float64 r); try assumption.
    - simpl. lia.
    - simpl. lia.
    - simpl. unfold max_int64. lia.
    - apply Float64_unit. }
  split; [| split; [| split]]; intros ->.
  - destruct (Hb 0 ltac:(lia)) as [H _]. exact H.
  - destruct (Hb 1 ltac:(lia)) as [[_ Hup] Hlow].
    split; [exact (Hlow ltac:(lia)) | exact Hup].
  - destruct (Hb 2 ltac:(lia)) as [[_ Hup] Hlow].
    split; [exact (Hlow ltac:(lia)) | exact Hup].
  - reflexivity.
Qed.

End VariantA_scenario.

(** ** Variant A: [When] in terms of the integer [baseDelay * 2^exp] *)

(** Below [2^53] the conversion of an integer to [float64] is exact. *)
Lemma float64_of_int_exact (n : Z) :
  0 <= n -> n < 2 ^ 53 ->
  nonneg_float (float64_of_int n) /\ F2R (float64_of_int n) = IZR n.
Proof.
  intros H0 H53.
  assert (Hmax : n <= max_int64) by (unfold max_int64; lia).
  destruct (float64_of_int_correct n H0 Hmax) as [Hn Hr].
  split; [exact Hn |].
  apply (rounds_to_representable_eq _ _ Hr). now apply representable_IZR.
Qed.

(** A [float64] that holds an integer below [2^63] converts to it. *)
Lemma int64_of_float64_IZR (f : float) (n : Z) :
  nonneg_float f -> F2R f = IZR n -> n < 2 ^ 63 -> int64_of_float64 f = n.
Proof.
  intros Hf Hv Hn.
  assert (Hlt : (F2R f < bpow 63)%R).
  { rewrite Hv, bpow_IZR by lia. now apply IZR_lt. }
  destruct (int64_of_float64_floor f Hf Hlt) as [_ [H1 H2]].
  rewrite Hv in H1, H2. apply le_IZR in H1.
  rewrite <- plus_IZR in H2. apply lt_IZR in H2. lia.
Qed.

Section VariantA_product.

Context {Rand : Type} (Float64 : Rand -> float * Rand).
Implicit Types r : VariantA.rateLimiterWithJitter Rand.

(** For a base delay below [2^53] ns and up to 64 failures, the delay that
    [When] computes is the integer [baseDelay * 2^exp]. *)
Lemma delay_of_product r :
  0 <= VariantA.exp r <= 64 ->
  0 < VariantA.baseDelay r -> VariantA.baseDelay r < 2 ^ 53 ->
  nonneg_float (VariantA.delay_of r)
  /\ F2R (VariantA.delay_of r)
     = IZR (VariantA.baseDelay r * 2 ^ VariantA.exp r).
Proof.
  intros He Hb H53.
  destruct (float64_of_int_exact (VariantA.baseDelay r) ltac:(lia) H53)
    as [Na Va].
  assert (Ha : (1 <= F2R (float64_of_int (VariantA.baseDelay r)) <= bpow 63)%R).
  { rewrite Va. split; [apply IZR_le; lia |].
    rewrite bpow_IZR by lia. apply IZR_le.
    assert (2 ^ 53 < 2 ^ 63) by (apply Z.pow_lt_mono_r; lia). lia. }
  destruct (pow2_product _ (VariantA.exp r) Na Ha He) as [Nd Vd].
  split; [exact Nd |].
  unfold VariantA.delay_of. rewrite Vd, Va, mult_IZR, bpow_IZR by lia.
  reflexivity.
Qed.

(** The guard of [When], read on the integers. *)
Lemma capped_by_product r :
  0 <= VariantA.exp r ->
  0 < VariantA.baseDelay r -> VariantA.baseDelay r < 2 ^ 53 ->
  VariantA.maxDelay r <= max_int64 ->
  VariantA.baseDelay r * 2 ^ VariantA.exp r <> 2 ^ 63 ->
  VariantA.capped r
  = (VariantA.maxDelay r <? VariantA.baseDelay r * 2 ^ VariantA.exp r).
Proof.
  intros He Hb H53 Hm HP.
  set (P := VariantA.baseDelay r * 2 ^ VariantA.exp r) in *.
  assert (Hbmax : VariantA.baseDelay r <= max_int64).
  { assert (2 ^ 53 < 2 ^ 63) by (apply Z.pow_lt_mono_r; lia).
    unfold max_int64. lia. }
  destruct (Z_le_gt_dec (VariantA.exp r) 63) as [He63 | He64].
  - destruct (delay_of_product r ltac:(lia) Hb H53) as [Nd Vd]. fold P in Vd.
    destruct math_MaxInt64_value as [NM VM].
    unfold VariantA.capped.
    destruct (Z_lt_le_dec (2 ^ 63) P) as [Hbig | Hsmall].
    + assert (Hlt : (math_MaxInt64 <? VariantA.delay_of r)%float = true).
      { apply (ltb_correct _ _ NM Nd). rewrite VM, Vd, bpow_IZR by lia.
        now apply IZR_lt. }
      rewrite Hlt. symmetry. apply Z.ltb_lt. unfold max_int64 in Hm. lia.
    + assert (Hlt : (math_MaxInt64 <? VariantA.delay_of r)%float = false).
      { destruct (math_MaxInt64 <? VariantA.delay_of r)%float eqn:E;
          [| reflexivity].
        apply (ltb_correct _ _ NM Nd) in E.
        rewrite VM, Vd, bpow_IZR in E by lia. apply lt_IZR in E. lia. }
      rewrite Hlt, (int64_of_float64_IZR _ P Nd Vd) by lia. reflexivity.
  - assert (Hc : VariantA.capped r = true).
    { destruct (VariantA.capped r) eqn:E; [reflexivity |].
      pose proof (uncapped_exp r He Hb Hbmax E). lia. }
    rewrite Hc. symmetry. apply Z.ltb_lt.
    assert (2 ^ 64 <= 2 ^ VariantA.exp r) by (apply Z.pow_le_mono_r; lia).
    unfold P, max_int64 in *. nia.
Qed.

(** Above the cap the result of [When] is the cap; up to the cap it is at
    most [P = baseDelay * 2^exp]. *)
Lemma When_A_product_upper r :
  0 <= VariantA.exp r ->
  0 < VariantA.baseDelay r -> VariantA.baseDelay r < 2 ^ 53 ->
  VariantA.maxDelay r <= max_int64 ->
  VariantA.baseDelay r * 2 ^ VariantA.exp r <> 2 ^ 63 ->
  (VariantA.maxDelay r < VariantA.baseDelay r * 2 ^ VariantA.exp r ->
   VariantA.When Float64 r = (VariantA.maxDelay r, r))
  /\ (VariantA.baseDelay r * 2 ^ VariantA.exp r <= VariantA.maxDelay r ->
      unit_sample (fst (Float64 (VariantA.rd r))) = true ->
      0 <= fst (VariantA.When Float64 r)
        <= VariantA.baseDelay r * 2 ^ VariantA.exp r).
Proof.
  intros He Hb H53 Hm HP.
  pose proof (capped_by_product r He Hb H53 Hm HP) as Hc.
  set (P := VariantA.baseDelay r * 2 ^ VariantA.exp r) in *.
  assert (Hbmax : VariantA.baseDelay r <= max_int64).
  { assert (2 ^ 53 < 2 ^ 63) by (apply Z.pow_lt_mono_r; lia).
    unfold max_int64. lia. }
  split.
  - intros Hlt. unfold VariantA.When.
    rewrite Hc, (proj2 (Z.ltb_lt _ _) Hlt). reflexivity.
  - intros Hle Hp.
    rewrite (proj2 (Z.ltb_ge _ _) Hle) in Hc.
    pose proof (uncapped_exp r He Hb Hbmax Hc) as He63.
    destruct (delay_of_product r ltac:(lia) Hb H53) as [Nd Vd]. fold P in Vd.
    assert (HP63 : P < 2 ^ 63) by (unfold max_int64 in Hm; lia).
    assert (Hne : VariantA.delay_of r <> math_MaxInt64).
    { intros E. destruct math_MaxInt64_value as [_ VM].
      rewrite E, VM, bpow_IZR in Vd by lia. apply eq_IZR in Vd. lia. }
    destruct (When_A_bounds Float64 r He Hb Hbmax Hc Hne Hp) as [Hup _].
    now rewrite (int64_of_float64_IZR _ P Nd Vd HP63) in Hup.
Qed.

(** [When] for a base delay below [2^53] ns, where [P = baseDelay * 2^exp]
    is not [2^63]: above the cap the result is the cap, and no sample is
    drawn; up to the cap the result is at most [P], and from one failure on
    at least [P/2]. *)
Theorem When_A_product_cases r :
  0 <= VariantA.exp r ->
  0 < VariantA.baseDelay r -> VariantA.baseDelay r < 2 ^ 53 ->
  VariantA.maxDelay r <= max_int64 ->
  VariantA.baseDelay r * 2 ^ VariantA.exp r <> 2 ^ 63 ->
  (VariantA.maxDelay r < VariantA.baseDelay r * 2 ^ VariantA.exp r ->
   VariantA.When Float64 r = (VariantA.maxDelay r, r))
  /\ (VariantA.baseDelay r * 2 ^ VariantA.exp r <= VariantA.maxDelay r ->
      unit_sample (fst (Float64 (VariantA.rd r))) = true ->
      0 <= fst (VariantA.When Float64 r)
        <= VariantA.baseDelay r * 2 ^ VariantA.exp r
      /\ (1 <= VariantA.exp r ->
          VariantA.baseDelay r * 2 ^ (VariantA.exp r - 1)
          <= fst (VariantA.When Float64 r))).
Proof.
  intros He Hb H53 Hm HP.
  destruct (When_A_product_upper r He Hb H53 Hm HP) as [Hcap Hup].
  split; [exact Hcap |]. intros Hle Hp. split; [now apply Hup |].
  intros He1.
  (* the guard lets the delay pass, and the delay is the integer P *)
  pose proof (capped_by_product r He Hb H53 Hm HP) as Hc.
  rewrite (proj2 (Z.ltb_ge _ _) Hle) in Hc.
  assert (Hbmax : VariantA.baseDelay r <= max_int64).
  { assert (2 ^ 53 < 2 ^ 63) by (apply Z.pow_lt_mono_r; lia).
    unfold max_int64. lia. }
  pose proof (uncapped_exp r He Hb Hbmax Hc) as He63.
  destruct (delay_of_product r ltac:(lia) Hb H53) as [Nd Vd].
  assert (HP63 : VariantA.baseDelay r * 2 ^ VariantA.exp r < 2 ^ 63)
    by (unfold max_int64 in Hm; lia).
  assert (Hne : VariantA.delay_of r <> math_MaxInt64).
  { intros E. destruct math_MaxInt64_value as [_ VM].
    rewrite E, VM, bpow_IZR in Vd by lia. apply eq_IZR in Vd. lia. }
  destruct (When_A_bounds Float64 r He Hb Hbmax Hc Hne Hp) as [_ Hlow].
  specialize (Hlow He1).
  (* the delay of one failure less is the integer P/2 *)
  set (r1 := VariantA.mkLimiter (VariantA.exp r - 1) (VariantA.baseDelay r)
               (VariantA.maxDelay r) (VariantA.rd r)).
  destruct (delay_of_product r1 ltac:(simpl; lia) Hb H53) as [Nh Vh].
  unfold VariantA.delay_of in Nh, Vh. simpl in Nh, Vh.
  assert (Hh : VariantA.baseDelay r * 2 ^ (VariantA.exp r - 1) < 2 ^ 63).
  { assert (2 ^ (VariantA.exp r - 1) <= 2 ^ VariantA.exp r)
      by (apply Z.pow_le_mono_r; lia).
    nia. }
  now rewrite (int64_of_float64_IZR _ _ Nh Vh Hh) in Hlow.
Qed.

End VariantA_product.

(** ** Variant A: [When], case by case *)

Section VariantA_cases.

Context {Rand : Type} (Float64 : Rand -> float * Rand).
Implicit Types r : VariantA.rateLimiterWithJitter Rand.

(** The delay of [When], for a base delay below [2^53] ns and a product
    [baseDelay * 2^exp] that fits a duration, is that product, converted. *)
Lemma delay_of_is_product r :
  0 <= VariantA.exp r ->
  0 < VariantA.baseDelay r -> VariantA.baseDelay r < 2 ^ 53 ->
  VariantA.baseDelay r * 2 ^ VariantA.exp r <= max_int64 ->
  VariantA.delay_of r
  = float64_of_int (VariantA.baseDelay r * 2 ^ VariantA.exp r).
Proof.
  intros He Hb H53 HP.
  set (P := VariantA.baseDelay r * 2 ^ VariantA.exp r) in *.
  assert (He64 : VariantA.exp r <= 64).
  { destruct (Z_le_gt_dec (VariantA.exp r) 64) as [H | H]; [exact H |].
    assert (2 ^ 64 <= 2 ^ VariantA.exp r) by (apply Z.pow_le_mono_r; lia).
    unfold P, max_int64 in HP. nia. }
  destruct (delay_of_product r ltac:(lia) Hb H53) as [Nd Vd]. fold P in Vd.
  assert (HP0 : 0 < P).
  { unfold P. apply Z.mul_pos_pos; [exact Hb |]. apply Z.pow_pos_nonneg; lia. }
  destruct (float64_of_int_correct P ltac:(lia) HP) as [Nf Rf].
  assert (Vf : F2R (float64_of_int P) = IZR P).
  { apply (rounds_to_representable_eq _ _ Rf).
    rewrite <- Vd. now apply F2R_representable. }
  apply F2R_inj; try assumption.
  - rewrite Vd. now apply IZR_lt.
  - now rewrite Vd, Vf.
Qed.

(** Past the guard, and for a sample of [[0,1)], the difference
    [delay - jitter] is a number of [[0, delay]], below [2^63]. *)
Lemma backoff_value r :
  0 <= VariantA.exp r -> 0 < VariantA.baseDelay r ->
  VariantA.baseDelay r <= max_int64 ->
  VariantA.capped r = false ->
  VariantA.delay_of r <> math_MaxInt64 ->
  unit_sample (fst (Float64 (VariantA.rd r))) = true ->
  let backoff :=
    (VariantA.delay_of r
     - float64_of_int (VariantA.baseDelay r) * fst (Float64 (VariantA.rd r)))%float in
  nonneg_float backoff /\ (F2R backoff < bpow 63)%R.
Proof.
  intros He Hb Hbmax Hc Hne Hp backoff. unfold backoff. clear backoff.
  destruct (uncapped_delay r He Hb Hbmax Hc) as [Nd [Had Hd63]].
  destruct (float64_of_int_bounds (VariantA.baseDelay r) ltac:(lia) Hbmax)
    as [Na [Ha1 Ha63]].
  destruct math_MaxInt64_value as [NM VM].
  set (a := float64_of_int (VariantA.baseDelay r)) in *.
  set (delay := VariantA.delay_of r) in *.
  assert (Hd : (F2R delay < bpow 63)%R).
  { destruct (Rlt_le_dec (F2R delay) (bpow 63)) as [Hlt | Hge]; [exact Hlt |].
    exfalso. apply Hne. apply F2R_inj; try assumption; lra. }
  set (p := fst (Float64 (VariantA.rd r))) in *.
  destruct (unit_sample_values p Hp) as [Np [Hp0 Hp1]].
  pose proof bpow_63_lt as B63. pose proof (bpow_pos (-53)) as P53.
  destruct (mul_correct a p Na Np) as [Nj Rj]; [nra |].
  destruct (jitter_below (F2R a) (F2R a * F2R p) (F2R (a * p))
              (F2R_representable a Na) Ha1) as (rr & Hr & Hjr & Hra);
    [split; nra | exact Rj |].
  destruct (sub_correct delay (a * p) Nd Nj) as [Nb Rb]; [lra | lra |].
  pose proof (F2R_nonneg _ Nj) as Hj0.
  split; [exact Nb |].
  apply Rle_lt_trans with (F2R delay); [| exact Hd].
  apply (rounds_to_le_representable _ _ _ Rb (F2R_representable _ Nd)). lra.
Qed.

End VariantA_cases.

(** C2 (amended): for a base delay below [2^53] ns, [When] computes
    [delay = baseDelay * 2^exp], the integer [P], without rounding.  The
    case [P = 2^63] is left out.  When [P] is above [maxDelay] (a [P] past
    the range of a duration included) the result is [maxDelay] itself and
    the state is as before: no sample is drawn and no jitter is subtracted.
    Otherwise one sample [percentage] is drawn,
    [jitter = float64(baseDelay) * percentage], [backoff = float64(P) - jitter],
    and the result is zero when [backoff <= 0] and [int64(backoff)]
    otherwise, which for a sample of [[0,1)] is the integer part of
    [backoff]. *)
Theorem When_by_cases {Rand : Type} (Float64 : Rand -> float * Rand)
    (r : VariantA.rateLimiterWithJitter Rand) :
  0 <= VariantA.exp r ->
  0 < VariantA.baseDelay r -> VariantA.baseDelay r < 2 ^ 53 ->
  VariantA.maxDelay r <= max_int64 ->
  VariantA.baseDelay r * 2 ^ VariantA.exp r <> 2 ^ 63 ->
  (VariantA.maxDelay r < VariantA.baseDelay r * 2 ^ VariantA.exp r ->
   VariantA.When Float64 r = (VariantA.maxDelay r, r))
  /\ (VariantA.baseDelay r * 2 ^ VariantA.exp r <= VariantA.maxDelay r ->
      let percentage := fst (Float64 (VariantA.rd r)) in
      let jitter := (float64_of_int (VariantA.baseDelay r) * percentage)%float in
      let backoff :=
        (float64_of_int (VariantA.baseDelay r * 2 ^ VariantA.exp r)
         - jitter)%float in
      VariantA.When Float64 r =
        (if (backoff <=? 0)%float then 0 else int64_of_float64 backoff,
         VariantA.mkLimiter (VariantA.exp r) (VariantA.baseDelay r)
           (VariantA.maxDelay r) (snd (Float64 (VariantA.rd r))))
      /\ (unit_sample percentage = true ->
          0 <= int64_of_float64 backoff
          /\ (IZR (int64_of_float64 backoff) <= F2R backoff
              < IZR (int64_of_float64 backoff) + 1)%R)).
Proof.
  intros He Hb H53 Hm HP.
  (* the guard, read on the integers *)
  pose proof (capped_by_product r He Hb H53 Hm HP) as Hc.
  destruct (When_of_guard Float64 r) as [Hcap Hjit].
  split.
  - intros Hlt. apply Hcap. rewrite Hc. now apply Z.ltb_lt.
  - intros Hle percentage jitter backoff.
    rewrite (proj2 (Z.ltb_ge _ _) Hle) in Hc.
    (* the delay is the product, converted without rounding *)
    pose proof (delay_of_is_product r He Hb H53 ltac:(lia)) as Hd.
    split.
    + rewrite (Hjit Hc). cbv zeta. rewrite Hd. reflexivity.
    + intros Hp.
      assert (Hbmax : VariantA.baseDelay r <= max_int64).
      { assert (2 ^ 53 < 2 ^ 63) by (apply Z.pow_lt_mono_r; lia).
        unfold max_int64. lia. }
      assert (Hne : VariantA.delay_of r <> math_MaxInt64).
      { intros E.
        destruct (delay_of_product r
                    ltac:(pose proof (uncapped_exp r He Hb Hbmax Hc); lia) Hb H53)
          as [_ Vd].
        destruct math_MaxInt64_value as [_ VM].
        rewrite E, VM, bpow_IZR in Vd by lia. apply eq_IZR in Vd. lia. }
      destruct (backoff_value Float64 r He Hb Hbmax Hc Hne Hp) as [Nb Hb63].
      rewrite Hd in Nb, Hb63. fold percentage jitter backoff in Nb, Hb63.
      destruct (int64_of_float64_floor backoff Nb Hb63) as [[H0 _] Hfl].
      split; assumption.
Qed.

Lemma When_by_cases_witness :
  VariantA.When constant_source
    (VariantA.mkLimiter 3 1000000000 4000000000 (1 / 2)%float)
  = (4000000000, VariantA.mkLimiter 3 1000000000 4000000000 (1 / 2)%float)
  /\ VariantA.When constant_source
       (VariantA.mkLimiter 3 1000000000 10000000000 (1 / 2)%float)
     = (7500000000, VariantA.mkLimiter 3 1000000000 10000000000 (1 / 2)%float).
Proof.
  split.
  - apply (proj1 (When_by_cases constant_source
             (VariantA.mkLimiter 3 1000000000 4000000000 (1 / 2)%float)
             ltac:(vm_compute; congruence) ltac:(vm_compute; congruence)
             ltac:(vm_compute; congruence) ltac:(vm_compute; congruence)
             ltac:(vm_compute; congruence))).
    vm_compute. reflexivity.
  - rewrite (proj1 (proj2 (When_by_cases constant_source
             (VariantA.mkLimiter 3 1000000000 10000000000 (1 / 2)%float)
             ltac:(vm_compute; congruence) ltac:(vm_compute; congruence)
             ltac:(vm_compute; congruence) ltac:(vm_compute; congruence)
             ltac:(vm_compute; congruence))
             ltac:(vm_compute; congruence))).
    vm_compute. reflexivity.
Defined.

(** ** The test of Variant A *)

Section VariantA_test.

Context {Rand : Type} (Float64 : Rand -> float * Rand).
Hypothesis Float64_unit : forall g, unit_sample (fst (Float64 g)) = true.

(** [When] replaces the random source and nothing else. *)
Lemma When_A_shape (r : VariantA.rateLimiterWithJitter Rand) :
  exists g,
    snd (VariantA.When Float64 r)
    = VariantA.mkLimiter (VariantA.exp r) (VariantA.baseDelay r)
        (VariantA.maxDelay r) g.
Proof.
  unfold VariantA.When. destruct (VariantA.capped r).
  - exists (VariantA.rd r). now destruct r.
  - destruct (Float64 (VariantA.rd r)) as [p g]. exists g.
    now destruct (_ <=? _)%float.
Qed.

Lemma When_A_at (n : Z) (g : Rand) :
  exists w g',
    VariantA.When Float64 (VariantA.mkLimiter n 1000000000 4000000000 g)
    = (w, VariantA.mkLimiter n 1000000000 4000000000 g')
    /\ (n = 0 -> 0 <= w <= 1000000000)
    /\ (n = 1 -> 1000000000 <= w <= 2000000000)
    /\ (n = 2 -> 2000000000 <= w <= 4000000000)
    /\ (n = 3 -> w = 4000000000).
Proof.
  set (r := VariantA.mkLimiter n 1000000000 4000000000 g).
  destruct (When_A_shape r) as [g' Hs].
  pose proof (When_one_to_four Float64 Float64_unit r eq_refl eq_refl) as Hb.
  destruct (VariantA.When Float64 r) as [w r']. simpl in Hs, Hb. subst r'.
  exists w, g'. split; [reflexivity | exact Hb].
Qed.

(** The test of Variant A, for every source of samples of [[0,1)]: its
    first seven checks pass, and the last two fail, because [Success] after
    three failures leaves the exponent at 2 (the test expects 0) and the
    next delay is then at least 2s (the test expects at most 1s). *)
Lemma VariantA_test_checks (seed : Rand) :
  VariantATest.TestRateLimiter Float64 seed
  = [true; true; true; true; true; true; true; false; false].
Proof.
  unfold VariantATest.TestRateLimiter,
    VariantA.newItemExponentialFailureRateLimiterWithJitter.
  change (4 * Time.Second) with 4000000000.
  change (2 * Time.Second) with 2000000000.
  change Time.Second with 1000000000.
  destruct (When_A_at 0 seed) as (w0 & g0 & E0 & B0 & _).
  rewrite E0. specialize (B0 eq_refl).
  change (VariantA.Failure (VariantA.mkLimiter 0 1000000000 4000000000 g0))
    with (VariantA.mkLimiter 1 1000000000 4000000000 g0).
  cbv beta iota zeta delta [VariantA.Exp].
  cbn [VariantA.exp].
  destruct (When_A_at 1 g0) as (w1 & g1 & E1 & _ & B1 & _).
  rewrite E1. specialize (B1 eq_refl).
  change (VariantA.Failure (VariantA.mkLimiter 1 1000000000 4000000000 g1))
    with (VariantA.mkLimiter 2 1000000000 4000000000 g1).
  cbn [VariantA.exp].
  destruct (When_A_at 2 g1) as (w2 & g2 & E2 & _ & _ & B2 & _).
  rewrite E2. specialize (B2 eq_refl).
  change (VariantA.Failure (VariantA.mkLimiter 2 1000000000 4000000000 g2))
    with (VariantA.mkLimiter 3 1000000000 4000000000 g2).
  cbn [VariantA.exp].
  destruct (When_A_at 3 g2) as (w3 & g3 & E3 & _ & _ & _ & B3).
  rewrite E3. specialize (B3 eq_refl).
  change (VariantA.Success (VariantA.mkLimiter 3 1000000000 4000000000 g3))
    with (VariantA.mkLimiter 2 1000000000 4000000000 g3).
  cbn [VariantA.exp].
  destruct (When_A_at 2 g3) as (w4 & g4 & E4 & _ & _ & B4 & _).
  rewrite E4. specialize (B4 eq_refl).
  cbv beta iota zeta.
  assert (H1 : (1000000000 <? w0) = false) by (apply Z.ltb_ge; lia).
  assert (H3 : (w1 <? 1000000000) = false) by (apply Z.ltb_ge; lia).
  assert (H3' : (2000000000 <? w1) = false) by (apply Z.ltb_ge; lia).
  assert (H5 : (w2 <? 2000000000) = false) by (apply Z.ltb_ge; lia).
  assert (H5' : (4000000000 <? w2) = false) by (apply Z.ltb_ge; lia).
  assert (H9 : (1000000000 <? w4) = true) by (apply Z.ltb_lt; lia).
  rewrite H1, H3, H3', H5, H5', H9, B3. reflexivity.
Qed.

End VariantA_test.

(** ** The test of Variant B *)

Section VariantB_test.

Context {Rand : Type} (Float64 : Rand -> float * Rand).
Hypothesis Float64_unit : forall g, unit_sample (fst (Float64 g)) = true.
Context {L Item : Type} {RL : RateLimiter L Item}.
Implicit Types r : VariantB.rateLimiterWithJitter Rand L.

(** Every check of a loop of the test passes, and the loop moves the
    average as its reports alone do. *)
Lemma rounds_checks (n : nat) (success : bool) (item : Item) : forall r,
  0 < VariantB.baseDelay r -> VariantB.baseDelay r <= max_int64 ->
  0 <= VariantB.maxDelay r -> VariantB.maxDelay r <= max_int64 ->
  fst (VariantBTest.rounds Float64 n success (VariantB.maxDelay r) item r)
  = repeat true n
  /\ VariantB.average
       (snd (VariantBTest.rounds Float64 n success (VariantB.maxDelay r) item r))
     = VariantB.average (VariantB.report_all (repeat success n) r).
Proof.
  induction n as [| n IH]; intros r Hb Hbmax Hm Hmmax; [now split |].
  cbn [VariantBTest.rounds repeat].
  pose proof (When_B_in_range Float64 item r Hb Hbmax Hm Hmmax (Float64_unit _))
    as Hw.
  pose proof (When_keeps_average Float64 item r) as Ha.
  destruct (VariantB.When Float64 item r) as [backoff r1].
  cbn [fst snd] in Hw, Ha.
  cbn [VariantB.ScaleFactor].
  set (r2 := VariantB.Success success (VariantB.Forget item r1)).
  assert (Ha2 : VariantB.average r2
                = VariantB.average (VariantB.Success success r)).
  { unfold r2. apply Success_average. rewrite <- Ha. reflexivity. }
  assert (Hf : VariantB.baseDelay r2 = VariantB.baseDelay r
               /\ VariantB.maxDelay r2 = VariantB.maxDelay r).
  { split.
    - exact (f_equal (fun t => fst (fst (fst (fst t)))) Ha2).
    - exact (f_equal (fun t => snd (fst (fst (fst t)))) Ha2). }
  destruct Hf as [Hfb Hfm].
  specialize (IH r2 ltac:(lia) ltac:(lia) ltac:(lia) ltac:(lia)).
  rewrite Hfm in IH.
  destruct (VariantBTest.rounds Float64 n success (VariantB.maxDelay r) item r2)
    as [checks r3].
  cbn [fst snd] in IH |- *. destruct IH as [-> IH]. split.
  - rewrite (proj2 (Z.ltb_ge _ _)) by lia. reflexivity.
  - rewrite IH. simpl VariantB.report_all.
    now apply report_all_average.
Qed.

(** The test of Variant B passes, for every source of samples of [[0,1)]
    and every embedded limiter: none of the 200 delays is above [maxDelay],
    the scale factor is at least 9.9 after the first loop and at most 1.1
    after the second. *)
Lemma VariantB_test_checks (inner0 : L) (item : Item) (seed : Rand) :
  VariantBTest.TestRateLimiter Float64 inner0 item seed = repeat true 202.
Proof.
  unfold VariantBTest.TestRateLimiter.
  change (VariantBTest.factorMaxDelay * Time.Second) with 10000000000.
  change Time.Second with 1000000000.
  set (r0 := VariantB.newItemExponentialFailureRateLimiterWithJitter
               inner0 1000000000 10000000000 (5 / 100)%float seed).
  destruct (rounds_checks 100 false item r0) as [H1 A1];
    try (simpl; unfold max_int64; lia).
  change (VariantB.maxDelay r0) with 10000000000 in H1, A1.
  destruct (VariantBTest.rounds Float64 100 false 10000000000 item r0)
    as [checks1 r1].
  cbn [fst snd] in H1, A1. subst checks1.
  cbn [VariantB.ScaleFactor].
  assert (Hb1 : VariantB.baseDelay r1 = 1000000000)
    by exact (f_equal (fun t => fst (fst (fst (fst t)))) A1).
  assert (Hm1 : VariantB.maxDelay r1 = 10000000000)
    by exact (f_equal (fun t => snd (fst (fst (fst t)))) A1).
  destruct (rounds_checks 100 true item r1) as [H2 A2];
    try (rewrite ?Hb1, ?Hm1; unfold max_int64; lia).
  rewrite Hm1 in H2, A2.
  destruct (VariantBTest.rounds Float64 100 true 10000000000 item r1)
    as [checks2 r2].
  cbn [fst snd] in H2, A2. subst checks2.
  rewrite (scaleFactor_of_average _ _ A1).
  rewrite (scaleFactor_of_average _ _ A2).
  rewrite (scaleFactor_of_average _ _
             (report_all_average (repeat true 100) _ _ A1)).
  vm_compute. reflexivity.
Qed.

End VariantB_test.

(** ** Variant A: failures and successes of a run *)

Section VariantA_counts.

Context {Rand : Type} (Float64 : Rand -> float * Rand).
Implicit Types r : VariantA.rateLimiterWithJitter Rand.

Lemma successes_cons c cs :
  VariantACalls.successes (c :: cs)
  = (if VariantACalls.is_success c then 1 else 0) + VariantACalls.successes cs.
Proof.
  unfold VariantACalls.successes. simpl.
  destruct (VariantACalls.is_success c); simpl length; lia.
Qed.

Lemma successes_nonneg cs : 0 <= VariantACalls.successes cs.
Proof. unfold VariantACalls.successes. lia. Qed.

(** Along a run the exponent is at least its start plus the failures minus
    the successes: a success removes at most one. *)
Lemma run_exp_lower cs : forall r,
  0 <= VariantA.exp r ->
  VariantA.exp r + VariantA.failures cs <= max_int64 ->
  VariantA.exp r + VariantA.failures cs - VariantACalls.successes cs
  <= VariantA.exp (VariantA.run Float64 cs r).
Proof.
  induction cs as [| c cs IH]; intros r H0 Hle.
  - simpl. unfold VariantA.failures, VariantACalls.successes. simpl. lia.
  - rewrite failures_cons in Hle |- *. rewrite successes_cons.
    pose proof (failures_nonneg cs) as Hf.
    pose proof (successes_nonneg cs) as Hs.
    assert (Hin : in_int64 (VariantA.exp r)).
    { unfold in_int64, min_int64, max_int64 in *.
      destruct (VariantA.is_failure c); lia. }
    change (VariantA.run Float64 (c :: cs) r)
      with (VariantA.run Float64 cs (VariantA.step Float64 r c)).
    destruct c; simpl VariantA.is_failure in *;
      simpl VariantACalls.is_success; cbv iota in *.
    + destruct (When_keeps_fields Float64 r) as [He _].
      specialize (IH (VariantA.step Float64 r VariantA.CallWhen)).
      simpl VariantA.step in *. rewrite He in IH.
      specialize (IH ltac:(lia) ltac:(lia)). lia.
    + specialize (IH (VariantA.Failure r)). simpl VariantA.step.
      rewrite Failure_below_max in IH by (assumption || lia).
      specialize (IH ltac:(lia) ltac:(lia)). lia.
    + specialize (IH (VariantA.Success r)). simpl VariantA.step.
      rewrite Success_exp in IH by assumption.
      destruct (Z.ltb_spec 0 (VariantA.exp r));
        specialize (IH ltac:(lia) ltac:(lia)); lia.
    + simpl VariantA.step. specialize (IH r ltac:(lia) ltac:(lia)). lia.
Qed.

Lemma Success_Failure r :
  0 <= VariantA.exp r -> VariantA.exp r < max_int64 ->
  VariantA.Success (VariantA.Failure r) = r.
Proof.
  intros H0 Hlt. destruct r as [e b m g]. simpl in H0, Hlt.
  unfold VariantA.Failure, VariantA.Success. simpl.
  assert (E : wrap64 (e + 1) = e + 1).
  { apply wrap64_in_range. unfold in_int64, min_int64, max_int64 in *. lia. }
  rewrite E. rewrite (proj2 (Z.ltb_lt 0 (e + 1))) by lia.
  replace (e + 1 - 1) with e by lia.
  rewrite wrap64_in_range; [reflexivity |].
  unfold in_int64, min_int64, max_int64 in *. lia.
Qed.

Lemma Failure_Success r :
  0 < VariantA.exp r -> VariantA.exp r <= max_int64 ->
  VariantA.Failure (VariantA.Success r) = r.
Proof.
  intros H0 Hle. destruct r as [e b m g]. simpl in H0, Hle.
  unfold VariantA.Failure, VariantA.Success. simpl.
  rewrite (proj2 (Z.ltb_lt 0 e)) by lia. simpl.
  assert (E : wrap64 (e - 1) = e - 1).
  { apply wrap64_in_range. unfold in_int64, min_int64, max_int64 in *. lia. }
  rewrite E. replace (e - 1 + 1) with e by lia.
  rewrite wrap64_in_range; [reflexivity |].
  unfold in_int64, min_int64, max_int64 in *. lia.
Qed.

Lemma run_app cs1 cs2 r :
  VariantA.run Float64 (cs1 ++ cs2) r
  = VariantA.run Float64 cs2 (VariantA.run Float64 cs1 r).
Proof. unfold VariantA.run. apply fold_left_app. Qed.

Lemma run_failures (n : nat) : forall r,
  0 <= VariantA.exp r -> VariantA.exp r + Z.of_nat n <= max_int64 ->
  VariantA.run Float64 (repeat VariantA.CallFailure n) r
  = VariantA.mkLimiter (VariantA.exp r + Z.of_nat n) (VariantA.baseDelay r)
      (VariantA.maxDelay r) (VariantA.rd r).
Proof.
  induction n as [| n IH]; intros r H0 Hle.
  - simpl. destruct r. simpl. f_equal. lia.
  - cbn [repeat].
    change (VariantA.run Float64 (VariantA.CallFailure :: repeat VariantA.CallFailure n) r)
      with (VariantA.run Float64 (repeat VariantA.CallFailure n) (VariantA.Failure r)).
    assert (E : VariantA.exp (VariantA.Failure r) = VariantA.exp r + 1).
    { apply Failure_below_max; [| lia].
      unfold in_int64, min_int64, max_int64 in *. lia. }
    rewrite IH by (rewrite E; lia). rewrite E. simpl. f_equal. lia.
Qed.

Lemma run_successes (n : nat) : forall r,
  Z.of_nat n <= VariantA.exp r -> VariantA.exp r <= max_int64 ->
  VariantA.run Float64 (repeat VariantA.CallSuccess n) r
  = VariantA.mkLimiter (VariantA.exp r - Z.of_nat n) (VariantA.baseDelay r)
      (VariantA.maxDelay r) (VariantA.rd r).
Proof.
  induction n as [| n IH]; intros r H0 Hle.
  - simpl. destruct r. simpl. f_equal. lia.
  - cbn [repeat].
    change (VariantA.run Float64 (VariantA.CallSuccess :: repeat VariantA.CallSuccess n) r)
      with (VariantA.run Float64 (repeat VariantA.CallSuccess n) (VariantA.Success r)).
    assert (Hin : in_int64 (VariantA.exp r))
      by (unfold in_int64, min_int64, max_int64 in *; lia).
    pose proof (Success_exp r Hin) as E.
    rewrite (proj2 (Z.ltb_lt 0 (VariantA.exp r))) in E by lia.
    assert (F : VariantA.baseDelay (VariantA.Success r) = VariantA.baseDelay r
                /\ VariantA.maxDelay (VariantA.Success r) = VariantA.maxDelay r
                /\ VariantA.rd (VariantA.Success r) = VariantA.rd r).
    { unfold VariantA.Success. destruct (0 <? VariantA.exp r); now simpl. }
    destruct F as (F1 & F2 & F3).
    rewrite IH by (rewrite E; lia). rewrite E, F1, F2, F3. f_equal. lia.
Qed.

End VariantA_counts.

(** ** Variant B: how far the jitter and the scale factor move the delay *)

Section VariantB_bounds.

Context {Rand : Type} (Float64 : Rand -> float * Rand).
Context {L Item : Type} {RL : RateLimiter L Item}.
Implicit Types r : VariantB.rateLimiterWithJitter Rand L.

(** A scale factor of at least one does not shorten a baseline below
    [2^53] ns. *)
Lemma scaled_baseline (baseline : Z) (s : float) :
  0 <= baseline -> baseline < 2 ^ 53 ->
  nonneg_float s -> (1 <= F2R s)%R ->
  (float64_of_int baseline * s <? math_MaxInt64)%float = true ->
  baseline <= int64_of_float64 (float64_of_int baseline * s) <= max_int64.
Proof.
  intros H0 H53 Ns Hs Hno.
  destruct (float64_of_int_exact baseline H0 H53) as [Nb Vb].
  set (x := (float64_of_int baseline * s)%float) in *.
  destruct math_MaxInt64_value as [NM VM].
  destruct (mul_total _ _ Nb Ns) as [[Nx Rx] | [Hinf _]].
  - fold x in Nx, Rx.
    apply (ltb_correct _ _ Nx NM) in Hno. rewrite VM in Hno.
    destruct (int64_of_float64_floor x Nx Hno) as [[_ Hmax] [Hf1 Hf2]].
    split; [| exact Hmax].
    assert (Hge : (IZR baseline <= F2R x)%R).
    { apply (rounds_to_ge_representable _ _ _ Rx).
      - rewrite <- Vb. now apply F2R_representable.
      - rewrite Vb. assert (0 <= IZR baseline)%R by (apply IZR_le; lia). nra. }
    assert (IZR baseline < IZR (int64_of_float64 x) + 1)%R by lra.
    rewrite <- plus_IZR in H. apply lt_IZR in H. lia.
  - fold x in Hinf. rewrite ltb_spec, Hinf, Prim2SF_math_MaxInt64 in Hno.
    discriminate Hno.
Qed.

Lemma scaled_by_one (baseline : Z) :
  0 <= baseline -> baseline < 2 ^ 53 ->
  int64_of_float64 (float64_of_int baseline * 1) = baseline.
Proof.
  intros H0 H53.
  destruct (float64_of_int_exact baseline H0 H53) as [Nb Vb].
  assert (Hlt : (IZR baseline < bpow 1023)%R).
  { apply Rlt_trans with (bpow 53); [| apply bpow_lt; lia].
    rewrite bpow_IZR by lia. now apply IZR_lt. }
  destruct (mul_correct _ 1 Nb nonneg_float_one) as [Nx Rx].
  { rewrite F2R_one, Vb. lra. }
  rewrite F2R_one, Rmult_1_r in Rx.
  pose proof (rounds_to_representable_eq _ _ Rx (F2R_representable _ Nb)) as Vx.
  apply int64_of_float64_IZR; [exact Nx | now rewrite Vx |].
  assert (2 ^ 53 < 2 ^ 63) by (apply Z.pow_lt_mono_r; lia). lia.
Qed.

(** The delay of [When] is less than [baseDelay] below the cap or the
    baseline, whichever is smaller; and with the scale factor 1 of a limiter
    that has seen no failure it is the capped baseline minus the jitter, or
    zero. *)
Lemma When_B_bounds item r :
  VariantB.valid_config r -> VariantB.average_in_range r = true ->
  0 <= fst (rl_When (VariantB.inner r) item) ->
  fst (rl_When (VariantB.inner r) item) < 2 ^ 53 ->
  unit_sample (fst (Float64 (VariantB.rd r))) = true ->
  (float64_of_int (fst (rl_When (VariantB.inner r) item))
   * VariantB.scaleFactor r <? math_MaxInt64)%float = true ->
  Z.min (VariantB.maxDelay r) (fst (rl_When (VariantB.inner r) item))
    - VariantB.baseDelay r
  < fst (VariantB.When Float64 item r)
  /\ (VariantB.scaleFactor r = 1%float ->
      fst (VariantB.When Float64 item r)
      = Z.max 0
          (Z.min (VariantB.maxDelay r) (fst (rl_When (VariantB.inner r) item))
           - int64_of_float64
               (float64_of_int (VariantB.baseDelay r)
                * fst (Float64 (VariantB.rd r))))).
Proof.
  intros Hc Hr Hb0 Hb53 Hp Hno.
  pose proof Hc as (Hb & Hbm & Hm & _).
  apply (average_in_range_values r Hc) in Hr.
  destruct Hr as (_ & _ & Ns & [Hs1 _]).
  unfold VariantB.When.
  destruct (rl_When (VariantB.inner r) item) as [baseline inner'].
  destruct (Float64 (VariantB.rd r)) as [p g].
  cbn [fst snd] in Hp, Hb0, Hb53, Hno |- *.
  destruct (jitter_value _ p Hb ltac:(lia) Hp) as [[Hj0 Hjb] _].
  set (j := int64_of_float64 (float64_of_int (VariantB.baseDelay r) * p)) in *.
  pose proof (scaled_baseline baseline _ Hb0 Hb53 Ns Hs1 Hno) as [Hd0 Hdmax].
  split.
  - set (d0 := int64_of_float64
                 (float64_of_int baseline * VariantB.scaleFactor r)) in *.
    destruct (Z.ltb_spec (VariantB.maxDelay r) d0) as [H1 | H1];
      match goal with |- context [?a <? j] =>
        destruct (Z.ltb_spec a j) as [H2 | H2] end;
      cbn [fst]; try lia;
      (rewrite wrap64_in_range;
       [lia | unfold in_int64, min_int64, max_int64 in *; lia]).
  - intros Hone. rewrite Hone, scaled_by_one by assumption.
    destruct (Z.ltb_spec (VariantB.maxDelay r) baseline) as [H1 | H1];
      match goal with |- context [?a <? j] =>
        destruct (Z.ltb_spec a j) as [H2 | H2] end;
      cbn [fst]; try lia;
      (rewrite wrap64_in_range;
       [lia | unfold in_int64, min_int64, max_int64 in *; lia]).
Qed.

End VariantB_bounds.

(** ** Further properties of the two limiters *)

(** [When] of Variant B returns a duration of [[0, maxDelay]], whatever the
    embedded limiter returns and whatever the scale factor is, also when the
    conversion of the scaled delay to [int64] overflows. *)
Theorem When_B_range
    {Rand : Type} (Float64 : Rand -> float * Rand)
    {L Item : Type} {RL : RateLimiter L Item}
    (item : Item) (r : VariantB.rateLimiterWithJitter Rand L) :
  0 < VariantB.baseDelay r -> VariantB.baseDelay r <= max_int64 ->
  0 <= VariantB.maxDelay r -> VariantB.maxDelay r <= max_int64 ->
  unit_sample (fst (Float64 (VariantB.rd r))) = true ->
  0 <= fst (VariantB.When Float64 item r) <= VariantB.maxDelay r.
Proof.
  intros Hb Hbmax Hm0 Hmmax Hp. unfold VariantB.When.
  destruct (rl_When (VariantB.inner r) item) as [baseline inner'].
  destruct (Float64 (VariantB.rd r)) as [p g]. simpl in Hp.
  (* the jitter is a duration of [0, baseDelay) *)
  destruct (jitter_value _ p Hb Hbmax Hp) as [[Hj0 Hjb] _].
  set (j := int64_of_float64 (float64_of_int (VariantB.baseDelay r) * p)) in *.
  (* the scaled delay, whatever its conversion gave, is clamped from above *)
  set (d0 := int64_of_float64 (float64_of_int baseline * VariantB.scaleFactor r)).
  set (d := if VariantB.maxDelay r <? d0 then VariantB.maxDelay r else d0).
  assert (Hd : d <= VariantB.maxDelay r).
  { unfold d. destruct (Z.ltb_spec (VariantB.maxDelay r) d0); lia. }
  destruct (Z.ltb_spec d j) as [Hlt | Hge]; simpl fst; [lia |].
  (* no wrap-around: 0 <= d - j <= maxDelay *)
  rewrite wrap64_in_range; [lia |].
  unfold in_int64, min_int64, max_int64 in *. lia.
Qed.

Lemma When_B_range_witness :
  0 <= fst (VariantB.When constant_source 7
              (VariantB.newItemExponentialFailureRateLimiterWithJitter
                 (Workqueue.NewItemExponentialFailureRateLimiter
                    1000000000 10000000000)
                 1000000000 10000000000 (5 / 100)%float (1 / 2)%float))
  <= 10000000000.
Proof.
  apply (When_B_range constant_source 7
           (VariantB.newItemExponentialFailureRateLimiterWithJitter
              (Workqueue.NewItemExponentialFailureRateLimiter
                 1000000000 10000000000)
              1000000000 10000000000 (5 / 100)%float (1 / 2)%float));
    vm_compute; congruence.
Defined.

(** From 64 failures on, whatever the base delay, [When] of Variant A
    returns exactly [maxDelay] and leaves the state, the random source
    included, as it was. *)
Theorem When_A_saturates
    {Rand : Type} (Float64 : Rand -> float * Rand)
    (r : VariantA.rateLimiterWithJitter Rand) :
  64 <= VariantA.exp r ->
  0 < VariantA.baseDelay r -> VariantA.baseDelay r <= max_int64 ->
  VariantA.When Float64 r = (VariantA.maxDelay r, r).
Proof.
  intros He Hb Hbmax. unfold VariantA.When.
  destruct (VariantA.capped r) eqn:Hc; [reflexivity |].
  pose proof (uncapped_exp r ltac:(lia) Hb Hbmax Hc). lia.
Qed.

Lemma When_A_saturates_witness :
  VariantA.When constant_source
    (VariantA.mkLimiter 64 1000000000 4000000000 (1 / 2)%float)
  = (4000000000, VariantA.mkLimiter 64 1000000000 4000000000 (1 / 2)%float).
Proof.
  apply (When_A_saturates constant_source
           (VariantA.mkLimiter 64 1000000000 4000000000 (1 / 2)%float));
    vm_compute; congruence.
Defined.

Lemma When_A_product_cases_witness :
  VariantA.When constant_source
    (VariantA.mkLimiter 3 1000000000 4000000000 (1 / 2)%float)
  = (4000000000, VariantA.mkLimiter 3 1000000000 4000000000 (1 / 2)%float)
  /\ 2000000000
     <= fst (VariantA.When constant_source
               (VariantA.mkLimiter 2 1000000000 4000000000 (1 / 2)%float))
     <= 4000000000.
Proof.
  split.
  - apply (proj1 (When_A_product_cases constant_source
             (VariantA.mkLimiter 3 1000000000 4000000000 (1 / 2)%float)
             ltac:(vm_compute; congruence) ltac:(vm_compute; congruence)
             ltac:(vm_compute; congruence) ltac:(vm_compute; congruence)
             ltac:(vm_compute; congruence))).
    vm_compute. reflexivity.
  - destruct (proj2 (When_A_product_cases constant_source
             (VariantA.mkLimiter 2 1000000000 4000000000 (1 / 2)%float)
             ltac:(vm_compute; congruence) ltac:(vm_compute; congruence)
             ltac:(vm_compute; congruence) ltac:(vm_compute; congruence)
             ltac:(vm_compute; congruence))
             ltac:(vm_compute; congruence) ltac:(vm_compute; reflexivity))
      as [[_ Hup] Hlow].
    split; [exact (Hlow ltac:(vm_compute; congruence)) | exact Hup].
Defined.

(** Along a run of Variant A the exponent stays between its start plus the
    failures minus the successes, and its start plus the failures, and never
    below zero, as long as the upper bound fits an [int]. *)
Theorem exp_between
    {Rand : Type} (Float64 : Rand -> float * Rand)
    (cs : list VariantA.call) (r : VariantA.rateLimiterWithJitter Rand) :
  0 <= VariantA.exp r ->
  VariantA.exp r + VariantA.failures cs <= max_int64 ->
  Z.max 0 (VariantA.exp r + VariantA.failures cs - VariantACalls.successes cs)
  <= VariantA.exp (VariantA.run Float64 cs r)
  <= VariantA.exp r + VariantA.failures cs.
Proof.
  intros H0 Hle.
  pose proof (run_exp_bounds Float64 cs r H0 Hle).
  pose proof (run_exp_lower Float64 cs r H0 Hle). lia.
Qed.

Lemma exp_between_witness :
  1 <= VariantA.exp
         (VariantA.run constant_source
            [VariantA.CallFailure; VariantA.CallWhen; VariantA.CallFailure;
             VariantA.CallSuccess]
            (VariantA.newItemExponentialFailureRateLimiterWithJitter
               1000000000 4000000000 (1 / 2)%float))
    <= 2.
Proof.
  apply (exp_between constant_source
           [VariantA.CallFailure; VariantA.CallWhen; VariantA.CallFailure;
            VariantA.CallSuccess]
           (VariantA.newItemExponentialFailureRateLimiterWithJitter
              1000000000 4000000000 (1 / 2)%float));
    vm_compute; congruence.
Defined.

(** [n] failures followed by [n] successes bring Variant A back to the state
    it started from (recovery is linear), as long as the exponent fits an
    [int] on the way; and a success changes nothing at exponent 0. *)
Theorem failures_undone_by_successes
    {Rand : Type} (Float64 : Rand -> float * Rand)
    (n : nat) (r : VariantA.rateLimiterWithJitter Rand) :
  0 <= VariantA.exp r -> VariantA.exp r + Z.of_nat n <= max_int64 ->
  VariantA.run Float64
    (repeat VariantA.CallFailure n ++ repeat VariantA.CallSuccess n) r = r
  /\ (VariantA.exp r = 0 -> VariantA.Success r = r).
Proof.
  intros H0 Hle. split.
  - rewrite run_app, run_failures by assumption.
    rewrite run_successes by (simpl; lia).
    destruct r as [e b m g]. simpl. f_equal. lia.
  - intros E. unfold VariantA.Success. rewrite E. reflexivity.
Qed.

Lemma failures_undone_by_successes_witness :
  VariantA.run constant_source
    (repeat VariantA.CallFailure 5 ++ repeat VariantA.CallSuccess 5)
    (VariantA.mkLimiter 2 1000000000 4000000000 (1 / 2)%float)
  = VariantA.mkLimiter 2 1000000000 4000000000 (1 / 2)%float.
Proof.
  apply (proj1 (failures_undone_by_successes constant_source 5
                  (VariantA.mkLimiter 2 1000000000 4000000000 (1 / 2)%float)
                  ltac:(vm_compute; congruence) ltac:(vm_compute; congruence))).
Defined.

(** ** Variant B: what the average depends on *)

Lemma Success_average_across
    {Rand1 L1 Rand2 L2 : Type} (b : bool)
    (r1 : VariantB.rateLimiterWithJitter Rand1 L1)
    (r2 : VariantB.rateLimiterWithJitter Rand2 L2) :
  VariantB.average r1 = VariantB.average r2 ->
  VariantB.average (VariantB.Success b r1)
  = VariantB.average (VariantB.Success b r2).
Proof.
  unfold VariantB.average, VariantB.Success, VariantB.delay_ratio. simpl.
  intros H. injection H as -> -> -> _ ->. reflexivity.
Qed.

Lemma report_all_average_across
    {Rand1 L1 Rand2 L2 : Type} (bs : list bool) :
  forall (r1 : VariantB.rateLimiterWithJitter Rand1 L1)
         (r2 : VariantB.rateLimiterWithJitter Rand2 L2),
  VariantB.average r1 = VariantB.average r2 ->
  VariantB.average (VariantB.report_all bs r1)
  = VariantB.average (VariantB.report_all bs r2).
Proof.
  induction bs as [| b bs IH]; intros r1 r2 H; [exact H |].
  simpl. apply IH. now apply Success_average_across.
Qed.

(** The failure rate and the scale factor of Variant B after a run depend on
    the configuration, on the average before the run and on the outcomes
    reported, in their order, and on nothing else: not on the other calls of
    the run, not on the items, the embedded limiter or the random source. *)
Theorem average_depends_on_outcomes
    {Rand1 : Type} (Float64_1 : Rand1 -> float * Rand1)
    {L1 Item1 : Type} {RL1 : RateLimiter L1 Item1}
    {Rand2 : Type} (Float64_2 : Rand2 -> float * Rand2)
    {L2 Item2 : Type} {RL2 : RateLimiter L2 Item2}
    (cs1 : list (VariantB.call (Item := Item1)))
    (cs2 : list (VariantB.call (Item := Item2)))
    (r1 : VariantB.rateLimiterWithJitter Rand1 L1)
    (r2 : VariantB.rateLimiterWithJitter Rand2 L2) :
  VariantB.average r1 = VariantB.average r2 ->
  VariantB.outcomes cs1 = VariantB.outcomes cs2 ->
  VariantB.average (VariantB.run Float64_1 cs1 r1)
  = VariantB.average (VariantB.run Float64_2 cs2 r2).
Proof.
  intros Ha Ho.
  rewrite (run_average Float64_1 cs1 r1), (run_average Float64_2 cs2 r2), Ho.
  now apply report_all_average_across.
Qed.

Lemma average_depends_on_outcomes_witness :
  VariantB.average
    (VariantB.run constant_source
       [VariantB.CallWhen 7; VariantB.CallSuccess false; VariantB.CallForget 7]
       (VariantB.newItemExponentialFailureRateLimiterWithJitter
          (Workqueue.NewItemExponentialFailureRateLimiter 1000000000 10000000000)
          1000000000 10000000000 (5 / 100)%float (1 / 2)%float))
  = VariantB.average
      (VariantB.run constant_source
         [VariantB.CallSuccess false; VariantB.CallWhen 3; VariantB.CallWhen 3]
         (VariantB.newItemExponentialFailureRateLimiterWithJitter
            (Workqueue.NewItemExponentialFailureRateLimiter 1000000000 10000000000)
            1000000000 10000000000 (5 / 100)%float (1 / 4)%float)).
Proof.
  apply (average_depends_on_outcomes constant_source constant_source);
    reflexivity.
Defined.

(** ** The tests, on a source that always returns one half *)

Lemma VariantA_test_checks_witness :
  VariantATest.TestRateLimiter (fun _ : unit => ((1 / 2)%float, tt)) tt
  = [true; true; true; true; true; true; true; false; false].
Proof.
  apply (VariantA_test_checks (fun _ : unit => ((1 / 2)%float, tt))).
  intros g. vm_compute. reflexivity.
Defined.

Lemma VariantB_test_checks_witness :
  VariantBTest.TestRateLimiter (fun _ : unit => ((1 / 2)%float, tt))
    (Workqueue.NewItemExponentialFailureRateLimiter 1000000000 10000000000)
    1 tt
  = repeat true 202.
Proof.
  apply (VariantB_test_checks (fun _ : unit => ((1 / 2)%float, tt))).
  intros g. vm_compute. reflexivity.
Defined.

Lemma When_B_bounds_witness :
  let r := VariantB.newItemExponentialFailureRateLimiterWithJitter
             (Workqueue.NewItemExponentialFailureRateLimiter
                1000000000 10000000000)
             1000000000 10000000000 (5 / 100)%float (1 / 2)%float in
  fst (VariantB.When constant_source 7 r) = 500000000.
Proof.
  intros r.
  rewrite (proj2 (When_B_bounds constant_source 7 r
                    ltac:(vm_compute; repeat split; congruence)
                    ltac:(vm_compute; reflexivity)
                    ltac:(vm_compute; congruence)
                    ltac:(vm_compute; reflexivity)
                    ltac:(vm_compute; reflexivity)
                    ltac:(vm_compute; reflexivity)))
    by reflexivity.
  vm_compute. reflexivity.
Defined.

(** ** Variant A: every state of a run *)

Section VariantA_runs.

Context {Rand : Type} (Float64 : Rand -> float * Rand).
Implicit Types r : VariantA.rateLimiterWithJitter Rand.

Lemma step_keeps_delays r c :
  VariantA.baseDelay (VariantA.step Float64 r c) = VariantA.baseDelay r
  /\ VariantA.maxDelay (VariantA.step Float64 r c) = VariantA.maxDelay r.
Proof.
  destruct c; cbn [VariantA.step].
  - destruct (When_keeps_fields Float64 r) as (_ & Hb & Hm). now split.
  - now split.
  - unfold VariantA.Success. destruct (0 <? VariantA.exp r); now split.
  - now split.
Qed.

Lemma run_keeps_delays cs : forall r,
  VariantA.baseDelay (VariantA.run Float64 cs r) = VariantA.baseDelay r
  /\ VariantA.maxDelay (VariantA.run Float64 cs r) = VariantA.maxDelay r.
Proof.
  induction cs as [| c cs IH]; intros r; [now split |].
  change (VariantA.run Float64 (c :: cs) r)
    with (VariantA.run Float64 cs (VariantA.step Float64 r c)).
  destruct (IH (VariantA.step Float64 r c)) as [Hb Hm].
  destruct (step_keeps_delays r c) as [Sb Sm].
  rewrite Hb, Hm, Sb, Sm. now split.
Qed.

(** A product [b * 2^e] that is a power of two has a factor [b] that is
    one. *)
Lemma power_of_two_factor (b e : Z) :
  0 < b -> 0 <= e -> e <= 63 -> b * 2 ^ e = 2 ^ 63 -> b = 2 ^ (63 - e).
Proof.
  intros Hb He He63 H.
  replace (2 ^ 63) with (2 ^ (63 - e) * 2 ^ e) in H
    by (rewrite <- Z.pow_add_r by lia; f_equal; lia).
  apply Z.mul_reg_r in H; [exact H |].
  assert (0 < 2 ^ e) by (apply Z.pow_pos_nonneg; lia). lia.
Qed.

End VariantA_runs.

(** For a base delay below [2^53] ns that is not a power of two (one
    second, for instance), a limiter of Variant A built by the constructor
    returns a delay of [[0, maxDelay]] after every run of calls with fewer
    than [2^63] failures and for every sample of [[0,1)]. *)
Theorem When_A_range_of_runs
    {Rand : Type} (Float64 : Rand -> float * Rand)
    (b m : Z) (seed : Rand) (cs : list VariantA.call) :
  0 < b -> b < 2 ^ 53 -> (forall k, 0 <= k -> b <> 2 ^ k) ->
  0 <= m -> m <= max_int64 ->
  VariantA.failures cs <= max_int64 ->
  let r := VariantA.run Float64 cs
             (VariantA.newItemExponentialFailureRateLimiterWithJitter b m seed) in
  unit_sample (fst (Float64 (VariantA.rd r))) = true ->
  0 <= fst (VariantA.When Float64 r) <= m.
Proof.
  intros Hb H53 Hpow Hm0 Hm Hf r Hp.
  set (r0 := VariantA.newItemExponentialFailureRateLimiterWithJitter b m seed) in *.
  destruct (run_keeps_delays Float64 cs r0) as [Eb Em].
  fold r in Eb, Em. simpl in Eb, Em.
  destruct (run_exp_bounds Float64 cs r0 ltac:(simpl; lia) ltac:(simpl; lia))
    as [He _].
  fold r in He.
  assert (HP : VariantA.baseDelay r * 2 ^ VariantA.exp r <> 2 ^ 63).
  { rewrite Eb. intros E.
    destruct (Z_le_gt_dec (VariantA.exp r) 63) as [H63 | H63].
    - apply (Hpow (63 - VariantA.exp r)); [lia |].
      now apply power_of_two_factor.
    - assert (2 ^ 63 < 2 ^ VariantA.exp r) by (apply Z.pow_lt_mono_r; lia). nia. }
  destruct (When_A_product_upper Float64 r He ltac:(lia) ltac:(lia) ltac:(lia) HP)
    as [Hcap Hun].
  rewrite Eb, Em in Hcap, Hun.
  destruct (Z_lt_le_dec m (b * 2 ^ VariantA.exp r)) as [Hlt | Hle].
  - rewrite (Hcap Hlt). simpl. lia.
  - pose proof (Hun Hle Hp). lia.
Qed.

Lemma When_A_range_of_runs_witness :
  0 <= fst (VariantA.When constant_source
              (VariantA.run constant_source
                 [VariantA.CallFailure; VariantA.CallWhen; VariantA.CallFailure]
                 (VariantA.newItemExponentialFailureRateLimiterWithJitter
                    1000000000 4000000000 (1 / 2)%float)))
  <= 4000000000.
Proof.
  apply (When_A_range_of_runs constant_source 1000000000 4000000000
           (1 / 2)%float
           [VariantA.CallFailure; VariantA.CallWhen; VariantA.CallFailure]);
    try (vm_compute; congruence).
  intros k Hk E.
  assert (Hk30 : k < 30).
  { destruct (Z_lt_le_dec k 30) as [H | H]; [exact H |].
    assert (2 ^ 30 <= 2 ^ k) by (apply Z.pow_le_mono_r; lia). lia. }
  assert (Hk29 : 29 < k).
  { destruct (Z_lt_le_dec 29 k) as [H | H]; [exact H |].
    assert (2 ^ k <= 2 ^ 29) by (apply Z.pow_le_mono_r; lia). lia. }
  lia.
Defined.

(** ** Variant B: the three claims on the moving average and the delay *)

(** C5, as stated, fails: with a base delay of 1ns, a cap of [2^53 + 2] ns
    and [alpha = 1] (a valid configuration), one reported failure gives
    failure rate 1 and the scale factor [2^53], two less than the quotient
    [maxDelay/baseDelay = 2^53 + 2]: [quotient - 1] is not a binary64
    number and rounds to [2^53], and so does [2^53 + 1]. *)
Lemma Success_scale_factor_not_quotient : ~ Claims.Success_formulas.
Proof.
  intros H.
  specialize (H unit unit
    (VariantB.newItemExponentialFailureRateLimiterWithJitter
       tt 1 9007199254740994 1%float tt) false).
  destruct H as (_ & _ & _ & H).
  - repeat split; vm_compute; congruence.
  - vm_compute. reflexivity.
  - assert (E : VariantB.failureRate
                  (VariantB.Success false
                     (VariantB.newItemExponentialFailureRateLimiterWithJitter
                        tt 1 9007199254740994 1%float tt)) = 1%float)
      by (vm_compute; reflexivity).
    specialize (H E). apply (f_equal Prim2SF) in H.
    vm_compute in H. discriminate H.
Qed.

(** C5 (amended): in every state with a valid configuration, [Success]
    sets [failureRate] to [alpha*sample + (1-alpha)*failureRate], where
    [sample] is 0 on success and 1 otherwise, and then [scaleFactor] to
    [failureRate*(maxDelay/baseDelay - 1) + 1], every operation rounded to
    binary64; the scale factor is 1 when the new failure rate is 0, and it
    is the quotient [maxDelay/baseDelay] when the new failure rate is 1 and
    the quotient is below [2^53]. *)
Theorem Success_formulas_below_two_pow_53 {Rand L : Type}
    (r : VariantB.rateLimiterWithJitter Rand L) (success : bool) :
  VariantB.valid_config r ->
  let sample := if success then 0%float else 1%float in
  let r' := VariantB.Success success r in
  VariantB.failureRate r'
  = (VariantB.alpha r * sample
     + (1 - VariantB.alpha r) * VariantB.failureRate r)%float
  /\ VariantB.scaleFactor r'
     = (VariantB.failureRate r' * (VariantB.delay_ratio r - 1) + 1)%float
  /\ ((VariantB.failureRate r' =? 0)%float = true ->
      VariantB.scaleFactor r' = 1%float)
  /\ (VariantB.failureRate r' = 1%float ->
      (VariantB.delay_ratio r <? 9007199254740992)%float = true ->
      VariantB.scaleFactor r' = VariantB.delay_ratio r).
Proof.
  intros (Hb & Hbm & Hm & _) sample r'.
  assert (E1 : VariantB.failureRate r'
               = (VariantB.alpha r * sample
                  + (1 - VariantB.alpha r) * VariantB.failureRate r)%float).
  { unfold r', sample. destruct success; reflexivity. }
  assert (E2 : VariantB.scaleFactor r'
               = (VariantB.failureRate r' * (VariantB.delay_ratio r - 1) + 1)%float).
  { unfold r'. destruct success; reflexivity. }
  split; [exact E1 |]. split; [exact E2 |].
  (* the quotient is a number of [1, 2^63] *)
  destruct (delay_ratio_bounds _ _ Hb Hbm Hm) as [Nq Hq].
  fold (VariantB.delay_ratio r) in Nq, Hq.
  split.
  - (* 0 * (q - 1) + 1 = 1, since q - 1 is finite *)
    intros Hz. rewrite E2.
    apply mul_zero_add_one; [exact Hz |].
    now apply ratio_minus_one.
  - (* 1 * (q - 1) + 1 = q: both roundings are exact below 2^53 *)
    intros H1 H53. rewrite E2, H1.
    destruct F2R_two_pow_53 as [N53 V53].
    apply (ltb_correct _ _ Nq N53) in H53. rewrite V53 in H53.
    apply one_mul_add_one; [exact Nq | lra | exact H53].
Qed.

Lemma Success_formulas_below_two_pow_53_witness :
  let r := VariantB.newItemExponentialFailureRateLimiterWithJitter
             tt 1000000000 10000000000 1%float tt in
  VariantB.scaleFactor (VariantB.Success true r) = 1%float
  /\ VariantB.scaleFactor (VariantB.Success false r) = 10%float.
Proof.
  intros r.
  assert (Hc : VariantB.valid_config r)
    by (vm_compute; repeat split; congruence).
  split.
  - apply (proj1 (proj2 (proj2 (Success_formulas_below_two_pow_53 r true Hc)))).
    vm_compute. reflexivity.
  - apply (proj2 (proj2 (proj2 (Success_formulas_below_two_pow_53 r false Hc)))).
    + vm_compute. reflexivity.
    + vm_compute. reflexivity.
Defined.



(** C10 at the input where it fails.  Base delay 1s, cap 48h, [alpha = 1]:
    after one reported failure the scale factor is 172800, and after 16
    calls of [When] for an item the embedded limiter returns the baseline
    65536s.  The state has a valid configuration and [1 <= scaleFactor],
    the baseline is above the base delay; the scaled delay, about
    [1.13e19] ns, is past [2^63], its conversion to [int64] gives [-2^63],
    which is not above the cap, the jitter is above it, and [When] returns
    zero. *)
Theorem When_zero_past_two_pow_63 :
  let r :=
    VariantB.run constant_source
      (VariantB.CallSuccess false :: repeat (VariantB.CallWhen 7) 16)
      (VariantB.newItemExponentialFailureRateLimiterWithJitter
         (Workqueue.NewItemExponentialFailureRateLimiter
            1000000000 172800000000000)
         1000000000 172800000000000 1%float (1 / 2)%float) in
  VariantB.valid_config r
  /\ (1 <=? VariantB.scaleFactor r)%float = true
  /\ VariantB.scaleFactor r = 172800%float
  /\ VariantB.baseDelay r = 1000000000
  /\ VariantB.maxDelay r = 172800000000000
  /\ fst (rl_When (VariantB.inner r) 7) = 65536000000000
  /\ unit_sample (fst (constant_source (VariantB.rd r))) = true
  /\ int64_of_float64
       (float64_of_int (fst (rl_When (VariantB.inner r) 7%Z))
        * VariantB.scaleFactor r)%float = min_int64
  /\ fst (VariantB.When constant_source 7 r) = 0.
Proof.
  intros r.
  split; [vm_compute; repeat split; congruence |].
  repeat split; vm_compute; reflexivity.
Qed.

(** * The vendored packages *)

(** ** Strings *)

Lemma prefix_drop (p s : string) :
  String.prefix p s = true -> s = String.append p (Strings.drop (String.length p) s).
Proof.
  revert s. induction p as [| c p IH]; intros s H; [reflexivity |].
  destruct s as [| d s]; [discriminate H |].
  simpl in H. destruct (ascii_dec c d) as [-> | Hne]; [| discriminate H].
  simpl. f_equal. now apply IH.
Qed.

Lemma prefix_append (p s : string) : String.prefix p (String.append p s) = true.
Proof.
  induction p as [| c p IH]; simpl; [now destruct s |].
  destruct (ascii_dec c c) as [_ | Hne]; [exact IH | now elim Hne].
Qed.

Lemma drop_append (p s : string) :
  Strings.drop (String.length p) (String.append p s) = s.
Proof. induction p as [| c p IH]; simpl; [reflexivity | exact IH]. Qed.

Lemma append_assoc (a b c : string) :
  String.append (String.append a b) c = String.append a (String.append b c).
Proof. induction a as [| x a IH]; simpl; [reflexivity | now rewrite IH]. Qed.

(** What [cut] returns is a decomposition of the string. *)
Lemma cut_sound (sep : string) : forall s before after,
  Strings.cut sep s = Some (before, after) ->
  s = String.append before (String.append sep after).
Proof.
  induction s as [| c s IH]; intros before after H.
  - cbn [Strings.cut] in H.
    destruct (String.prefix sep EmptyString) eqn:E; [| discriminate H].
    injection H as <- <-. simpl. now apply prefix_drop.
  - cbn [Strings.cut] in H.
    destruct (String.prefix sep (String c s)) eqn:E.
    + injection H as <- <-. simpl. now apply prefix_drop.
    + destruct (Strings.cut sep s) as [[b a] |] eqn:Ec; [| discriminate H].
      injection H as <- <-. simpl. f_equal. now apply IH.
Qed.

Lemma append_nil_l (s : string) : String.append EmptyString s = s.
Proof. reflexivity. Qed.

Lemma append_cons (c : ascii) (a b : string) :
  String.append (String c a) b = String c (String.append a b).
Proof. reflexivity. Qed.

Lemma cut_prefix (sep s : string) :
  String.prefix sep s = true ->
  Strings.cut sep s = Some (EmptyString, Strings.drop (String.length sep) s).
Proof. intros H. destruct s; cbn [Strings.cut]; now rewrite H. Qed.

Lemma cut_cons (sep : string) (c : ascii) (s : string) :
  String.prefix sep (String c s) = false ->
  Strings.cut sep (String c s)
  = match Strings.cut sep s with
    | Some (before, after) => Some (String c before, after)
    | None => None
    end.
Proof. intros H. cbn [Strings.cut]. now rewrite H. Qed.

(** [cut] finds the separator wherever it occurs. *)
Lemma cut_complete (sep : string) : forall x y,
  exists before after,
    Strings.cut sep (String.append x (String.append sep y)) = Some (before, after).
Proof.
  induction x as [| c x IH]; intros y.
  - rewrite append_nil_l. rewrite cut_prefix by apply prefix_append. eauto.
  - rewrite append_cons.
    destruct (String.prefix sep (String c (String.append x (String.append sep y))))
      eqn:E.
    + rewrite cut_prefix by exact E. eauto.
    + rewrite cut_cons by exact E. destruct (IH y) as (b & a & ->). eauto.
Qed.

(** A text without the first byte of the separator is what [cut] returns
    as the part before it. *)
Lemma cut_first (c0 : ascii) (sep' : string) : forall x y,
  (forall c, In c (list_ascii_of_string x) -> c <> c0) ->
  Strings.cut (String c0 sep') (String.append x (String.append (String c0 sep') y))
  = Some (x, y).
Proof.
  induction x as [| c x IH]; intros y Hx.
  - rewrite append_nil_l.
    rewrite cut_prefix by apply prefix_append.
    now rewrite drop_append.
  - rewrite append_cons.
    assert (Hc : c <> c0) by (apply Hx; simpl; now left).
    rewrite cut_cons.
    + rewrite IH; [reflexivity |].
      intros d Hd. apply Hx. simpl. now right.
    + simpl. destruct (ascii_dec c0 c) as [<- | _]; [now elim Hc | reflexivity].
Qed.

Lemma map_bytes_append (f : ascii -> ascii) (a b : string) :
  Strings.map_bytes f (String.append a b)
  = String.append (Strings.map_bytes f a) (Strings.map_bytes f b).
Proof. induction a as [| c a IH]; simpl; [reflexivity | now rewrite IH]. Qed.

Lemma all_ascii_append (a b : string) :
  Strings.all_ascii (String.append a b)
  = Strings.all_ascii a && Strings.all_ascii b.
Proof.
  induction a as [| c a IH]; simpl; [reflexivity |].
  now rewrite IH, andb_assoc.
Qed.

(** Lowering a byte gives [':'] or ['/'] only from itself, and a lower-case
    letter only from an ASCII byte. *)
Lemma lower_cases (c : ascii) :
  (Strings.lower c = ":"%char -> c = ":"%char)
  /\ (Strings.lower c = "/"%char -> c = "/"%char)
  /\ (Strings.is_upper (Strings.lower c) = false).
Proof.
  destruct c as [[] [] [] [] [] [] [] []]; vm_compute;
    repeat split; congruence.
Qed.

Lemma lower_letter_not_colon (c l : ascii) :
  Strings.lower c = l -> l <> ":"%char -> c <> ":"%char.
Proof. intros <- H E. subst c. now apply H. Qed.

Lemma lower_ascii (c : ascii) :
  Strings.is_ascii (Strings.lower c) = Strings.is_ascii c.
Proof. destruct c as [[] [] [] [] [] [] [] []]; reflexivity. Qed.

Lemma all_ascii_lower (s : string) :
  Strings.all_ascii (Strings.map_bytes Strings.lower s) = Strings.all_ascii s.
Proof.
  induction s as [| c s IH]; simpl; [reflexivity |].
  now rewrite lower_ascii, IH.
Qed.

(** A valid scheme holds no [':'] and only ASCII bytes. *)
Lemma map_bytes_no_colon (s : string) :
  (forall l, In l (list_ascii_of_string (Strings.map_bytes Strings.lower s)) ->
             l <> ":"%char) ->
  forall c, In c (list_ascii_of_string s) -> c <> ":"%char.
Proof.
  induction s as [| d s IH]; intros H c Hc; [destruct Hc |].
  simpl in H, Hc. destruct Hc as [<- | Hc].
  - apply (lower_letter_not_colon d (Strings.lower d) eq_refl).
    apply H. now left.
  - apply IH; [| exact Hc]. intros l Hl. apply H. now right.
Qed.

Lemma scheme_ok_no_colon (scheme : string) :
  CsiCommon.scheme_ok scheme ->
  forall c, In c (list_ascii_of_string scheme) -> c <> ":"%char.
Proof.
  intros H. apply map_bytes_no_colon. intros l Hl.
  destruct H as [H | H]; rewrite H in Hl; simpl in Hl;
    repeat (destruct Hl as [<- | Hl]; [discriminate |]); destruct Hl.
Qed.

Lemma scheme_ok_ascii (scheme : string) :
  CsiCommon.scheme_ok scheme -> Strings.all_ascii scheme = true.
Proof.
  intros H. rewrite <- all_ascii_lower. destruct H as [-> | ->]; reflexivity.
Qed.

Lemma scheme_ok_prefix (scheme rest : string) :
  CsiCommon.scheme_ok scheme ->
  let low :=
    String.append (Strings.map_bytes Strings.lower scheme)
      (String.append "://" rest) in
  Strings.HasPrefix low "unix://" || Strings.HasPrefix low "tcp://" = true.
Proof.
  intros [H | H] low; unfold low; rewrite H; unfold Strings.HasPrefix.
  - change (String.append "unix" (String.append "://" rest))
      with (String.append "unix://" rest).
    now rewrite prefix_append.
  - change (String.append "tcp" (String.append "://" rest))
      with (String.append "tcp://" rest).
    rewrite prefix_append. apply orb_true_r.
Qed.

(** A prefix of a lowered string comes from a prefix of the string. *)
Lemma lowered_prefix (p : string) : forall s,
  String.prefix p (Strings.map_bytes Strings.lower s) = true ->
  exists s1 s2, s = String.append s1 s2
                /\ Strings.map_bytes Strings.lower s1 = p.
Proof.
  induction p as [| c p IH]; intros s H.
  - exists EmptyString, s. now split.
  - destruct s as [| d s]; [discriminate H |].
    simpl in H. destruct (ascii_dec c (Strings.lower d)) as [-> | _];
      [| discriminate H].
    destruct (IH s H) as (s1 & s2 & -> & <-).
    exists (String d s1), s2. now split.
Qed.

(** A string that reads [<scheme>://] in lower case is a scheme followed by
    [://] itself. *)
Lemma lowered_scheme (low s1 : string) :
  Strings.map_bytes Strings.lower s1 = String.append low "://" ->
  exists scheme, s1 = String.append scheme "://"
                 /\ Strings.map_bytes Strings.lower scheme = low.
Proof.
  revert s1. induction low as [| l low IH]; intros s1 H.
  - exists EmptyString. split; [| reflexivity].
    destruct s1 as [| a [| b [| c [| d s]]]]; try discriminate H.
    simpl in H. injection H as Ha Hb Hc.
    apply (proj1 (lower_cases a)) in Ha.
    apply (proj1 (proj2 (lower_cases b))) in Hb.
    apply (proj1 (proj2 (lower_cases c))) in Hc.
    now subst.
  - destruct s1 as [| d s1]; [discriminate H |].
    simpl in H. injection H as Hd H.
    destruct (IH s1 H) as (scheme & -> & <-).
    exists (String d scheme). split; [reflexivity |]. simpl. now rewrite Hd.
Qed.

Section ParseEndpoint_properties.

Variable unicode_lower : string -> string.

Lemma ParseEndpoint_cases (ep : string) :
  CsiCommon.ParseEndpoint unicode_lower ep
  = if Strings.HasPrefix (Strings.ToLower unicode_lower ep) "unix://"
       || Strings.HasPrefix (Strings.ToLower unicode_lower ep) "tcp://"
    then
      match Strings.cut "://" ep with
      | Some (before, after) =>
          if String.eqb after EmptyString then CsiCommon.invalid ep
          else CsiCommon.Returns before after None
      | None => CsiCommon.Panics
      end
    else CsiCommon.invalid ep.
Proof.
  unfold CsiCommon.ParseEndpoint, Strings.SplitN2.
  destruct (_ || _); [| reflexivity].
  destruct (Strings.cut "://" ep) as [[b a] |]; [| reflexivity].
  simpl. now destruct (String.eqb a EmptyString).
Qed.

(** A valid scheme in front of [://] makes [ParseEndpoint] cut there. *)
Lemma ParseEndpoint_at_scheme (scheme addr : string) :
  CsiCommon.scheme_ok scheme ->
  Strings.HasPrefix
    (Strings.ToLower unicode_lower
       (String.append scheme (String.append "://" addr))) "unix://"
  || Strings.HasPrefix
       (Strings.ToLower unicode_lower
          (String.append scheme (String.append "://" addr))) "tcp://" = true ->
  CsiCommon.ParseEndpoint unicode_lower
    (String.append scheme (String.append "://" addr))
  = if String.eqb addr EmptyString
    then CsiCommon.invalid (String.append scheme (String.append "://" addr))
    else CsiCommon.Returns scheme addr None.
Proof.
  intros Hs Hp. rewrite ParseEndpoint_cases, Hp.
  now rewrite (cut_first ":"%char "//" scheme addr (scheme_ok_no_colon _ Hs)).
Qed.

(** Whatever [ParseEndpoint] returns is either the endpoint cut at its
    first [://], with an address that is not empty and no error, or two empty
    strings and the error that quotes the endpoint. *)
Theorem ParseEndpoint_returns (ep scheme addr : string) (err : option string) :
  CsiCommon.ParseEndpoint unicode_lower ep = CsiCommon.Returns scheme addr err ->
  (err = None
   /\ ep = String.append scheme (String.append "://" addr)
   /\ addr <> EmptyString
   /\ Strings.cut "://" ep = Some (scheme, addr))
  \/ (err = Some (String.append "Invalid endpoint: " ep)
      /\ scheme = EmptyString /\ addr = EmptyString).
Proof.
  rewrite ParseEndpoint_cases. unfold CsiCommon.invalid.
  destruct (_ || _).
  - destruct (Strings.cut "://" ep) as [[b a] |] eqn:Ec; [| discriminate].
    destruct (String.eqb a EmptyString) eqn:Ea; intros H;
      injection H as <- <- <-.
    + right. now repeat split.
    + left. split; [reflexivity |]. split; [now apply cut_sound |].
      split; [| reflexivity].
      intros ->. now rewrite String.eqb_refl in Ea.
  - intros H. injection H as <- <- <-. right. now repeat split.
Qed.

(** On an endpoint of ASCII bytes [ParseEndpoint] never panics, and it
    succeeds exactly on [<scheme>://<addr>] with an address that is not
    empty and a scheme that is [unix] or [tcp] in any mix of cases; the
    scheme comes back as it was written.  Every other endpoint gives the
    error. *)
Theorem ParseEndpoint_ascii (ep : string) :
  Strings.all_ascii ep = true ->
  (forall scheme addr,
      CsiCommon.ParseEndpoint unicode_lower ep
      = CsiCommon.Returns scheme addr None
      <-> (ep = String.append scheme (String.append "://" addr)
           /\ addr <> EmptyString /\ CsiCommon.scheme_ok scheme))
  /\ ((forall scheme addr,
          CsiCommon.ParseEndpoint unicode_lower ep
          <> CsiCommon.Returns scheme addr None) ->
      CsiCommon.ParseEndpoint unicode_lower ep = CsiCommon.invalid ep).
Proof.
  intros Ha.
  assert (Hlow : Strings.ToLower unicode_lower ep
                 = Strings.map_bytes Strings.lower ep).
  { unfold Strings.ToLower. now rewrite Ha. }
  assert (Hback : forall scheme addr,
            ep = String.append scheme (String.append "://" addr) ->
            CsiCommon.scheme_ok scheme ->
            CsiCommon.ParseEndpoint unicode_lower ep
            = if String.eqb addr EmptyString then CsiCommon.invalid ep
              else CsiCommon.Returns scheme addr None).
  { intros scheme addr E Hs. rewrite E.
    apply ParseEndpoint_at_scheme; [exact Hs |].
    rewrite <- E, Hlow, E, map_bytes_append.
    change (Strings.map_bytes Strings.lower (String.append "://" addr))
      with (String.append "://" (Strings.map_bytes Strings.lower addr)).
    now apply scheme_ok_prefix. }
  assert (Hfwd : Strings.HasPrefix (Strings.ToLower unicode_lower ep) "unix://"
                 || Strings.HasPrefix (Strings.ToLower unicode_lower ep) "tcp://"
                 = true ->
                 exists scheme addr,
                   ep = String.append scheme (String.append "://" addr)
                   /\ CsiCommon.scheme_ok scheme).
  { rewrite Hlow. unfold Strings.HasPrefix. intros H.
    apply orb_true_iff in H. destruct H as [H | H];
      destruct (lowered_prefix _ _ H) as (s1 & s2 & E & H1).
    - destruct (lowered_scheme "unix" s1 H1) as (scheme & -> & Hs).
      exists scheme, s2. split; [now rewrite E, append_assoc | now left].
    - destruct (lowered_scheme "tcp" s1 H1) as (scheme & -> & Hs).
      exists scheme, s2. split; [now rewrite E, append_assoc | now right]. }
  split.
  - intros scheme addr. split.
    + intros H. rewrite ParseEndpoint_cases in H.
      destruct (_ || _) eqn:Hp; [| discriminate H].
      destruct (Strings.cut "://" ep) as [[b a] |] eqn:Hcut; [| discriminate H].
      destruct (String.eqb a EmptyString) eqn:Ea; [discriminate H |].
      injection H as -> ->.
      split; [now apply cut_sound |].
      split; [intros ->; now rewrite String.eqb_refl in Ea |].
      destruct (Hfwd eq_refl) as (scheme' & addr' & E' & Hs').
      pose proof (cut_first ":"%char "//" scheme' addr'
                    (scheme_ok_no_colon _ Hs')) as Hcut'.
      rewrite <- E', Hcut in Hcut'. injection Hcut' as -> _. exact Hs'.
    + intros (E & Hne & Hs). rewrite (Hback scheme addr E Hs).
      destruct (String.eqb addr EmptyString) eqn:Ea; [| reflexivity].
      apply String.eqb_eq in Ea. contradiction.
  - intros Hno. rewrite ParseEndpoint_cases.
    destruct (_ || _) eqn:Hp; [| reflexivity].
    destruct (Hfwd eq_refl) as (scheme & addr & E & Hs).
    pose proof (Hback scheme addr E Hs) as Hb.
    rewrite ParseEndpoint_cases, Hp in Hb. rewrite Hb.
    destruct (String.eqb addr EmptyString) eqn:Ea; [reflexivity |].
    exfalso. apply (Hno scheme addr).
    rewrite ParseEndpoint_cases, Hp. exact Hb.
Qed.

(** [strings.Map(unicode.ToLower, s)] lowers a prefix of ASCII bytes byte
    by byte: with that, every [<scheme>://<addr>] with a valid scheme and an
    address that is not empty, of whatever bytes, parses into its two parts. *)
Theorem ParseEndpoint_round_trip (scheme addr : string) :
  (forall a rest,
      Strings.all_ascii a = true ->
      unicode_lower (String.append a rest)
      = String.append (Strings.map_bytes Strings.lower a) (unicode_lower rest)) ->
  CsiCommon.scheme_ok scheme -> addr <> EmptyString ->
  CsiCommon.ParseEndpoint unicode_lower
    (String.append scheme (String.append "://" addr))
  = CsiCommon.Returns scheme addr None.
Proof.
  intros Hu Hs Hne.
  rewrite ParseEndpoint_at_scheme; [| exact Hs |].
  - destruct (String.eqb addr EmptyString) eqn:Ea; [| reflexivity].
    apply String.eqb_eq in Ea. contradiction.
  - unfold Strings.ToLower.
    destruct (Strings.all_ascii _) eqn:Ea.
    + rewrite map_bytes_append.
      change (Strings.map_bytes Strings.lower (String.append "://" addr))
        with (String.append "://" (Strings.map_bytes Strings.lower addr)).
      now apply scheme_ok_prefix.
    + rewrite <- append_assoc, Hu.
      * rewrite map_bytes_append.
        change (Strings.map_bytes Strings.lower "://") with "://"%string.
        rewrite append_assoc. now apply scheme_ok_prefix.
      * rewrite all_ascii_append, (scheme_ok_ascii _ Hs). reflexivity.
Qed.

End ParseEndpoint_properties.

(** ** [ParseEndpoint] on three endpoints *)

Lemma ParseEndpoint_returns_witness :
  "unix:///var/lib/csi.sock"%string
  = String.append "unix" (String.append "://" "/var/lib/csi.sock")
  /\ CsiCommon.ParseEndpoint (Strings.map_bytes Strings.lower) "unix://"
     = CsiCommon.invalid "unix://".
Proof.
  split.
  - destruct (ParseEndpoint_returns (Strings.map_bytes Strings.lower)
                "unix:///var/lib/csi.sock" "unix" "/var/lib/csi.sock" None
                ltac:(vm_compute; reflexivity))
      as [(_ & E & _) | (Habs & _)]; [exact E | discriminate Habs].
  - vm_compute. reflexivity.
Defined.

Lemma ParseEndpoint_ascii_witness :
  CsiCommon.ParseEndpoint (Strings.map_bytes Strings.lower)
    "TCP://127.0.0.1:10000"
  = CsiCommon.Returns "TCP" "127.0.0.1:10000" None.
Proof.
  apply (proj1 (ParseEndpoint_ascii (Strings.map_bytes Strings.lower)
                  "TCP://127.0.0.1:10000" ltac:(vm_compute; reflexivity))).
  split; [reflexivity |]. split; [discriminate | right; reflexivity].
Defined.

Lemma ParseEndpoint_round_trip_witness :
  CsiCommon.ParseEndpoint (Strings.map_bytes Strings.lower)
    (String.append "Unix"
       (String.append "://" (String (ascii_of_nat 195) "://x")))
  = CsiCommon.Returns "Unix" (String (ascii_of_nat 195) "://x") None.
Proof.
  apply (ParseEndpoint_round_trip (Strings.map_bytes Strings.lower)).
  - intros a rest _. apply map_bytes_append.
  - left. reflexivity.
  - discriminate.
Defined.

(** ** The loggers of [klogr] *)

Section Klogr_properties.

Context {Value : Type}.
Implicit Types l : Klogr.klogger Value.
Implicit Types cs : list (Klogr.call Value).

Lemma klogr_run_snoc cs c l :
  Klogr.run (cs ++ [c]) l = Klogr.step (Klogr.run cs l) c.
Proof. unfold Klogr.run. now rewrite fold_left_app. Qed.

Lemma klogr_run_cons c cs l :
  Klogr.run (c :: cs) l = Klogr.run cs (Klogr.step l c).
Proof. reflexivity. Qed.

(** The call depth of a derived logger is decided by the last call alone:
    [clone] does not copy it, so [V], [WithName] and [WithValues] set it back
    to zero, and [WithCallDepth] sets it to its argument instead of adding
    the argument to the depth so far. *)
Theorem callDepth_of_last_call cs c l :
  Klogr.callDepth (Klogr.run (cs ++ [c]) l)
  = match c with
    | Klogr.CallWithCallDepth depth => wrap64 depth
    | _ => 0
    end.
Proof.
  rewrite klogr_run_snoc. destruct c; try reflexivity.
  cbn [Klogr.step]. unfold Klogr.WithName.
  now destruct (0 <? String.length _)%nat.
Qed.

(** One more name: after a prefix that is not empty it adds [/] and the
    name; after the empty prefix it is the prefix. *)
Lemma WithName_prefix name l :
  Klogr.prefix (Klogr.WithName name l)
  = match Klogr.prefix l with
    | EmptyString => name
    | String _ _ => String.append (Klogr.prefix l) (String.append "/" name)
    end.
Proof.
  destruct l as [lv d p vs f]. unfold Klogr.WithName. cbn [Klogr.prefix].
  destruct p as [| c p]; [reflexivity |].
  cbn [String.length Nat.ltb Nat.leb Klogr.clone Klogr.prefix].
  now rewrite append_assoc.
Qed.

Lemma step_prefix l c :
  Klogr.prefix (Klogr.step l c)
  = match c with
    | Klogr.CallWithName name => Klogr.prefix (Klogr.WithName name l)
    | _ => Klogr.prefix l
    end.
Proof. destruct c; reflexivity. Qed.

Lemma concat_cons_nonempty (p : string) (ns : list string) :
  String.concat "/" (p :: ns)
  = match ns with
    | [] => p
    | _ :: _ => String.append p (String.append "/" (String.concat "/" ns))
    end.
Proof. destruct ns; reflexivity. Qed.

Lemma prefix_after_nonempty cs : forall l,
  Klogr.prefix l <> EmptyString ->
  Klogr.prefix (Klogr.run cs l)
  = String.concat "/" (Klogr.prefix l :: Klogr.names cs).
Proof.
  induction cs as [| c cs IH]; intros l Hl; [reflexivity |].
  rewrite klogr_run_cons.
  destruct c as [lvl | name | kv | d];
    try (rewrite IH by exact Hl; reflexivity).
  assert (Hp : Klogr.prefix (Klogr.WithName name l)
               = String.append (Klogr.prefix l) (String.append "/" name)).
  { rewrite WithName_prefix. destruct (Klogr.prefix l); [now elim Hl | reflexivity]. }
  rewrite IH.
  - cbn [Klogr.step Klogr.names]. rewrite Hp.
    rewrite !concat_cons_nonempty.
    destruct (Klogr.names cs) as [| n ns].
    + reflexivity.
    + now rewrite !append_assoc.
  - cbn [Klogr.step]. rewrite Hp.
    destruct (Klogr.prefix l); [now elim Hl | discriminate].
Qed.

(** The prefix of a derived logger: the names passed to [WithName], in
    order, joined by [/] behind the prefix of the logger one started from;
    when that prefix is empty, the names from the first name on that is not
    empty.  The other calls leave the prefix alone. *)
Theorem prefix_of_run cs l :
  Klogr.prefix (Klogr.run cs l)
  = match Klogr.prefix l with
    | EmptyString => String.concat "/" (Klogr.drop_empty (Klogr.names cs))
    | String _ _ => String.concat "/" (Klogr.prefix l :: Klogr.names cs)
    end.
Proof.
  destruct (Klogr.prefix l) as [| a p] eqn:E.
  - revert l E. induction cs as [| c cs IH]; intros l E; [exact E |].
    rewrite klogr_run_cons.
    destruct c as [lvl | name | kv | d]; try (now apply IH).
    cbn [Klogr.step Klogr.names].
    pose proof (WithName_prefix name l) as Hp. rewrite E in Hp.
    destruct name as [| b name].
    + cbn [Klogr.drop_empty]. now apply IH.
    + cbn [Klogr.drop_empty].
      rewrite prefix_after_nonempty by (rewrite Hp; discriminate).
      now rewrite Hp.
  - rewrite <- E. apply prefix_after_nonempty. rewrite E. discriminate.
Qed.

Lemma step_values l c :
  Klogr.values (Klogr.step l c)
  = Klogr.values l
    ++ match c with Klogr.CallWithValues kvList => kvList | _ => [] end
  /\ Klogr.format (Klogr.step l c) = Klogr.format l.
Proof.
  destruct c; cbn [Klogr.step]; unfold Klogr.V, Klogr.WithName,
    Klogr.WithValues, Klogr.WithCallDepth, Klogr.clone, Klogr.copySlice;
    try destruct (0 <? String.length _)%nat; cbn;
    rewrite ?app_nil_r; now split.
Qed.

(** The key/value pairs of a derived logger are those of the logger one
    started from followed by the lists passed to [WithValues], in order
    (nothing is removed or merged, a key passed twice is kept twice), and
    the format never changes. *)
Theorem values_of_run cs l :
  Klogr.values (Klogr.run cs l) = Klogr.values l ++ Klogr.key_values cs
  /\ Klogr.format (Klogr.run cs l) = Klogr.format l.
Proof.
  revert l. induction cs as [| c cs IH]; intros l.
  - cbn. now rewrite app_nil_r.
  - rewrite klogr_run_cons. destruct (IH (Klogr.step l c)) as [Hv Hf].
    destruct (step_values l c) as [Sv Sf].
    rewrite Hv, Hf, Sv, Sf. split; [| reflexivity].
    rewrite <- app_assoc. destruct c; cbn [Klogr.key_values]; reflexivity.
Qed.

Lemma last_any_default (g : string) (fs : list string) (d1 d2 : string) :
  last (g :: fs) d1 = last (g :: fs) d2.
Proof.
  revert g. induction fs as [| h fs IH]; intros g; [reflexivity |].
  change (last (h :: fs) d1 = last (h :: fs) d2). apply IH.
Qed.

(** [NewWithOptions] starts from level 0, an empty prefix, no values and the
    format [Klog]; of several [WithFormat] options the last one decides the
    format. *)
Theorem NewWithOptions_formats (fs : list string) :
  Klogr.NewWithOptions (Value := Value) (map Klogr.WithFormat fs)
  = Klogr.mkLogger 0 0 EmptyString [] (last fs Klogr.FormatKlog).
Proof.
  unfold Klogr.NewWithOptions.
  generalize Klogr.FormatKlog as f0. intros f0.
  revert f0. induction fs as [| f fs IH]; intros f0; [reflexivity |].
  cbn [map fold_left]. unfold Klogr.WithFormat at 2. cbn.
  rewrite IH. f_equal. destruct fs as [| g fs]; [reflexivity |].
  rewrite (last_any_default g fs f f0). reflexivity.
Qed.

End Klogr_properties.

(** ** The order of strings *)

Lemma string_leb_iff (a b : string) :
  String.leb a b = true <-> a = b \/ String_as_OT.lt a b.
Proof.
  unfold String.leb.
  destruct (String.compare a b) eqn:E.
  - apply String.compare_eq_iff in E. intuition.
  - apply String_as_OT.cmp_lt in E. intuition.
  - split; [discriminate |]. intros [-> | H].
    + assert (String.compare b b = Eq) by (apply String_as_OT.cmp_eq; reflexivity).
      congruence.
    + apply String_as_OT.cmp_lt in H. unfold String_as_OT.cmp in H. congruence.
Qed.

Lemma string_leb_trans (a b c : string) :
  String.leb a b = true -> String.leb b c = true -> String.leb a c = true.
Proof.
  rewrite !string_leb_iff. intros [-> | H1] [-> | H2]; auto.
  right. exact (String_as_OT.lt_trans _ _ _ H1 H2).
Qed.

Lemma string_leb_false (a b : string) :
  String.leb a b = false -> String.leb b a = true.
Proof. destruct (String.leb_total a b) as [H | H]; congruence. Qed.

(** ** Sorting strings *)

Ltac leb_cases :=
  repeat match goal with
  | |- context [String.leb ?a ?b] =>
      let E := fresh "E" in destruct (String.leb a b) eqn:E
  end.

Lemma insert_insert (a b : string) (ks : list string) :
  KlogrFlatten.insert a (KlogrFlatten.insert b ks)
  = KlogrFlatten.insert b (KlogrFlatten.insert a ks).
Proof.
  induction ks as [| x ks IH].
  - simpl. leb_cases; try reflexivity.
    + now rewrite (String.leb_antisym _ _ E E0).
    + apply string_leb_false in E. congruence.
  - cbn [KlogrFlatten.insert].
    destruct (String.leb b x) eqn:Ebx; destruct (String.leb a x) eqn:Eax;
      cbn [KlogrFlatten.insert]; rewrite ?Ebx, ?Eax.
    + destruct (String.leb a b) eqn:Eab; destruct (String.leb b a) eqn:Eba;
        try reflexivity.
      * now rewrite (String.leb_antisym _ _ Eab Eba).
      * apply string_leb_false in Eab. congruence.
    + assert (Eab : String.leb a b = false).
      { destruct (String.leb a b) eqn:Eab; [| reflexivity].
        rewrite (string_leb_trans _ _ _ Eab Ebx) in Eax. discriminate. }
      now rewrite Eab.
    + assert (Eba : String.leb b a = false).
      { destruct (String.leb b a) eqn:Eba; [| reflexivity].
        rewrite (string_leb_trans _ _ _ Eba Eax) in Ebx. discriminate. }
      now rewrite Eba.
    + now rewrite IH.
Qed.

Lemma sort_Strings_permutation (ks ks' : list string) :
  Permutation ks ks' ->
  KlogrFlatten.sort_Strings ks = KlogrFlatten.sort_Strings ks'.
Proof.
  induction 1 as [| x l l' _ IH | x y l | l l' l'' _ IH1 _ IH2]; simpl.
  - reflexivity.
  - now rewrite IH.
  - apply insert_insert.
  - now rewrite IH1.
Qed.

Lemma insert_permutation (k : string) (ks : list string) :
  Permutation (k :: ks) (KlogrFlatten.insert k ks).
Proof.
  induction ks as [| x ks IH]; simpl; [reflexivity |].
  destruct (String.leb k x); [reflexivity |].
  rewrite perm_swap. now apply perm_skip.
Qed.

Lemma sort_Strings_elements (ks : list string) :
  Permutation ks (KlogrFlatten.sort_Strings ks).
Proof.
  induction ks as [| k ks IH]; simpl; [reflexivity |].
  rewrite <- insert_permutation. now apply perm_skip.
Qed.

Lemma insert_sorted (k : string) (ks : list string) :
  StronglySorted (fun a b => String.leb a b = true) ks ->
  StronglySorted (fun a b => String.leb a b = true) (KlogrFlatten.insert k ks).
Proof.
  induction 1 as [| x ks Hs IH Hx]; simpl.
  - constructor; constructor.
  - destruct (String.leb k x) eqn:E.
    + constructor; [now constructor |].
      constructor; [exact E |].
      apply Forall_forall. intros y Hy.
      rewrite Forall_forall in Hx.
      exact (string_leb_trans _ _ _ E (Hx y Hy)).
    + constructor; [exact IH |].
      apply Forall_forall. intros y Hy.
      apply (Permutation_in _ (Permutation_sym (insert_permutation k ks))) in Hy.
      destruct Hy as [<- | Hy]; [now apply string_leb_false |].
      rewrite Forall_forall in Hx. now apply Hx.
Qed.

Lemma sort_Strings_sorted (ks : list string) :
  StronglySorted (fun a b => String.leb a b = true) (KlogrFlatten.sort_Strings ks).
Proof.
  induction ks as [| k ks IH]; simpl; [constructor | now apply insert_sorted].
Qed.

(** ** [flatten] *)

Section Flatten_properties.

Context {Other : Type} (pretty : KlogrFlatten.value Other -> string).
Implicit Types ps : list (string * KlogrFlatten.value Other).
Implicit Types vals : string -> KlogrFlatten.value Other.

Lemma key_values_app ps ps' :
  KlogrFlatten.key_values (ps ++ ps')
  = KlogrFlatten.key_values ps ++ KlogrFlatten.key_values ps'.
Proof.
  induction ps as [| [k v] ps IH]; simpl; [reflexivity | now rewrite IH].
Qed.

(** The first loop over a list that starts with pairs. *)
Lemma collect_pairs ps : forall rest keys vals,
  KlogrFlatten.collect (KlogrFlatten.key_values ps ++ rest) keys vals
  = KlogrFlatten.collect rest (keys ++ map fst ps)
      (KlogrFlatten.stores ps vals).
Proof.
  induction ps as [| [k v] ps IH]; intros rest keys vals.
  - simpl. now rewrite app_nil_r.
  - cbn [KlogrFlatten.key_values app KlogrFlatten.collect].
    rewrite IH. cbn [map fst]. now rewrite <- app_assoc.
Qed.

Lemma stores_lookup ps : forall vals k,
  KlogrFlatten.stores ps vals k
  = if KlogrFlatten.has_key ps k then KlogrFlatten.last_value ps k else vals k.
Proof.
  induction ps as [| [k0 v] ps IH]; intros vals k; [reflexivity |].
  unfold KlogrFlatten.stores in *. cbn [fold_left fst snd].
  rewrite IH. cbn [KlogrFlatten.last_value KlogrFlatten.has_key existsb fst].
  fold (KlogrFlatten.has_key ps k).
  destruct (KlogrFlatten.has_key ps k); [now rewrite orb_true_r |].
  rewrite orb_false_r. unfold KlogrFlatten.store.
  rewrite (String.eqb_sym k k0). now destruct (String.eqb k0 k).
Qed.

Lemma has_key_In ps k :
  In k (map fst ps) -> KlogrFlatten.has_key ps k = true.
Proof.
  intros H. apply in_map_iff in H. destruct H as ([k' v] & <- & Hin).
  unfold KlogrFlatten.has_key. apply existsb_exists.
  exists (k', v). split; [exact Hin | apply String.eqb_refl].
Qed.

Lemma write_ext (keys : list string) vals vals' :
  (forall k, In k keys -> vals k = vals' k) ->
  KlogrFlatten.write pretty keys vals = KlogrFlatten.write pretty keys vals'.
Proof.
  intros H. unfold KlogrFlatten.write. f_equal.
  apply map_ext_in. intros k Hk. now rewrite (H k Hk).
Qed.

(** The text for a list of pairs, in closed form. *)
Lemma flatten_of_pairs ps :
  KlogrFlatten.flatten pretty (KlogrFlatten.key_values ps)
  = KlogrFlatten.Returns
      (KlogrFlatten.write pretty (KlogrFlatten.sort_Strings (map fst ps))
         (KlogrFlatten.last_value ps)).
Proof.
  unfold KlogrFlatten.flatten.
  rewrite <- (app_nil_r (KlogrFlatten.key_values ps)), collect_pairs.
  cbn [KlogrFlatten.collect app]. f_equal.
  apply write_ext. intros k Hk.
  apply (Permutation_in _ (Permutation_sym (sort_Strings_elements _))) in Hk.
  now rewrite stores_lookup, (has_key_In ps k Hk).
Qed.

Lemma last_value_unique ps : 
  NoDup (map fst ps) ->
  forall k v, In (k, v) ps -> KlogrFlatten.last_value ps k = v.
Proof.
  induction ps as [| [k0 v0] ps IH]; intros Hnd k v Hin; [destruct Hin |].
  cbn [map fst] in Hnd. inversion Hnd as [| x l Hnot Hnd' ]; subst.
  cbn [KlogrFlatten.last_value]. destruct Hin as [E | Hin].
  - injection E as -> ->.
    destruct (KlogrFlatten.has_key ps k) eqn:Hk.
    + exfalso. apply Hnot. unfold KlogrFlatten.has_key in Hk.
      apply existsb_exists in Hk. destruct Hk as ([k' v'] & Hin' & Ek).
      apply String.eqb_eq in Ek. simpl in Ek. subst k'.
      apply in_map_iff. now exists (k, v').
    + now rewrite String.eqb_refl.
  - assert (Hk : KlogrFlatten.has_key ps k = true).
    { apply has_key_In. apply in_map_iff. now exists (k, v). }
    rewrite Hk. now apply IH.
Qed.

Lemma has_key_app ps1 ps2 k :
  KlogrFlatten.has_key (ps1 ++ ps2) k
  = KlogrFlatten.has_key ps1 k || KlogrFlatten.has_key ps2 k.
Proof. unfold KlogrFlatten.has_key. apply existsb_app. Qed.

Lemma has_key_not_In ps k :
  ~ In k (map fst ps) -> KlogrFlatten.has_key ps k = false.
Proof.
  intros H. destruct (KlogrFlatten.has_key ps k) eqn:E; [| reflexivity].
  exfalso. apply H. unfold KlogrFlatten.has_key in E.
  apply existsb_exists in E. destruct E as ([k' v'] & Hin & Ek).
  apply String.eqb_eq in Ek. simpl in Ek. subst k'.
  apply in_map_iff. now exists (k, v').
Qed.

(** The value of a key is that of its last pair. *)
Lemma last_value_last ps1 : forall k v ps2,
  ~ In k (map fst ps2) ->
  KlogrFlatten.last_value (ps1 ++ (k, v) :: ps2) k = v.
Proof.
  induction ps1 as [| [k0 v0] ps1 IH]; intros k v ps2 Hk.
  - cbn [app KlogrFlatten.last_value].
    now rewrite (has_key_not_In ps2 k Hk), String.eqb_refl.
  - cbn [app KlogrFlatten.last_value].
    assert (E : KlogrFlatten.has_key (ps1 ++ (k, v) :: ps2) k = true).
    { rewrite has_key_app. apply orb_true_iff. right.
      unfold KlogrFlatten.has_key. cbn [existsb fst].
      now rewrite String.eqb_refl. }
    rewrite E. now apply IH.
Qed.

(** On keys that are strings [flatten] does not panic.  Its text is one
    item [key=value] for every pair, a key passed twice twice, the items
    separated by one space and in the increasing order of their keys; key
    and value are printed by [pretty], and the value printed for a key is
    that of the last pair with the key. *)
Theorem flatten_pairs ps :
  let keys := KlogrFlatten.sort_Strings (map fst ps) in
  KlogrFlatten.flatten pretty (KlogrFlatten.key_values ps)
  = KlogrFlatten.Returns
      (String.concat " "
         (map (fun k =>
                 String.append (pretty (KlogrFlatten.Str k))
                   (String.append "="
                      (pretty (KlogrFlatten.last_value ps k))))
              keys))
  /\ Permutation (map fst ps) keys
  /\ StronglySorted (fun a b => String.leb a b = true) keys
  /\ (forall ps1 k v ps2,
         ps = ps1 ++ (k, v) :: ps2 -> ~ In k (map fst ps2) ->
         KlogrFlatten.last_value ps k = v).
Proof.
  intros keys. split; [| split; [| split]].
  - rewrite flatten_of_pairs. reflexivity.
  - apply sort_Strings_elements.
  - apply sort_Strings_sorted.
  - intros ps1 k v ps2 -> Hk. now apply last_value_last.
Qed.

(** The text does not depend on the order of the pairs, when no key occurs
    twice. *)
Theorem flatten_order_independent ps ps' :
  Permutation ps ps' -> NoDup (map fst ps) ->
  KlogrFlatten.flatten pretty (KlogrFlatten.key_values ps)
  = KlogrFlatten.flatten pretty (KlogrFlatten.key_values ps').
Proof.
  intros Hp Hnd. rewrite !flatten_of_pairs. f_equal.
  rewrite (sort_Strings_permutation _ _ (Permutation_map fst Hp)).
  apply write_ext. intros k Hk.
  apply (Permutation_in _ (Permutation_sym (sort_Strings_elements _))) in Hk.
  apply in_map_iff in Hk. destruct Hk as ([k' v] & E & Hin). simpl in E. subst k'.
  assert (Hnd' : NoDup (map fst ps'))
    by exact (Permutation_NoDup (Permutation_map fst Hp) Hnd).
  rewrite (last_value_unique ps' Hnd' k v Hin).
  apply (last_value_unique ps Hnd k v).
  exact (Permutation_in _ (Permutation_sym Hp) Hin).
Qed.

(** A key that is not a string makes [flatten] panic, with the message
    that quotes the first such key; what follows it is not looked at. *)
Theorem flatten_bad_key ps (key : KlogrFlatten.value Other)
    (rest : list (KlogrFlatten.value Other)) :
  (forall s, key <> KlogrFlatten.Str s) ->
  KlogrFlatten.flatten pretty (KlogrFlatten.key_values ps ++ key :: rest)
  = KlogrFlatten.Panics
      (String.append "key is not a string: " (pretty key)).
Proof.
  intros Hk. unfold KlogrFlatten.flatten. rewrite collect_pairs.
  destruct key as [| s | o]; [reflexivity | now elim (Hk s) | reflexivity].
Qed.

(** A key without a value at the end of the list gets the value [nil]. *)
Theorem flatten_odd ps (k : string) :
  KlogrFlatten.flatten pretty
    (KlogrFlatten.key_values ps ++ [KlogrFlatten.Str k])
  = KlogrFlatten.flatten pretty
      (KlogrFlatten.key_values (ps ++ [(k, KlogrFlatten.Nil)])).
Proof.
  unfold KlogrFlatten.flatten.
  rewrite key_values_app, !collect_pairs. reflexivity.
Qed.

End Flatten_properties.

(** ** [flatten] with a [pretty] that prints strings as they are *)

Lemma flatten_pairs_witness :
  let pretty (v : KlogrFlatten.value unit) :=
    match v with
    | KlogrFlatten.Nil => "null"%string
    | KlogrFlatten.Str s => s
    | KlogrFlatten.Any _ => "{}"%string
    end in
  KlogrFlatten.flatten pretty
    [KlogrFlatten.Str "b"; KlogrFlatten.Str "2"; KlogrFlatten.Str "a";
     KlogrFlatten.Nil; KlogrFlatten.Str "b"; KlogrFlatten.Str "3"]
  = KlogrFlatten.Returns "a=null b=3 b=3".
Proof.
  intros pretty.
  exact (proj1 (flatten_pairs pretty
                  [("b"%string, KlogrFlatten.Str "2");
                   ("a"%string, KlogrFlatten.Nil);
                   ("b"%string, KlogrFlatten.Str "3")])).
Defined.

Lemma flatten_order_independent_witness :
  let pretty (v : KlogrFlatten.value unit) :=
    match v with
    | KlogrFlatten.Nil => "null"%string
    | KlogrFlatten.Str s => s
    | KlogrFlatten.Any _ => "{}"%string
    end in
  KlogrFlatten.flatten pretty
    (KlogrFlatten.key_values
       [("b"%string, KlogrFlatten.Str "2"); ("a"%string, KlogrFlatten.Nil)])
  = KlogrFlatten.flatten pretty
      (KlogrFlatten.key_values
         [("a"%string, KlogrFlatten.Nil); ("b"%string, KlogrFlatten.Str "2")]).
Proof.
  intros pretty. apply flatten_order_independent.
  - apply perm_swap.
  - repeat constructor; simpl; intuition discriminate.
Defined.

Lemma flatten_bad_key_witness :
  let pretty (v : KlogrFlatten.value unit) :=
    match v with
    | KlogrFlatten.Nil => "null"%string
    | KlogrFlatten.Str s => s
    | KlogrFlatten.Any _ => "{}"%string
    end in
  KlogrFlatten.flatten pretty
    [KlogrFlatten.Str "a"; KlogrFlatten.Str "1"; KlogrFlatten.Any tt;
     KlogrFlatten.Str "2"]
  = KlogrFlatten.Panics "key is not a string: {}".
Proof.
  intros pretty.
  apply (flatten_bad_key pretty [("a"%string, KlogrFlatten.Str "1")]
           (KlogrFlatten.Any tt) [KlogrFlatten.Str "2"]).
  intros s. discriminate.
Defined.
